(** * The fetch / extract / analyze pipeline (q3): model and properties

    The three stages of [src/q3] are embedded as functions over an explicit
    description of what each stage finds on the shared filesystem.

    Conventions of the embedding.
    - A Python [str] is the list of its Unicode code points ([list N]).
    - [s.find(t)], which answers [-1] when [t] does not occur, answers an
      [option nat] here ([None] for [-1]).
    - A Python [float] obtained as [float(a) / float(b)] is represented by the
      exact rational [a / b] of which the machine number is the rounding.
    - A [try] block that may raise is a function into a sum: [inl msg] carries
      [str(e)].
    - A stage that does not end normally is [None]: in the analyzer an
      exception that leaves [main] uncaught, in the processor a [while True]
      loop that is not left within the number of turns given as [fuel].
    - The stages are modelled from the point where the marker they wait for
      is there; timestamps and console output are left out of the records.
    - The [main] of the processor and of the analyzer is modelled up to its
      last [write_json], which is outside every [try]: the result is the
      exit code together with the object handed to that write.  The write
      raises when a string of the object cannot be encoded in UTF-8, as a
      file name with a lone surrogate; [encodable] says that a string can.
    - The character tables ([lower_cp], [is_word]) are exact for Basic Latin
      and Latin-1, and [lower_cp] at U+0130, the one character whose lower
      case is longer than itself; the properties of tokens that rest on the
      tables are stated for texts [within_latin_1]. *)

From Stdlib Require Import ZArith NArith QArith Ascii String DecimalString DecimalNat.
From stdpp Require Import base tactics option list gmap sorting lexico.

Local Open Scope nat_scope.
#[local] Set Warnings "-clear-no-such-hyp".

Abbreviation pystr := (list N).

(** ** Python strings *)

Module PyStr.

(** A literal, written as a Rocq string of ASCII characters. *)
Definition py (s : string) : pystr :=
  (λ a, N_of_ascii a) <$> list_ascii_of_string s.
Global Arguments py s%_string : simpl never.

Definition in_range (lo hi c : N) : bool := ((lo <=? c) && (c <=? hi))%N.

(** [str.lower], code point by code point.  The table holds the cased letters
    of Basic Latin and Latin-1 and U+0130 (capital I with dot above), whose
    lowercase form is the two code points U+0069 U+0307.  The letters of
    other scripts are outside the table and are returned as they are, which
    is not what Python does with the cased ones among them. *)
Definition lower_cp (c : N) : pystr :=
  if in_range 65 90 c then [c + 32]%N
  else if in_range 192 222 c && negb (c =? 215)%N then [c + 32]%N
  else if (c =? 304)%N then [105; 775]%N
  else [c].

Definition lower (s : pystr) : pystr := flat_map lower_cp s.

(** [str.isspace] on one code point, which is also the class [\s] of a
    Unicode pattern and the class removed by [str.strip()]. *)
Definition isspace (c : N) : bool :=
  in_range 9 13 c || in_range 28 32 c || (c =? 133)%N || (c =? 160)%N
  || (c =? 5760)%N || in_range 8192 8202 c || (c =? 8232)%N || (c =? 8233)%N
  || (c =? 8239)%N || (c =? 8287)%N || (c =? 12288)%N.

(** The class [\w] of a Unicode pattern: alphanumeric or underscore.  The
    table covers Basic Latin and Latin-1; code points beyond are outside it
    and count as separators here, whereas Python takes the letters and
    digits of every script as word characters. *)
Definition is_word (c : N) : bool :=
  in_range 48 57 c || in_range 65 90 c || (c =? 95)%N || in_range 97 122 c
  || (c =? 170)%N || (c =? 178)%N || (c =? 179)%N || (c =? 181)%N
  || (c =? 185)%N || (c =? 186)%N || in_range 188 190 c
  || in_range 192 214 c || in_range 216 246 c || in_range 248 255 c.

Fixpoint startswith (s p : pystr) {struct p} : bool :=
  match p, s with
  | [], _ => true
  | _ :: _, [] => false
  | a :: p', c :: s' => (c =? a)%N && startswith s' p'
  end.
Definition endswith (s p : pystr) : bool := startswith (reverse s) (reverse p).

(** [s.find(sub)]: index of the first occurrence. *)
Fixpoint find (s sub : pystr) : option nat :=
  if startswith s sub then Some 0
  else match s with
       | [] => None
       | _ :: s' => S <$> find s' sub
       end.

(** [s.find(sub, start)] for [start <= len(s)]. *)
Definition find_from (s sub : pystr) (start : nat) : option nat :=
  (λ i, start + i) <$> find (drop start s) sub.

Fixpoint lstrip (s : pystr) : pystr :=
  match s with
  | c :: r => if isspace c then lstrip r else s
  | [] => []
  end.
Fixpoint rstrip (s : pystr) : pystr :=
  match s with
  | [] => []
  | c :: r =>
      match rstrip r with
      | [] => if isspace c then [] else [c]
      | r' => c :: r'
      end
  end.
Definition strip (s : pystr) : pystr := rstrip (lstrip s).

(** [s.split(sep)] for a separator of one character. *)
Fixpoint split (sep : N) (s : pystr) : list pystr :=
  match s with
  | [] => [[]]
  | c :: r =>
      if (c =? sep)%N then [] :: split sep r
      else match split sep r with
           | h :: t => (c :: h) :: t
           | [] => [[c]]
           end
  end.

(** [s.split(sep)[-1]] *)
Definition split_last (sep : N) (s : pystr) : pystr := List.last (split sep s) [].

(** [s.rsplit(sep, 1)[0]]: what precedes the last separator, or all of [s]. *)
Fixpoint rsplit1_head (sep : N) (s : pystr) : pystr :=
  match s with
  | [] => []
  | c :: r =>
      if bool_decide (sep ∈ r) then c :: rsplit1_head sep r
      else if (c =? sep)%N then [] else c :: r
  end.

(** [str(n)] for a natural number. *)
Definition str_of_nat (n : nat) : pystr := py (NilEmpty.string_of_uint (Nat.to_uint n)).

(** [" ".join(ws)] *)
Fixpoint join_space (ws : list pystr) : pystr :=
  match ws with
  | [] => []
  | [w] => w
  | w :: rest => w ++ 32%N :: join_space rest
  end.

(** [os.path.join(dir, name)] for a [dir] that does not end with a slash. *)
Definition os_path_join (dir name : pystr) : pystr :=
  if startswith name (py "/") then name else dir ++ py "/" ++ name.
Global Arguments os_path_join : simpl never.

(** Comparison of two strings with [<]: code point by code point. *)
Definition str_lt (a b : pystr) : Prop := lexico a b.
Global Instance str_lt_dec a b : Decision (str_lt a b).
Proof. unfold str_lt. apply _. Defined.

End PyStr.
Import PyStr.

(** ** The compiled patterns *)

Module Re.

(** [WORD_RE.findall]: the maximal runs of [\w]; [cur] is the run being read,
    last character first. *)
Fixpoint findall_word (cur : pystr) (s : pystr) : list pystr :=
  match s with
  | [] => match cur with [] => [] | _ => [reverse cur] end
  | c :: r =>
      if is_word c then findall_word (c :: cur) r
      else match cur with
           | [] => findall_word [] r
           | _ => reverse cur :: findall_word [] r
           end
  end.
Definition WORD_RE_findall (s : pystr) : list pystr := findall_word [] s.

(** [re.split] on the runs of a character class; [in_run] tells that the
    previous character was a separator. *)
Fixpoint split_runs (is_sep : N → bool) (in_run : bool) (s : pystr) : list pystr :=
  match s with
  | [] => [[]]
  | c :: r =>
      if is_sep c then
        if in_run then split_runs is_sep true r else [] :: split_runs is_sep true r
      else match split_runs is_sep false r with
           | h :: t => (c :: h) :: t
           | [] => [[c]]
           end
  end.

Definition is_sentence_end (c : N) : bool := (c =? 46)%N || (c =? 33)%N || (c =? 63)%N.
Definition SENT_SPLIT_RE_split (s : pystr) : list pystr := split_runs is_sentence_end false s.

(** [TAG_RE] is [<[^>]+>]: a match starts at a [<] that is followed by at
    least one character other than [>] and, further on, by a [>]. *)
Definition tag_starts (c : N) (r : pystr) : bool :=
  (c =? 60)%N
  && match r with d :: _ => negb (d =? 62)%N | [] => false end
  && bool_decide (62%N ∈ r).

(** [TAG_RE.sub(" ", s)]; [in_tag] tells that a match is being skipped. *)
Fixpoint tag_sub (in_tag : bool) (s : pystr) : pystr :=
  match s with
  | [] => []
  | c :: r =>
      if in_tag then tag_sub (negb (c =? 62)%N) r
      else if tag_starts c r then 32%N :: tag_sub true r
      else c :: tag_sub false r
  end.
Definition TAG_RE_sub (s : pystr) : pystr := tag_sub false s.

(** [WS_RE.sub(" ", s)]: every run of [\s] becomes one space. *)
Fixpoint ws_sub (in_run : bool) (s : pystr) : pystr :=
  match s with
  | [] => []
  | c :: r =>
      if isspace c then
        if in_run then ws_sub true r else 32%N :: ws_sub true r
      else c :: ws_sub false r
  end.
Definition WS_RE_sub (s : pystr) : pystr := ws_sub false s.

(** [HREF_RE] and [SRC_RE]: the attribute name in either case, [=], an
    optional quote, and the captured run of characters other than quotes,
    space and [>]. *)
Definition is_value_char (c : N) : bool :=
  negb ((c =? 39)%N || (c =? 34)%N || (c =? 32)%N || (c =? 62)%N).

Fixpoint take_value (s : pystr) : pystr :=
  match s with
  | c :: r => if is_value_char c then c :: take_value r else []
  | [] => []
  end.

Fixpoint match_name (name : pystr) (s : pystr) : option pystr :=
  match name, s with
  | [], _ => Some s
  | a :: name', c :: r =>
      if ((c =? a) || (c + 32 =? a))%N then match_name name' r else None
  | _ :: _, [] => None
  end.

(** The capture and the length of the whole match, when the pattern matches
    at the head of [s]. *)
Definition match_attr (name : pystr) (s : pystr) : option (pystr * nat) :=
  match match_name name s with
  | Some (61%N :: r) =>
      let quoted := match r with q :: _ => (q =? 39)%N || (q =? 34)%N | [] => false end in
      let body := if quoted then drop 1 r else r in
      match take_value body with
      | [] => None
      | v => Some (v, length name + 1 + (if quoted then 1 else 0) + length v)
      end
  | _ => None
  end.

Fixpoint attr_findall (name : pystr) (skip : nat) (s : pystr) : list pystr :=
  match s with
  | [] => []
  | _ :: r =>
      match skip with
      | S k => attr_findall name k r
      | 0 => match match_attr name s with
             | Some (v, n) => v :: attr_findall name (n - 1) r
             | None => attr_findall name 0 r
             end
      end
  end.
Definition HREF_RE_findall (s : pystr) : list pystr := attr_findall (py "href") 0 s.
Definition SRC_RE_findall (s : pystr) : list pystr := attr_findall (py "src") 0 s.

(** The number of matches of [P_TAG_RE], [<[Pp]\b].  The boundary is decided
    with [is_word], hence exactly when the next character is of Latin-1. *)
Fixpoint P_TAG_RE_count (s : pystr) : nat :=
  match s with
  | [] => 0
  | c :: r =>
      (match r with
       | p :: rest =>
           if (c =? 60)%N && ((p =? 112)%N || (p =? 80)%N)
              && match rest with d :: _ => negb (is_word d) | [] => true end
           then 1 else 0
       | [] => 0
       end) + P_TAG_RE_count r
  end.

End Re.
Import Re.

(** ** Stage 1: the fetcher ([q3/fetcher/fetch.py]) *)

Module Fetcher.

Record result := {
  url : pystr;
  file : option pystr;
  size : option nat;
  error : option pystr;
  status : pystr
}.

Record manifest := {
  urls_processed : nat;
  successful : nat;
  failed : nat;
  results : list result
}.

(** What the stage meets: the lines of the input file, the answer of the
    network to the request number [index] ([inl] the message of the exception,
    [inr] the body), and whether a raw file can be written. *)
Record world := {
  lines : list pystr;
  urlopen_read : nat → pystr → pystr + list N;
  write_bytes : pystr → list N → option pystr
}.

Record state := {
  st_results : list result;
  success_count : nat;
  fail_count : nat;
  raw_written : list (pystr * list N)
}.

Fixpoint read_urls (lines : list pystr) : list pystr :=
  match lines with
  | [] => []
  | l :: rest =>
      let line := strip l in
      match line with
      | [] => read_urls rest
      | _ => line :: read_urls rest
      end
  end.

Definition record_failure (st : state) (u e : pystr) : state :=
  {| st_results := st_results st ++
       [{| url := u; file := None; size := None; error := Some e; status := py "failed" |}];
     success_count := success_count st;
     fail_count := fail_count st + 1;
     raw_written := raw_written st |}.

(** The body of the loop over the URLs: one request, one record. *)
Definition fetch_one (w : world) (index : nat) (u : pystr) (st : state) : state :=
  let page_num := index + 1 in
  let name := py "page_" ++ str_of_nat page_num ++ py ".html" in
  let output_file := py "/shared/raw/" ++ name in
  match urlopen_read w index u with
  | inl e => record_failure st u e
  | inr content =>
      match write_bytes w output_file content with
      | Some e => record_failure st u e
      | None =>
          {| st_results := st_results st ++
               [{| url := u; file := Some name; size := Some (length content);
                   error := None; status := py "success" |}];
             success_count := success_count st + 1;
             fail_count := fail_count st;
             raw_written := raw_written st ++ [(output_file, content)] |}
      end
  end.

Fixpoint fetch_loop (w : world) (urls : list pystr) (index : nat) (st : state) : state :=
  match urls with
  | [] => st
  | u :: rest => fetch_loop w rest (index + 1) (fetch_one w index u st)
  end.

Definition main (w : world) : manifest * list (pystr * list N) :=
  let urls := read_urls (lines w) in
  let st := fetch_loop w urls 0
              {| st_results := []; success_count := 0; fail_count := 0; raw_written := [] |} in
  ({| urls_processed := length urls;
      successful := success_count st;
      failed := fail_count st;
      results := st_results st |},
   raw_written st).

End Fetcher.

(** ** The decoding of a raw file ([read_text_file]) *)

Module Decoding.

(** A byte of the form [10xxxxxx]. *)
Definition continuation (b : N) : bool := in_range 128 191 b.

(** [data.decode("utf-8")] on the bytes of a file: the code points of the
    well-formed sequences (one to four bytes, no overlong form, no
    surrogate, nothing beyond U+10FFFF), or [None] when the call raises. *)
Fixpoint utf_8 (data : list N) : option pystr :=
  match data with
  | [] => Some []
  | b0 :: r =>
      if (b0 <? 128)%N then (b0 ::.) <$> utf_8 r
      else if in_range 194 223 b0 then
        match r with
        | b1 :: r1 =>
            if continuation b1
            then (((b0 - 192) * 64 + (b1 - 128))%N ::.) <$> utf_8 r1
            else None
        | _ => None
        end
      else if in_range 224 239 b0 then
        match r with
        | b1 :: b2 :: r2 =>
            if in_range (if (b0 =? 224)%N then 160 else 128)
                        (if (b0 =? 237)%N then 159 else 191) b1
               && continuation b2
            then (((b0 - 224) * 4096 + (b1 - 128) * 64 + (b2 - 128))%N ::.) <$> utf_8 r2
            else None
        | _ => None
        end
      else if in_range 240 244 b0 then
        match r with
        | b1 :: b2 :: b3 :: r3 =>
            if in_range (if (b0 =? 240)%N then 144 else 128)
                        (if (b0 =? 244)%N then 143 else 191) b1
               && continuation b2 && continuation b3
            then (((b0 - 240) * 262144 + (b1 - 128) * 4096
                   + (b2 - 128) * 64 + (b3 - 128))%N ::.) <$> utf_8 r3
            else None
        | _ => None
        end
      else None
  end.

(** [data.decode("latin-1", errors="replace")]: every byte is the code point
    of its value, and nothing is left to replace. *)
Definition latin_1 (data : list N) : pystr := data.

(** What [read_text_file] returns for the bytes it has read. *)
Definition decode (data : list N) : pystr :=
  match utf_8 data with
  | Some s => s
  | None => latin_1 data
  end.

End Decoding.

(** ** Stage 2: the processor ([q3/processor/process.py]) *)

Module Processor.

Definition RAW_DIR : pystr := py "/shared/raw".
Definition PROCESSED_DIR : pystr := py "/shared/processed".

(** The [while True] loop of [remove_tag_block].  [fuel] bounds the number of
    iterations; [None] says that the loop has not been left within them. *)
Fixpoint remove_tag_block_loop (fuel : nat) (open_pat close_pat html low : pystr)
  : option pystr :=
  match fuel with
  | 0 => None
  | S fuel' =>
      match find low open_pat with
      | None => Some html
      | Some start =>
          match find_from low close_pat start with
          | None => Some (take start html)
          | Some e =>
              let e' := e + length close_pat in
              let html' := take start html ++ 32%N :: drop e' html in
              remove_tag_block_loop fuel' open_pat close_pat html' (lower html')
          end
      end
  end.

Definition remove_tag_block (fuel : nat) (html tag_name : pystr) : option pystr :=
  let low := lower html in
  let open_pat := py "<" ++ tag_name in
  let close_pat := py "</" ++ tag_name ++ py ">" in
  remove_tag_block_loop fuel open_pat close_pat html low.

Definition strip_html (fuel : nat) (html_content : pystr)
  : option (pystr * list pystr * list pystr) :=
  html1 ← remove_tag_block fuel html_content (py "script");
  html2 ← remove_tag_block fuel html1 (py "style");
  let links := HREF_RE_findall html2 in
  let images := SRC_RE_findall html2 in
  let text := TAG_RE_sub html2 in
  let text := strip (WS_RE_sub text) in
  Some (text, links, images).

Definition count_paragraphs (html_content extracted_text : pystr) : nat :=
  let p_count := P_TAG_RE_count html_content in
  if 0 <? p_count then p_count
  else match strip extracted_text with
       | [] => 0
       | _ => 1
       end.

Fixpoint count_nonblank (parts : list pystr) : nat :=
  match parts with
  | [] => 0
  | p :: rest =>
      match strip p with
      | [] => count_nonblank rest
      | _ => S (count_nonblank rest)
      end
  end.
Definition sentence_count (text : pystr) : nat :=
  count_nonblank (SENT_SPLIT_RE_split text).

Fixpoint total_length (words : list pystr) : nat :=
  match words with
  | [] => 0
  | w :: rest => length w + total_length rest
  end.
Definition avg_word_length (words : list pystr) : Q :=
  match length words with
  | 0 => 0%Q
  | S _ => Z.of_nat (total_length words) # Pos.of_nat (length words)
  end.

Record statistics := {
  word_count : nat;
  sentence_count_ : nat;
  paragraph_count : nat;
  avg_word_length_ : Q
}.

Record document := {
  source_file : pystr;
  text : pystr;
  stats : statistics;
  links : list pystr;
  images : list pystr
}.

Record entry := {
  r_source_file : pystr;
  r_output_file : option pystr;
  r_status : pystr;
  r_error : option pystr
}.

Record manifest := {
  m_status : option pystr;
  m_error : option pystr;
  files_processed : nat;
  successful : nat;
  failed : nat;
  results : list entry
}.

(** What the stage meets: the names in the raw directory ([None] when the
    directory does not exist), the outcome of [read_text_file] on a path
    ([inl] the message of the exception raised by [open] or [read]; decoding
    never raises), and whether [write_json] to a path raises. *)
Record world := {
  raw_dir : option (list pystr);
  read_text_file : pystr → pystr + pystr;
  write_json : pystr → option pystr
}.

(** [inl] is an exception, [None] a call that does not return. *)
Definition process_one_file (fuel : nat) (w : world) (html_path : pystr)
  : option (pystr + document) :=
  match read_text_file w html_path with
  | inl e => Some (inl e)
  | inr html =>
      '(text, links, images) ← strip_html fuel html;
      let words := WORD_RE_findall text in
      let wc := length words in
      let sc := sentence_count text in
      let pc := count_paragraphs html text in
      let awl := avg_word_length words in
      let source_file := split_last 47 html_path in
      Some (inr {| source_file := source_file; text := text;
                   stats := {| word_count := wc; sentence_count_ := sc;
                               paragraph_count := pc; avg_word_length_ := awl |};
                   links := links; images := images |})
  end.

Record state := {
  st_results : list entry;
  ok : nat;
  bad : nat;
  written : list (pystr * document)
}.

Definition record_failure (st : state) (fname e : pystr) : state :=
  {| st_results := st_results st ++
       [{| r_source_file := fname; r_output_file := None;
           r_status := py "failed"; r_error := Some e |}];
     ok := ok st; bad := bad st + 1; written := written st |}.

Definition out_path_of (fname : pystr) : pystr :=
  let base := if bool_decide (46%N ∈ fname) then rsplit1_head 46 fname else fname in
  PROCESSED_DIR ++ py "/" ++ base ++ py ".json".

(** The body of the loop over the raw files: the [try] block and its
    [except] branch. *)
Definition process_step (fuel : nat) (w : world) (fname : pystr) (st : state)
  : option state :=
  let in_path := RAW_DIR ++ py "/" ++ fname in
  let out_path := out_path_of fname in
  r ← process_one_file fuel w in_path;
  Some match r with
       | inl e => record_failure st fname e
       | inr obj =>
           match write_json w out_path with
           | Some e => record_failure st fname e
           | None =>
               {| st_results := st_results st ++
                    [{| r_source_file := fname;
                        r_output_file := Some (split_last 47 out_path);
                        r_status := py "success"; r_error := None |}];
                  ok := ok st + 1; bad := bad st;
                  written := written st ++ [(out_path, obj)] |}
           end
       end.

Fixpoint process_loop (fuel : nat) (w : world) (raw_files : list pystr) (st : state)
  : option state :=
  match raw_files with
  | [] => Some st
  | fname :: rest =>
      st' ← process_step fuel w fname st;
      process_loop fuel w rest st'
  end.

Definition name_le (a b : pystr) : Prop := ¬ str_lt b a.
Global Instance name_le_dec a b : Decision (name_le a b).
Proof. unfold name_le. apply _. Defined.

Definition is_html (name : pystr) : bool := endswith (lower name) (py ".html").

Record output := {
  exit_code : Z;
  status_file : manifest;
  documents : list (pystr * document)
}.

(** [main] up to its last [write_json]: the exit code, the manifest handed
    to that write, and the documents written before.  [None]: a call of
    [process_one_file] does not return. *)
Definition main (fuel : nat) (w : world) : option output :=
  match raw_dir w with
  | None =>
      Some {| exit_code := 1;
              status_file :=
                {| m_status := Some (py "failed");
                   m_error := Some (py "Missing raw dir " ++ RAW_DIR);
                   files_processed := 0; successful := 0; failed := 0; results := [] |};
              documents := [] |}
  | Some names =>
      let raw_files := merge_sort name_le (filter (λ n, is_html n) names) in
      st ← process_loop fuel w raw_files
             {| st_results := []; ok := 0; bad := 0; written := [] |};
      Some {| exit_code := 0;
              status_file :=
                {| m_status := None; m_error := None;
                   files_processed := length raw_files;
                   successful := ok st; failed := bad st;
                   results := st_results st |};
              documents := written st |}
  end.

End Processor.

(** ** Stage 3: the analyzer ([q3/analyzer/analyze.py]) *)

Module Analyzer.

Definition PROCESSED_DIR : pystr := py "/shared/processed".

Definition tokenize_words_lower (text : pystr) : list pystr :=
  WORD_RE_findall (lower text).

Definition tokenize_words_original (text : pystr) : list pystr :=
  WORD_RE_findall text.

Fixpoint strip_nonblank (parts : list pystr) : list pystr :=
  match parts with
  | [] => []
  | p :: rest =>
      match strip p with
      | [] => strip_nonblank rest
      | s => s :: strip_nonblank rest
      end
  end.
Definition split_sentences (text : pystr) : list pystr :=
  strip_nonblank (SENT_SPLIT_RE_split text).

(** A [dict] from terms to counts, in insertion order. *)
Fixpoint increment_count (d : list (pystr * nat)) (key : pystr) : list (pystr * nat) :=
  match d with
  | [] => [(key, 1)]
  | (k, v) :: rest =>
      if decide (k = key) then (k, v + 1) :: rest
      else (k, v) :: increment_count rest key
  end.

Fixpoint build_ngrams (words : list pystr) (n : nat) : list pystr :=
  match words with
  | [] => match n with 0 => [[]] | S _ => [] end
  | _ :: rest =>
      if n <=? length words then join_space (take n words) :: build_ngrams rest n
      else []
  end.

Definition jaccard_similarity (doc1_words doc2_words : list pystr) : Q :=
  let set1 : gset pystr := list_to_set doc1_words in
  let set2 : gset pystr := list_to_set doc2_words in
  let intersection := set1 ∩ set2 in
  let union := set1 ∪ set2 in
  if 0 <? size union then Z.of_nat (size intersection) # Pos.of_nat (size union)
  else 0%Q.

Definition avg_word_length (words : list pystr) : Q :=
  match length words with
  | 0 => 0%Q
  | S _ => Z.of_nat (Processor.total_length words) # Pos.of_nat (length words)
  end.

(** What [read_json(path)] followed by [obj.get("text", "")] can meet. *)
Inductive value := VStr (s : pystr) | VOther.
Inductive loaded :=
  | Unreadable (msg : pystr)      (* [open] or [json.load] raises *)
  | NotADict                      (* a JSON value without [get]: raises too *)
  | Dict (text : option value).   (* the value under "text", when present *)

Record world := {
  processed_dir : option (list pystr);
  read_json : pystr → loaded
}.

Record doc := { d_file : pystr; d_words : list pystr }.

Record word_entry := { word : pystr; count : nat; frequency : Q }.
Record ngram_entry := { ngram : pystr; ngram_count : nat }.
Record sim_entry := { doc1 : pystr; doc2 : pystr; similarity : Q }.
Record readability_t := {
  avg_sentence_length : Q;
  avg_word_length_ : Q;
  complexity_score : Q
}.

Record report := {
  documents_processed : nat;
  total_words : nat;
  unique_words : nat;
  top_100_words : list word_entry;
  document_similarity : list sim_entry;
  top_bigrams : list ngram_entry;
  top_trigrams : list ngram_entry;
  readability : readability_t;
  error : option pystr
}.

(** The variables of [main] that the loop over the files updates. *)
Record state := {
  docs : list doc;
  global_freq : list (pystr * nat);
  total_words_ : nat;
  total_sentence_count : nat;
  total_sentence_words : nat;
  all_words_for_readability : list pystr;
  bigram_freq : list (pystr * nat);
  trigram_freq : list (pystr * nat)
}.

Definition initial : state :=
  {| docs := []; global_freq := []; total_words_ := 0; total_sentence_count := 0;
     total_sentence_words := 0; all_words_for_readability := [];
     bigram_freq := []; trigram_freq := [] |}.

Definition count_all (d : list (pystr * nat)) (keys : list pystr) : list (pystr * nat) :=
  foldl increment_count d keys.

Fixpoint sentence_words (sents : list pystr) : nat :=
  match sents with
  | [] => 0
  | s :: rest => length (tokenize_words_lower s) + sentence_words rest
  end.

Definition add_document (st : state) (fname text : pystr) : state :=
  let words := tokenize_words_lower text in
  let sents := split_sentences text in
  {| docs := docs st ++ [{| d_file := fname; d_words := words |}];
     global_freq := count_all (global_freq st) words;
     total_words_ := total_words_ st + length words;
     total_sentence_count := total_sentence_count st + length sents;
     total_sentence_words := total_sentence_words st + sentence_words sents;
     all_words_for_readability := all_words_for_readability st ++ words;
     bigram_freq := count_all (bigram_freq st) (build_ngrams words 2);
     trigram_freq := count_all (trigram_freq st) (build_ngrams words 3) |}.

(** The loop over [files].  [None]: [text.lower()] is called on a value that
    is not a string, outside the [try]. *)
Fixpoint read_loop (w : world) (files : list pystr) (st : state) : option state :=
  match files with
  | [] => Some st
  | fname :: rest =>
      match read_json w (os_path_join PROCESSED_DIR fname) with
      | Unreadable _ | NotADict => read_loop w rest st
      | Dict None => read_loop w rest (add_document st fname [])
      | Dict (Some (VStr text)) => read_loop w rest (add_document st fname text)
      | Dict (Some VOther) => None
      end
  end.

(** The order of [sort(key=lambda x: (-x[1], x[0]))]: [x] may precede [y]
    when the key of [y] is not smaller than the key of [x]. *)
Definition sort_key (x : pystr * nat) : Z * pystr := (- Z.of_nat x.2, x.1)%Z.
Definition rank_le (x y : pystr * nat) : Prop := ¬ lexico (sort_key y) (sort_key x).
Global Instance rank_le_dec x y : Decision (rank_le x y).
Proof. unfold rank_le. apply _. Defined.

Definition sorted_items (freq : list (pystr * nat)) : list (pystr * nat) :=
  merge_sort rank_le freq.

Definition word_entry_of (total_words : nat) (x : pystr * nat) : word_entry :=
  {| word := x.1; count := x.2;
     frequency := if 0 <? total_words then Z.of_nat x.2 # Pos.of_nat total_words else 0%Q |}.

Definition ngram_entry_of (x : pystr * nat) : ngram_entry :=
  {| ngram := x.1; ngram_count := x.2 |}.

Fixpoint sim_pairs (docs : list doc) : list sim_entry :=
  match docs with
  | [] => []
  | d :: rest =>
      ((λ d', {| doc1 := d_file d; doc2 := d_file d';
                 similarity := jaccard_similarity (d_words d) (d_words d') |}) <$> rest)
      ++ sim_pairs rest
  end.

Definition is_json (name : pystr) : bool := endswith (lower name) (py ".json").

(** The report built after the loop.  The averages are exact quotients, and
    [complexity_score] is their exact product, where the code multiplies
    the two rounded quotients and rounds again. *)
Definition report_of (st : state) : report :=
  let avg_sentence_length :=
    if 0 <? total_sentence_count st
    then Z.of_nat (total_sentence_words st) # Pos.of_nat (total_sentence_count st)
    else 0%Q in
  let avg_wlen := avg_word_length (all_words_for_readability st) in
  {| documents_processed := length (docs st);
     total_words := total_words_ st;
     unique_words := length (global_freq st);
     top_100_words :=
       word_entry_of (total_words_ st) <$> take 100 (sorted_items (global_freq st));
     document_similarity := sim_pairs (docs st);
     top_bigrams := ngram_entry_of <$> take 50 (sorted_items (bigram_freq st));
     top_trigrams := ngram_entry_of <$> take 50 (sorted_items (trigram_freq st));
     readability :=
       {| avg_sentence_length := avg_sentence_length;
          avg_word_length_ := avg_wlen;
          complexity_score := (avg_sentence_length * avg_wlen)%Q |};
     error := None |}.

Definition missing_dir_report : report :=
  {| documents_processed := 0; total_words := 0; unique_words := 0;
     top_100_words := []; document_similarity := [];
     top_bigrams := []; top_trigrams := [];
     readability := {| avg_sentence_length := 0; avg_word_length_ := 0;
                       complexity_score := 0 |};
     error := Some (py "Missing processed dir /shared/processed") |}.

Definition listed_files (names : list pystr) : list pystr :=
  merge_sort Processor.name_le (filter (λ n, is_json n) names).

(** [main] up to its last [write_json]: the exit code and the report handed
    to that write.  [None]: an exception that nothing catches leaves the
    loop before a report is built. *)
Definition main (w : world) : option (Z * report) :=
  match processed_dir w with
  | None => Some (1%Z, missing_dir_report)
  | Some names =>
      st ← read_loop w (listed_files names) initial;
      Some (0%Z, report_of st)
  end.

End Analyzer.

(** ** Notions used in the statements *)

Module Notions.

(** A record of the fetch manifest is marked success or failed. *)
Definition marked (r : Fetcher.result) : Prop :=
  Fetcher.status r = py "success" ∨ Fetcher.status r = py "failed".

(** The ranking rule in the words of the specification: higher count first,
    and among equal counts the smaller term first. *)
Definition precedes (x y : pystr * nat) : Prop :=
  y.2 < x.2 ∨ (x.2 = y.2 ∧ (x.1 = y.1 ∨ str_lt x.1 y.1)).

Definition is_ranking (freq l : list (pystr * nat)) : Prop :=
  l ≡ₚ freq ∧ StronglySorted precedes l.

(** The tokens that the content of a listed file contributes, when the
    analyzer takes it as a document. *)
Definition tokens_of (l : Analyzer.loaded) : option (list pystr) :=
  match l with
  | Analyzer.Dict None => Some (Analyzer.tokenize_words_lower [])
  | Analyzer.Dict (Some (Analyzer.VStr t)) => Some (Analyzer.tokenize_words_lower t)
  | _ => None
  end.

(** The documents of a run: the listed files that are taken as documents,
    in the order of the listing, each with its tokens. *)
Definition corpus (w : Analyzer.world) (files : list pystr) : list Analyzer.doc :=
  omap (λ f, (λ ws, {| Analyzer.d_file := f; Analyzer.d_words := ws |})
               <$> tokens_of (Analyzer.read_json w (os_path_join Analyzer.PROCESSED_DIR f)))
       files.

Definition corpus_words (ds : list Analyzer.doc) : list pystr :=
  concat (Analyzer.d_words <$> ds).

(** Number of occurrences of a word in a list of tokens. *)
Definition occurrences (x : pystr) (words : list pystr) : nat :=
  length (filter (λ v, v = x) words).

(** Number of documents in which a word occurs. *)
Definition document_frequency (x : pystr) (ds : list Analyzer.doc) : nat :=
  length (filter (λ d, x ∈ Analyzer.d_words d) ds).

(** [TAG_RE.search(s)] finds a match. *)
Fixpoint has_tag (s : pystr) : bool :=
  match s with
  | [] => false
  | c :: r => tag_starts c r || has_tag r
  end.

(** A text without markup: no match of [TAG_RE], and no opening [<script]
    or [<style] in either case. *)
Definition plain_text (s : pystr) : Prop :=
  has_tag s = false
  ∧ find (lower s) (py "<script") = None
  ∧ find (lower s) (py "<style") = None.

(** The text is empty or begins with a character that is not whitespace. *)
Definition starts_nonspace (s : pystr) : Prop :=
  match s with
  | [] => True
  | c :: _ => isspace c = false
  end.

(** In the output of [WS_RE.sub] a whitespace character is a single space
    between two other characters; [prev] tells that a space precedes. *)
Fixpoint well_spaced (prev : bool) (s : pystr) : bool :=
  match s with
  | [] => true
  | c :: r =>
      if isspace c then (c =? 32)%N && negb prev && well_spaced true r
      else well_spaced false r
  end.

(** What one raw file leaves behind: a manifest entry [e] and the documents
    [ds] written for it.  Either the entry says success and names the output
    file, and there is one document, whose source is the file; or the entry
    says failed, with an error and no output file, and there is no
    document. *)
Definition accounted (fname : pystr) (e : Processor.entry)
    (ds : list (pystr * Processor.document)) : Prop :=
  Processor.r_source_file e = fname
  ∧ ((Processor.r_status e = py "success"
      ∧ Processor.r_output_file e
        = Some (split_last 47 (Processor.out_path_of fname))
      ∧ Processor.r_error e = None
      ∧ ∃ d, ds = [(Processor.out_path_of fname, d)]
             ∧ Processor.source_file d = fname)
     ∨ (Processor.r_status e = py "failed"
        ∧ Processor.r_output_file e = None
        ∧ is_Some (Processor.r_error e)
        ∧ ds = [])).

(** The [try] block of the processor returns or raises for the file
    [fname], within the turns that [fuel] allows to [remove_tag_block]. *)
Definition settles (fuel : nat) (w : Processor.world) (fname : pystr) : Prop :=
  is_Some (Processor.process_one_file fuel w (Processor.RAW_DIR ++ py "/" ++ fname)).

(** The name under which the fetcher stores the body of the URL at position
    [i] of the list (positions count from 0, names from 1). *)
Definition page_name (i : nat) : pystr :=
  py "page_" ++ str_of_nat (i + 1) ++ py ".html".

(** A record of the fetch manifest at position [i] agrees with the files
    written: marked success, it names the file of its position, has a size
    and no error, and that file has been written with a body of that size;
    marked failed, it has an error and neither file nor size. *)
Definition record_agrees (written : list (pystr * list N)) (i : nat)
    (r : Fetcher.result) : Prop :=
  (Fetcher.status r = py "success"
   ∧ Fetcher.file r = Some (page_name i)
   ∧ Fetcher.error r = None
   ∧ ∃ content, Fetcher.size r = Some (length content)
                ∧ (py "/shared/raw/" ++ page_name i, content) ∈ written)
  ∨ (Fetcher.status r = py "failed"
     ∧ Fetcher.file r = None
     ∧ Fetcher.size r = None
     ∧ is_Some (Fetcher.error r)).

(** What holds of the variables of the fetcher's loop when it is about to
    fetch the URL at position [index]. *)
Definition fetched (index : nat) (st : Fetcher.state) : Prop :=
  length (Fetcher.st_results st) = index
  ∧ Fetcher.success_count st = length (Fetcher.raw_written st)
  ∧ NoDup (Fetcher.raw_written st).*1
  ∧ (∀ p, p ∈ (Fetcher.raw_written st).*1 →
          ∃ j r, j < index ∧ p = py "/shared/raw/" ++ page_name j
                 ∧ Fetcher.st_results st !! j = Some r
                 ∧ Fetcher.status r = py "success")
  ∧ ∀ i r, Fetcher.st_results st !! i = Some r →
           record_agrees (Fetcher.raw_written st) i r.

(** A token: not empty, and made of word characters only. *)
Definition proper_word (x : pystr) : Prop :=
  x ≠ [] ∧ Forall (λ c, is_word c = true) x.

(** A captured attribute value: not empty, without quote, space or [>]. *)
Definition proper_value (v : pystr) : Prop :=
  v ≠ [] ∧ Forall (λ c, is_value_char c = true) v.

(** The sum of the counts that a [dict] of counts holds. *)
Definition sum_counts (d : list (pystr * nat)) : nat := sum_list d.*2.

(** The text that the analyzer takes from the content of a listed file. *)
Definition text_of (l : Analyzer.loaded) : option pystr :=
  match l with
  | Analyzer.Dict None => Some []
  | Analyzer.Dict (Some (Analyzer.VStr t)) => Some t
  | _ => None
  end.

(** The listed files that are taken as documents, each with its text. *)
Definition documents_read (w : Analyzer.world) (files : list pystr)
  : list (pystr * pystr) :=
  omap (λ f, (λ t, (f, t))
               <$> text_of (Analyzer.read_json w (os_path_join Analyzer.PROCESSED_DIR f)))
       files.

(** The n-grams of a corpus: those of each document, document after
    document. *)
Definition corpus_ngrams (n : nat) (ds : list Analyzer.doc) : list pystr :=
  concat ((λ d, Analyzer.build_ngrams (Analyzer.d_words d) n) <$> ds).

(** A [dict] of counts is the tally of a list of terms: its keys are
    distinct and are the terms of the list, and the count of a key is the
    number of its occurrences in the list. *)
Definition tallied (d : list (pystr * nat)) (terms : list pystr) : Prop :=
  NoDup d.*1
  ∧ (∀ k, k ∈ d.*1 ↔ k ∈ terms)
  ∧ ∀ k c, (k, c) ∈ d → c = occurrences k terms.

(** What holds of the frequency maps and of the totals of the analyzer's
    [main] after any number of files. *)
Definition tallies (st : Analyzer.state) : Prop :=
  tallied (Analyzer.global_freq st) (corpus_words (Analyzer.docs st))
  ∧ tallied (Analyzer.bigram_freq st) (corpus_ngrams 2 (Analyzer.docs st))
  ∧ tallied (Analyzer.trigram_freq st) (corpus_ngrams 3 (Analyzer.docs st))
  ∧ sum_counts (Analyzer.global_freq st) = Analyzer.total_words_ st
  ∧ Analyzer.total_words_ st = length (corpus_words (Analyzer.docs st))
  ∧ Analyzer.all_words_for_readability st = corpus_words (Analyzer.docs st).

(** A list of n-gram entries ranks the [n]-grams of the documents [ds]: it
    has [K] entries, or as many as there are distinct [n]-grams; its terms
    are distinct; and an entry holds the number of occurrences of its term
    among the [n]-grams of the documents, taken document by document, the
    term being [n] consecutive tokens of one document joined by single
    spaces. *)
Definition ranks_ngrams (n K : nat) (ds : list Analyzer.doc)
    (l : list Analyzer.ngram_entry) : Prop :=
  length l = K `min` size (list_to_set (corpus_ngrams n ds) : gset pystr)
  ∧ NoDup (Analyzer.ngram <$> l)
  ∧ ∀ e, e ∈ l →
      Analyzer.ngram_count e = occurrences (Analyzer.ngram e) (corpus_ngrams n ds)
      ∧ 0 < Analyzer.ngram_count e
      ∧ ∃ d i, d ∈ ds ∧ i + n ≤ length (Analyzer.d_words d)
               ∧ Analyzer.ngram e = join_space (take n (drop i (Analyzer.d_words d))).

(** The pattern of the attribute [name] matches at the head of [t] and
    captures [v]: [t] begins with the letters of the name, each in either
    letter case, then [=], then at most one quote, then [v], which is not
    empty, holds no quote, space or [>], and ends where the text ends or such
    a character follows. *)
Definition captures (name v t : pystr) : Prop :=
  ∃ k q b, t = k ++ 61%N :: q ++ v ++ b
    ∧ Forall2 (λ c a, c = a ∨ (c + 32)%N = a) k name
    ∧ (q = [] ∨ q = [39%N] ∨ q = [34%N])
    ∧ proper_value v
    ∧ match b with [] => True | c :: _ => is_value_char c = false end.

(** The well-formed UTF-8 sequences and the code points they stand for. *)
Inductive sequence : list N → N → Prop :=
  | sequence_1 b0 : (b0 < 128)%N → sequence [b0] b0
  | sequence_2 b0 b1 :
      (194 ≤ b0 ≤ 223)%N → (128 ≤ b1 ≤ 191)%N →
      sequence [b0; b1] ((b0 - 192) * 64 + (b1 - 128))%N
  | sequence_3 b0 b1 b2 :
      (224 ≤ b0 ≤ 239)%N →
      ((if (b0 =? 224)%N then 160 else 128) ≤ b1
       ≤ (if (b0 =? 237)%N then 159 else 191))%N →
      (128 ≤ b2 ≤ 191)%N →
      sequence [b0; b1; b2] ((b0 - 224) * 4096 + (b1 - 128) * 64 + (b2 - 128))%N
  | sequence_4 b0 b1 b2 b3 :
      (240 ≤ b0 ≤ 244)%N →
      ((if (b0 =? 240)%N then 144 else 128) ≤ b1
       ≤ (if (b0 =? 244)%N then 143 else 191))%N →
      (128 ≤ b2 ≤ 191)%N → (128 ≤ b3 ≤ 191)%N →
      sequence [b0; b1; b2; b3]
        ((b0 - 240) * 262144 + (b1 - 128) * 4096 + (b2 - 128) * 64 + (b3 - 128))%N.

(** A Unicode scalar value: up to U+10FFFF and no surrogate. *)
Definition scalar (c : N) : Prop :=
  (c < 1114112)%N ∧ ¬ (55296 ≤ c ≤ 57343)%N.

(** A string that UTF-8 can encode: Unicode scalar values only, so no lone
    surrogate.  [json.dump] with [ensure_ascii=False] into a file opened
    with [encoding="utf-8"] raises on any other string. *)
Definition encodable (s : pystr) : Prop := Forall scalar s.

(** The strings that the manifest of the processor holds as values. *)
Definition entry_strings (e : Processor.entry) : list pystr :=
  Processor.r_source_file e :: Processor.r_status e
  :: option_list (Processor.r_output_file e) ++ option_list (Processor.r_error e).
Definition manifest_strings (m : Processor.manifest) : list pystr :=
  option_list (Processor.m_status m) ++ option_list (Processor.m_error m)
  ++ concat (entry_strings <$> Processor.results m).

(** The messages of the exceptions that the processor meets are encodable. *)
Definition messages_encodable (w : Processor.world) : Prop :=
  (∀ p e, Processor.read_text_file w p = inl e → encodable e)
  ∧ (∀ p e, Processor.write_json w p = Some e → encodable e).

(** The file names and the terms (words and n-grams) that a report of the
    analyzer holds. *)
Definition report_names (r : Analyzer.report) : list pystr :=
  concat ((λ p, [Analyzer.doc1 p; Analyzer.doc2 p]) <$> Analyzer.document_similarity r).
Definition report_terms (r : Analyzer.report) : list pystr :=
  (Analyzer.word <$> Analyzer.top_100_words r)
  ++ (Analyzer.ngram <$> Analyzer.top_bigrams r)
  ++ (Analyzer.ngram <$> Analyzer.top_trigrams r).

(** The bytes [C4 B0], the UTF-8 form of U+0130, occur in the data. *)
Definition holds_dotted_capital (data : list N) : Prop :=
  ∃ a b, data = a ++ 196%N :: 176%N :: b.

(** [s.split()]: the maximal runs of characters other than whitespace, in
    order; [cur] is the run being read, last character first. *)
Fixpoint fields_from (cur : pystr) (s : pystr) : list pystr :=
  match s with
  | [] => match cur with [] => [] | _ => [reverse cur] end
  | c :: r =>
      if isspace c then
        match cur with
        | [] => fields_from [] r
        | _ => reverse cur :: fields_from [] r
        end
      else fields_from (c :: cur) r
  end.
Definition fields (s : pystr) : list pystr := fields_from [] s.

(** The text is empty or ends with a character that is not whitespace. *)
Definition ends_nonspace (s : pystr) : Prop :=
  match last s with
  | Some c => isspace c = false
  | None => True
  end.

(** A text of Basic Latin and Latin-1 characters only. *)
Definition within_latin_1 (s : pystr) : Prop := Forall (λ c, (c ≤ 255)%N) s.
Global Instance within_latin_1_dec s : Decision (within_latin_1 s).
Proof. unfold within_latin_1. apply _. Defined.

(** A part of a split text with [pre] put in front of its first piece. *)
Definition prepend_part (pre : pystr) (parts : list pystr) : list pystr :=
  match parts with
  | h :: t => (pre ++ h) :: t
  | [] => [pre]
  end.

(** The number of tokens that the analyzer finds in each piece, added up. *)
Definition tokens_in (parts : list pystr) : nat :=
  sum_list ((λ p, length (Analyzer.tokenize_words_lower p)) <$> parts).

(** The count that a [dict] of counts holds for a key, 0 without the key. *)
Fixpoint count_of (d : list (pystr * nat)) (k : pystr) : nat :=
  match d with
  | [] => 0
  | (k', v) :: rest => if decide (k' = k) then v else count_of rest k
  end.

(** What holds of the variables of the analyzer's [main] after any number
    of files. *)
Definition consistent (st : Analyzer.state) : Prop :=
  Analyzer.all_words_for_readability st = corpus_words (Analyzer.docs st)
  ∧ Analyzer.total_words_ st = length (corpus_words (Analyzer.docs st))
  ∧ NoDup (Analyzer.global_freq st).*1
  ∧ Forall (λ p, 0 < p.2) (Analyzer.global_freq st)
  ∧ ∀ k, count_of (Analyzer.global_freq st) k
         = occurrences k (corpus_words (Analyzer.docs st)).

End Notions.
Import Notions.

(** ** Concrete inputs used below *)

Module Examples.

(** No raw directory at all. *)
Definition no_raw_dir : Processor.world :=
  {| Processor.raw_dir := None;
     Processor.read_text_file := λ _, inl (py "No such file or directory");
     Processor.write_json := λ _, None |}.

(** A raw directory that holds no [.html] file. *)
Definition no_html_files : Processor.world :=
  {| Processor.raw_dir := Some [py "notes.txt"; py "page_1.htm"];
     Processor.read_text_file := λ _, inl (py "No such file or directory");
     Processor.write_json := λ _, None |}.

(** Seventeen capital I with dot above, then an empty script element. *)
Definition dotted_page : pystr := replicate 17 304%N ++ py "<script></script>".

(** A raw directory with three files: one page, one file that cannot be
    opened, one file that is not a page. *)
Definition mixed_raw_dir : Processor.world :=
  {| Processor.raw_dir := Some [py "page_2.html"; py "notes.txt"; py "page_1.html"];
     Processor.read_text_file := λ p,
       if bool_decide (p = py "/shared/raw/page_2.html")
       then inl (py "[Errno 13] Permission denied")
       else inr (py "<script>x</script><p>Hello world.</p>");
     Processor.write_json := λ _, None |}.

(** A raw directory whose only file holds [dotted_page]. *)
Definition dotted_raw_dir : Processor.world :=
  {| Processor.raw_dir := Some [py "a.html"];
     Processor.read_text_file := λ _, inr dotted_page;
     Processor.write_json := λ _, None |}.

(** One capital I with dot above in front of a script element. *)
Definition dotted_script : pystr := 304%N :: py "<script>x</script>y".

(** A text without markup, with runs of whitespace: two spaces, tab, newline,
    and a comparison sign that opens no tag. *)
Definition spaced_text : pystr :=
  py "  1 < 2  and" ++ [9; 10]%N ++ py "Hello   world. ".

(** Two documents: "a a b" and "a". *)
Definition two_documents : Analyzer.world :=
  {| Analyzer.processed_dir := Some [py "b.json"; py "a.json"];
     Analyzer.read_json := λ p,
       if bool_decide (p = py "/shared/processed/a.json")
       then Analyzer.Dict (Some (Analyzer.VStr (py "a a b")))
       else Analyzer.Dict (Some (Analyzer.VStr (py "a"))) |}.

Definition two_documents_state : Analyzer.state :=
  Eval vm_compute in
    default Analyzer.initial
      (Analyzer.read_loop two_documents
         (Analyzer.listed_files [py "b.json"; py "a.json"]) Analyzer.initial).

(** The same directory with a third file that cannot be parsed. *)
Definition with_broken_file : Analyzer.world :=
  {| Analyzer.processed_dir := Some [py "b.json"; py "broken.json"; py "a.json"];
     Analyzer.read_json := λ p,
       if bool_decide (p = py "/shared/processed/broken.json")
       then Analyzer.Unreadable (py "Expecting value: line 1 column 1 (char 0)")
       else Analyzer.read_json two_documents p |}.

(** A page with a style sheet, a script, a link and an image. *)
Definition sample_page : pystr :=
  py "<style>p{}</style><h1>Hi</h1><script>x()</script><p>See  <a href='a.html'>this</a> <img src=b.png></p>".

End Examples.

(** * Properties *)

(** ** The two worked examples of the specification *)

(** The page [<script>x</script><p>Hello world.</p>] gives the text
    [Hello world.], one paragraph, two words and one sentence. *)
Example extraction_of_hello_world :
  Processor.process_one_file 40 Examples.mixed_raw_dir (py "/shared/raw/page_1.html")
  = Some (inr {| Processor.source_file := py "page_1.html";
                 Processor.text := py "Hello world.";
                 Processor.stats :=
                   {| Processor.word_count := 2; Processor.sentence_count_ := 1;
                      Processor.paragraph_count := 1;
                      Processor.avg_word_length_ := (10 # 2)%Q |};
                 Processor.links := []; Processor.images := [] |}).
Proof. vm_compute. reflexivity. Qed.

(** The token sets {a, b, c} and {b, c, d} have similarity 2/4. *)
Example similarity_of_abc_and_bcd :
  Analyzer.jaccard_similarity [py "a"; py "b"; py "c"] [py "b"; py "c"; py "d"]
  = (2 # 4)%Q.
Proof. vm_compute. reflexivity. Qed.

(** ** The fetch manifest *)

Section FetcherProperties.
Import Fetcher.
Variable w : world.

(** One turn of the loop appends one record, for the URL of that turn, and
    adds one to exactly one of the two counters. *)
Lemma fetch_one_appends index u st :
  ∃ r, st_results (fetch_one w index u st) = st_results st ++ [r]
       ∧ url r = u ∧ marked r
       ∧ success_count (fetch_one w index u st) + fail_count (fetch_one w index u st)
         = success_count st + fail_count st + 1.
Proof.
  unfold fetch_one, record_failure, marked.
  destruct (urlopen_read w index u) as [e|content];
    [|destruct (write_bytes w _ content) as [e|]];
    eexists; simpl; (split_and!; [reflexivity | reflexivity | tauto | lia]).
Qed.

Lemma fetch_loop_invariant urls : ∀ index st,
  let st' := fetch_loop w urls index st in
  url <$> st_results st' = (url <$> st_results st) ++ urls
  ∧ success_count st' + fail_count st' = success_count st + fail_count st + length urls
  ∧ (Forall marked (st_results st) → Forall marked (st_results st')).
Proof.
  induction urls as [|u rest IH]; intros index st; simpl.
  - rewrite app_nil_r. split_and!; [done | lia | done].
  - destruct (fetch_one_appends index u st) as (r & Hr & Hu & Hm & Hc).
    destruct (IH (index + 1) (fetch_one w index u st)) as (IHu & IHc & IHm).
    split_and!.
    + rewrite IHu, Hr, fmap_app, <- app_assoc. simpl. by rewrite Hu.
    + lia.
    + intros HF. apply IHm. rewrite Hr. apply Forall_app. split; [done|].
      by constructor.
Qed.
End FetcherProperties.

(** C3.  Whatever the lines of the input file and whatever the network
    answers, the fetch manifest counts every URL of the list (the stripped
    non-blank lines): [urls_processed] is the length of the list, [successful]
    and [failed] add up to it, and the records are, in order, one per URL,
    each marked success or failed. *)
Theorem fetch_manifest_accounts_for_every_url (w : Fetcher.world) :
  let urls := Fetcher.read_urls (Fetcher.lines w) in
  let m := (Fetcher.main w).1 in
  Fetcher.urls_processed m = length urls
  ∧ Fetcher.successful m + Fetcher.failed m = length urls
  ∧ length (Fetcher.results m) = length urls
  ∧ Fetcher.url <$> Fetcher.results m = urls
  ∧ Forall marked (Fetcher.results m).
Proof.
  intros urls m. subst m. unfold Fetcher.main. simpl. fold urls.
  destruct (fetch_loop_invariant w urls 0
              {| Fetcher.st_results := []; Fetcher.success_count := 0;
                 Fetcher.fail_count := 0; Fetcher.raw_written := [] |})
    as (Hu & Hc & Hm).
  simpl in *. split_and!; [done | lia | | done | apply Hm; constructor].
  rewrite <- Hu at 2. by rewrite length_fmap.
Qed.

(** ** Block removal when lowercasing lengthens the text *)

Section BlockRemoval.
Import Processor.

Lemma remove_tag_block_loop_turn fuel open_pat close_pat html start e :
  find (lower html) open_pat = Some start →
  find_from (lower html) close_pat start = Some e →
  let html' := take start html ++ 32%N :: drop (e + length close_pat) html in
  remove_tag_block_loop (S fuel) open_pat close_pat html (lower html)
  = remove_tag_block_loop fuel open_pat close_pat html' (lower html').
Proof. intros Hopen Hclose. simpl. by rewrite Hopen, Hclose. Qed.

(** A text that a turn of the loop leaves as it is keeps the loop turning. *)
Lemma remove_tag_block_loop_stuck open_pat close_pat html start e :
  find (lower html) open_pat = Some start →
  find_from (lower html) close_pat start = Some e →
  take start html ++ 32%N :: drop (e + length close_pat) html = html →
  ∀ fuel, remove_tag_block_loop fuel open_pat close_pat html (lower html) = None.
Proof.
  intros Hopen Hclose Hsame fuel. induction fuel as [|fuel IH]; [done|].
  rewrite (remove_tag_block_loop_turn _ _ _ _ start e) by done.
  by rewrite Hsame.
Qed.

(** On [dotted_page] the first turn appends a space and every later turn
    changes nothing: the loop is never left. *)
Lemma remove_tag_block_never_returns fuel :
  remove_tag_block fuel Examples.dotted_page (py "script") = None.
Proof.
  destruct fuel as [|fuel]; [done|].
  unfold remove_tag_block.
  rewrite (remove_tag_block_loop_turn _ _ _ _ 34 42) by (vm_compute; reflexivity).
  apply (remove_tag_block_loop_stuck _ _ _ 34 42); vm_compute; reflexivity.
Qed.
End BlockRemoval.

(** C7 fails on the code.  In front of the script element of
    [dotted_script] stands one capital I with dot above, whose lowercase form
    is two code points long: the positions found in the lowercased text are
    one too far to the right in the text itself, and the result is that
    letter, the [<] of the opening tag and a space; the [y] that follows the
    element is lost. *)
Theorem remove_tag_block_cuts_at_shifted_positions (fuel : nat) :
  Processor.remove_tag_block (2 + fuel) Examples.dotted_script (py "script")
  = Some (304%N :: py "< ").
Proof. vm_compute. reflexivity. Qed.

(** C2 fails on the code.  With [dotted_page] as the only raw file the
    processor never leaves [remove_tag_block]: whatever the number of turns
    allowed, [main] does not return, so there is neither a document nor a
    manifest entry for the file. *)
Theorem processor_never_returns_on_dotted_page (fuel : nat) :
  Processor.main fuel Examples.dotted_raw_dir = None.
Proof.
  unfold Processor.main.
  change (Processor.raw_dir Examples.dotted_raw_dir) with (Some [py "a.html"]).
  lazy beta iota.
  match goal with
  | |- context [Processor.process_loop _ _ ?l _] =>
      assert (l = [py "a.html"]) as -> by (vm_compute; reflexivity)
  end.
  cbn [Processor.process_loop]. unfold Processor.process_step, Processor.process_one_file.
  change (Processor.read_text_file Examples.dotted_raw_dir _) with
    (@inr pystr pystr Examples.dotted_page).
  unfold Processor.strip_html. by rewrite remove_tag_block_never_returns.
Qed.

(** ** Plain text through the markup stripper *)

Section PlainText.
Import Processor.

Lemma isspace_lower_cp c : isspace c = true → lower_cp c = [c].
Proof.
  unfold isspace, lower_cp, in_range.
  rewrite !orb_true_iff, !andb_true_iff, !N.leb_le, !N.eqb_eq. intros Hc.
  repeat match goal with
  | |- context [(?a <=? ?b)%N] => destruct (N.leb_spec a b)
  | |- context [(?a =? ?b)%N] => destruct (N.eqb_spec a b)
  end; simpl; try reflexivity; exfalso; lia.
Qed.

Lemma nonspace_lower_cp c :
  isspace c = false →
  lower_cp c ≠ [] ∧ Forall (λ d, isspace d = false) (lower_cp c).
Proof.
  intros Hc. unfold lower_cp, in_range.
  repeat match goal with
  | |- context [(?a <=? ?b)%N] => destruct (N.leb_spec a b)
  | |- context [(?a =? ?b)%N] => destruct (N.eqb_spec a b)
  end; simpl; (split; [done|]); repeat constructor; try done;
  unfold isspace, in_range;
  rewrite !orb_false_iff, !andb_false_iff, !N.leb_gt, !N.eqb_neq; lia.
Qed.

Lemma lower_app a b : lower (a ++ b) = lower a ++ lower b.
Proof. unfold lower. apply flat_map_app. Qed.

(** *** [find] *)

Lemma find_cons c s p :
  find (c :: s) p = if startswith (c :: s) p then Some 0 else S <$> find s p.
Proof. reflexivity. Qed.

Lemma find_None_cons c s p :
  find (c :: s) p = None ↔ startswith (c :: s) p = false ∧ find s p = None.
Proof.
  rewrite find_cons. destruct (startswith (c :: s) p); [naive_solver|].
  destruct (find s p); naive_solver.
Qed.

Lemma find_None_suffix a t p : find (a ++ t) p = None → find t p = None.
Proof.
  induction a as [|c a IH]; [done|]. intros H. by apply IH, (find_None_cons c).
Qed.

Lemma startswith_cons c s a p :
  startswith (c :: s) (a :: p) = (c =? a)%N && startswith s p.
Proof. reflexivity. Qed.

Lemma ws_sub_cons b c s :
  ws_sub b (c :: s) =
  if isspace c then (if b then ws_sub true s else 32%N :: ws_sub true s)
  else c :: ws_sub false s.
Proof. reflexivity. Qed.

Lemma startswith_app s b p : startswith s p = true → startswith (s ++ b) p = true.
Proof.
  revert s. induction p as [|a p IH]; intros [|c s]; simpl; try done.
  destruct (c =? a)%N; simpl; [apply IH | done].
Qed.

Lemma find_None_prefix t b p : find (t ++ b) p = None → find t p = None.
Proof.
  induction t as [|c t IH].
  - destruct p as [|a p]; [|done]. by destruct b.
  - rewrite <- app_comm_cons, !find_None_cons. intros [Hs Ht]. split; [|by apply IH].
    destruct (startswith (c :: t) p) eqn:Hs'; [|done].
    apply (startswith_app _ b) in Hs'. rewrite <- app_comm_cons in Hs'. congruence.
Qed.

(** *** [WS_RE.sub] *)

Lemma startswith_ws_sub u p :
  Forall (λ d, isspace d = false) p →
  startswith (ws_sub false u) p = true → startswith u p = true.
Proof.
  intros Hp. revert u. induction Hp as [|a p Ha _ IH]; intros u; [by destruct u|].
  destruct u as [|c u]; [done|]. rewrite ws_sub_cons.
  destruct (isspace c) eqn:Hc; rewrite !startswith_cons.
  - destruct (N.eqb_spec 32 a) as [<-|]; done.
  - destruct (c =? a)%N; simpl; [apply IH | done].
Qed.

Lemma find_None_ws_sub p :
  Forall (λ d, isspace d = false) p →
  ∀ t b, find t p = None → find (ws_sub b t) p = None.
Proof.
  intros Hp t. induction t as [|c t IH]; intros b Hfind; [done|].
  apply find_None_cons in Hfind as [Hs Ht].
  rewrite ws_sub_cons. destruct (isspace c) eqn:Hc.
  - destruct b; [by apply IH|].
    apply find_None_cons. split; [|by apply IH].
    destruct Hp as [|a p Ha Hp]; [done|]. rewrite startswith_cons.
    destruct (N.eqb_spec 32 a) as [<-|]; done.
  - apply find_None_cons. split; [|by apply IH].
    destruct (startswith (c :: ws_sub false t) p) eqn:Hs'; [|done].
    assert (c :: ws_sub false t = ws_sub false (c :: t)) as Heq
      by (by rewrite ws_sub_cons, Hc).
    rewrite Heq in Hs'. apply startswith_ws_sub in Hs'; [|done]. congruence.
Qed.

Lemma ws_sub_nonspace l t b :
  Forall (λ d, isspace d = false) l → l ≠ [] →
  ws_sub b (l ++ t) = l ++ ws_sub false t.
Proof.
  intros Hl. revert b. induction Hl as [|d l Hd Hl IH]; intros b Hne; [done|].
  simpl. rewrite Hd. f_equal. destruct l as [|d' l]; [done|]. by apply IH.
Qed.

Lemma lower_ws_sub s : ∀ b, lower (ws_sub b s) = ws_sub b (lower s).
Proof.
  induction s as [|c s IH]; intros b; [done|].
  change (lower (c :: s)) with (lower_cp c ++ lower s).
  simpl. destruct (isspace c) eqn:Hc.
  - rewrite (isspace_lower_cp c Hc). simpl. rewrite Hc.
    destruct b; [apply IH|].
    change (lower (32%N :: ws_sub true s)) with (32%N :: lower (ws_sub true s)).
    by rewrite IH.
  - destruct (nonspace_lower_cp c Hc) as [Hne Hall].
    rewrite ws_sub_nonspace by done.
    change (lower (c :: ws_sub false s)) with (lower_cp c ++ lower (ws_sub false s)).
    by rewrite IH.
Qed.

Lemma elem_of_ws_sub x s : ∀ b, x ∈ ws_sub b s → x = 32%N ∨ x ∈ s.
Proof.
  induction s as [|c s IH]; intros b; simpl; [by right|].
  destruct (isspace c); [destruct b|]; rewrite ?elem_of_cons; intros H.
  - apply IH in H. naive_solver.
  - destruct H as [->|H]; [by left|]. apply IH in H. naive_solver.
  - destruct H as [->|H]; [by right; left|]. apply IH in H. naive_solver.
Qed.

Lemma tag_starts_ws_sub c r :
  tag_starts c (ws_sub false r) = true → tag_starts c r = true.
Proof.
  unfold tag_starts. rewrite !andb_true_iff, !bool_decide_eq_true.
  intros [[Hc Hhead] Hgt]. split_and!; [done| |].
  - destruct r as [|d r]; [done|]. simpl in Hhead.
    destruct (isspace d) eqn:Hd; [|done].
    destruct (N.eqb_spec d 62) as [->|]; done.
  - apply elem_of_ws_sub in Hgt as [?|?]; done.
Qed.

Lemma has_tag_ws_sub s : ∀ b, has_tag s = false → has_tag (ws_sub b s) = false.
Proof.
  induction s as [|c s IH]; intros b; [done|]. simpl.
  rewrite orb_false_iff. intros [Hc Hs].
  destruct (isspace c) eqn:Hsp; [destruct b|]; simpl.
  - by apply IH.
  - by rewrite IH.
  - rewrite IH by done. rewrite orb_false_r.
    destruct (tag_starts c (ws_sub false s)) eqn:Ht; [|done].
    apply tag_starts_ws_sub in Ht. congruence.
Qed.

Lemma has_tag_suffix a t : has_tag (a ++ t) = false → has_tag t = false.
Proof.
  induction a as [|c a IH]; [done|]. simpl. rewrite orb_false_iff. naive_solver.
Qed.

Lemma tag_starts_app c r b : tag_starts c r = true → tag_starts c (r ++ b) = true.
Proof.
  unfold tag_starts. rewrite !andb_true_iff, !bool_decide_eq_true.
  intros [[Hc Hhead] Hgt]. split_and!; [done| |].
  - by destruct r.
  - apply elem_of_app. by left.
Qed.

Lemma has_tag_prefix t b : has_tag (t ++ b) = false → has_tag t = false.
Proof.
  induction t as [|c t IH]; [done|]. simpl. rewrite !orb_false_iff.
  intros [Hc Ht]. split; [|by apply IH].
  destruct (tag_starts c t) eqn:Hs; [|done].
  apply (tag_starts_app _ _ b) in Hs. congruence.
Qed.

Lemma tag_sub_plain s : has_tag s = false → TAG_RE_sub s = s.
Proof.
  unfold TAG_RE_sub. induction s as [|c s IH]; [done|]. simpl.
  rewrite orb_false_iff. intros [-> Hs]. by rewrite IH.
Qed.

(** *** [strip] *)

Lemma lstrip_suffix s : ∃ a, s = a ++ lstrip s.
Proof.
  induction s as [|c s [a IH]]; [by exists []|]. simpl.
  destruct (isspace c); [|by exists []]. exists (c :: a). simpl. by f_equal.
Qed.

Lemma rstrip_prefix s : ∃ b, s = rstrip s ++ b.
Proof.
  induction s as [|c s [b IH]]; [by exists []|]. simpl.
  destruct (rstrip s) as [|d r] eqn:Hr.
  - simpl in IH. subst b. destruct (isspace c); [by exists (c :: s) | by exists s].
  - exists b. simpl. by f_equal.
Qed.

Lemma strip_infix s : ∃ a b, s = a ++ strip s ++ b.
Proof.
  unfold strip. destruct (lstrip_suffix s) as [a Ha].
  destruct (rstrip_prefix (lstrip s)) as [b Hb].
  exists a, b. by rewrite <- Hb.
Qed.

Lemma lstrip_starts_nonspace s : starts_nonspace (lstrip s).
Proof.
  induction s as [|c s IH]; [done|]. simpl. destruct (isspace c) eqn:Hc; [done|].
  simpl. by rewrite Hc.
Qed.

Lemma lstrip_fixed s : starts_nonspace s → lstrip s = s.
Proof. destruct s as [|c s]; [done|]. simpl. by intros ->. Qed.

Lemma rstrip_starts_nonspace s : starts_nonspace s → starts_nonspace (rstrip s).
Proof.
  destruct s as [|c s]; [done|]. simpl. intros Hc.
  destruct (rstrip s); [by rewrite Hc | done].
Qed.

Lemma rstrip_idemp s : rstrip (rstrip s) = rstrip s.
Proof.
  induction s as [|c s IH]; [done|]. simpl.
  destruct (rstrip s) as [|d r] eqn:Hr.
  - destruct (isspace c) eqn:Hc; [done|]. simpl. by rewrite Hc.
  - change (rstrip (c :: d :: r)) with
      (match rstrip (d :: r) with
       | [] => if isspace c then [] else [c]
       | r' => c :: r'
       end).
    by rewrite IH.
Qed.

Lemma strip_idemp s : strip (strip s) = strip s.
Proof.
  unfold strip. rewrite (lstrip_fixed (rstrip (lstrip s))).
  - apply rstrip_idemp.
  - apply rstrip_starts_nonspace, lstrip_starts_nonspace.
Qed.

(** *** The shape of collapsed text *)

Lemma well_spaced_ws_sub s : ∀ b, well_spaced b (ws_sub b s) = true.
Proof.
  induction s as [|c s IH]; intros b; [done|]. rewrite ws_sub_cons.
  destruct (isspace c) eqn:Hc; [destruct b|]; simpl.
  - apply IH.
  - apply IH.
  - rewrite Hc. apply IH.
Qed.

Lemma ws_sub_well_spaced t : ∀ b, well_spaced b t = true → ws_sub b t = t.
Proof.
  induction t as [|c t IH]; intros b; [done|]. simpl.
  destruct (isspace c); [|intros H; f_equal; by apply IH].
  rewrite !andb_true_iff, N.eqb_eq. intros [[-> Hb] Ht].
  destruct b; [done|]. f_equal. by apply IH.
Qed.

Lemma well_spaced_weaken b t : well_spaced b t = true → well_spaced false t = true.
Proof.
  destruct t as [|c t]; [done|]. simpl. destruct (isspace c); [|done].
  rewrite !andb_true_iff. naive_solver.
Qed.

Lemma well_spaced_tail b c t : well_spaced b (c :: t) = true → well_spaced false t = true.
Proof.
  simpl. destruct (isspace c); [|done].
  rewrite !andb_true_iff. intros [_ Ht]. by apply (well_spaced_weaken true).
Qed.

Lemma well_spaced_suffix a t : ∀ b, well_spaced b (a ++ t) = true → well_spaced false t = true.
Proof.
  induction a as [|c a IH]; intros b; [apply well_spaced_weaken|].
  intros H. apply well_spaced_tail in H. by apply (IH false).
Qed.

Lemma well_spaced_prefix t x : ∀ b, well_spaced b (t ++ x) = true → well_spaced b t = true.
Proof.
  induction t as [|c t IH]; intros b; [done|]. simpl.
  destruct (isspace c); [|apply IH].
  rewrite !andb_true_iff. intros [Hc Ht]. split; [done|]. by apply (IH true).
Qed.

Lemma normalized_fixed s :
  let t := strip (WS_RE_sub s) in strip (WS_RE_sub t) = t.
Proof.
  intros t. unfold WS_RE_sub. rewrite (ws_sub_well_spaced t false); [apply strip_idemp|].
  subst t. destruct (strip_infix (WS_RE_sub s)) as (a & b & Hab).
  pose proof (well_spaced_ws_sub s false) as Hw. fold (WS_RE_sub s) in Hw.
  rewrite Hab in Hw. apply well_spaced_suffix in Hw.
  by apply well_spaced_prefix in Hw.
Qed.

(** Collapsing and trimming a text without markup leaves it without markup. *)
Lemma plain_text_normalized s : plain_text s → plain_text (strip (WS_RE_sub s)).
Proof.
  intros (Htag & Hscript & Hstyle).
  destruct (strip_infix (WS_RE_sub s)) as (a & b & Hab).
  assert (∀ p, Forall (λ d, isspace d = false) p →
               find (lower s) p = None → find (lower (strip (WS_RE_sub s))) p = None)
    as Hfind.
  { intros p Hp Hnone. apply (find_None_ws_sub p Hp _ false) in Hnone.
    rewrite <- lower_ws_sub in Hnone. fold (WS_RE_sub s) in Hnone.
    rewrite Hab, !lower_app in Hnone.
    apply find_None_suffix in Hnone. by apply find_None_prefix in Hnone. }
  split_and!.
  - apply (has_tag_ws_sub s false) in Htag. fold (WS_RE_sub s) in Htag.
    rewrite Hab in Htag. apply has_tag_suffix in Htag. by apply has_tag_prefix in Htag.
  - apply Hfind; [|done]. by repeat constructor.
  - apply Hfind; [|done]. by repeat constructor.
Qed.

Lemma remove_tag_block_absent fuel html tag_name :
  find (lower html) (py "<" ++ tag_name) = None →
  remove_tag_block (S fuel) html tag_name = Some html.
Proof.
  intros Hnone. unfold remove_tag_block. cbn [remove_tag_block_loop]. by rewrite Hnone.
Qed.

Lemma strip_html_plain fuel s :
  plain_text s →
  strip_html (S fuel) s = Some (strip (WS_RE_sub s), HREF_RE_findall s, SRC_RE_findall s).
Proof.
  intros (Htag & Hscript & Hstyle). unfold strip_html.
  rewrite (remove_tag_block_absent fuel s (py "script")) by exact Hscript. simpl.
  rewrite (remove_tag_block_absent fuel s (py "style")) by exact Hstyle. simpl.
  by rewrite tag_sub_plain.
Qed.
(** *** The fields of a text *)

Lemma lstrip_spaces s : ∃ a, s = a ++ lstrip s ∧ Forall (λ c, isspace c = true) a.
Proof.
  induction s as [|c s (a & IH & Ha)]; [by exists []|]. simpl.
  destruct (isspace c) eqn:Hc; [|by exists []].
  exists (c :: a). split; [simpl; by f_equal | by constructor].
Qed.

Lemma rstrip_spaces s : ∃ b, s = rstrip s ++ b ∧ Forall (λ c, isspace c = true) b.
Proof.
  induction s as [|c s (b & IH & Hb)]; [by exists []|]. simpl.
  destruct (rstrip s) as [|d r] eqn:Hr.
  - simpl in IH. subst b. destruct (isspace c) eqn:Hc.
    + exists (c :: s). split; [done | by constructor].
    + by exists s.
  - exists b. split; [simpl; by f_equal | done].
Qed.

Lemma well_spaced_normalized t : well_spaced false (strip (WS_RE_sub t)) = true.
Proof.
  destruct (strip_infix (WS_RE_sub t)) as (a & b & Hab).
  pose proof (well_spaced_ws_sub t false) as Hw. fold (WS_RE_sub t) in Hw.
  rewrite Hab in Hw. apply well_spaced_suffix in Hw.
  by apply well_spaced_prefix in Hw.
Qed.

Lemma fields_from_flush cur s :
  cur ≠ [] → fields_from cur s ≠ [].
Proof.
  revert cur. induction s as [|c s IH]; intros cur Hne; simpl.
  - by destruct cur.
  - destruct (isspace c); [by destruct cur|]. by apply IH.
Qed.

Lemma fields_from_space cur c r :
  isspace c = true →
  fields_from cur (c :: r)
  = match cur with [] => [] | _ => [reverse cur] end ++ fields_from [] r.
Proof. intros Hc. simpl. rewrite Hc. by destruct cur. Qed.

(** Collapsing the runs of whitespace keeps the fields. *)
Lemma fields_ws_sub s :
  (∀ cur, fields_from cur (ws_sub false s) = fields_from cur s)
  ∧ fields_from [] (ws_sub true s) = fields_from [] s.
Proof.
  induction s as [|c s [IHf IHt]]; [done|]. rewrite !ws_sub_cons.
  destruct (isspace c) eqn:Hc.
  - split.
    + intros cur. rewrite (fields_from_space cur 32%N) by done.
      rewrite (fields_from_space cur c) by done. by rewrite IHt.
    + rewrite IHt. simpl. by rewrite Hc.
  - split; [intros cur|]; simpl; by rewrite Hc, IHf.
Qed.

Lemma fields_leading a s :
  Forall (λ c, isspace c = true) a → fields (a ++ s) = fields s.
Proof.
  unfold fields. induction 1 as [|c a Hc _ IH]; [done|]. simpl. by rewrite Hc.
Qed.

Lemma fields_from_spaces cur b :
  Forall (λ c, isspace c = true) b → fields_from cur b = fields_from cur [].
Proof.
  intros Hb. revert cur. induction Hb as [|c b Hc _ IH]; intros cur; [done|].
  rewrite fields_from_space by done. rewrite (IH []). simpl.
  destruct cur; by rewrite ?app_nil_r.
Qed.

Lemma fields_from_trailing s b :
  Forall (λ c, isspace c = true) b →
  ∀ cur, fields_from cur (s ++ b) = fields_from cur s.
Proof.
  intros Hb. induction s as [|c s IH]; intros cur.
  - by apply fields_from_spaces.
  - simpl. destruct (isspace c); [destruct cur|]; by rewrite IH.
Qed.

Lemma fields_strip s : fields (strip s) = fields s.
Proof.
  unfold strip. destruct (lstrip_spaces s) as (a & Ha & Hsa).
  destruct (rstrip_spaces (lstrip s)) as (b & Hb & Hsb).
  rewrite Ha at 2. rewrite fields_leading by done.
  rewrite Hb at 2. unfold fields. by rewrite fields_from_trailing.
Qed.

Lemma rstrip_ends_nonspace s : ends_nonspace (rstrip s).
Proof.
  unfold ends_nonspace. induction s as [|c s IH]; [done|]. simpl.
  destruct (rstrip s) as [|d r] eqn:Hr.
  - destruct (isspace c) eqn:Hc; [done | simpl; done].
  - rewrite last_cons. destruct (last (d :: r)) eqn:Hl; [done|]. by apply last_None in Hl.
Qed.

Lemma well_spaced_nonspace_head b c r :
  isspace c = false → well_spaced b (c :: r) = well_spaced false r.
Proof. intros Hc. simpl. by rewrite Hc. Qed.

(** A trimmed text with single spaces is its fields joined by spaces. *)
Lemma join_space_fields t : ∀ cur,
  well_spaced false t = true → ends_nonspace t →
  (cur = [] → starts_nonspace t) →
  join_space (fields_from cur t) = reverse cur ++ t.
Proof.
  induction t as [|c r IH]; intros cur Hws Hend Hstart.
  - simpl. rewrite app_nil_r. by destruct cur.
  - assert (ends_nonspace r ∨ r = []) as Hend'.
    { destruct r as [|d r']; [by right|]. left. unfold ends_nonspace in *.
      rewrite last_cons in Hend. destruct (last (d :: r')) eqn:Hl; [done|].
      by apply last_None in Hl. }
    destruct (isspace c) eqn:Hc.
    + destruct cur as [|x cur]; [specialize (Hstart eq_refl); simpl in Hstart; congruence|].
      simpl in Hws. rewrite Hc in Hws. apply andb_true_iff in Hws as [Hws Hr].
      apply andb_true_iff in Hws as [H32 _]. apply N.eqb_eq in H32 as ->.
      destruct r as [|d r'].
      { unfold ends_nonspace in Hend. simpl in Hend. congruence. }
      assert (isspace d = false) as Hd.
      { simpl in Hr. destruct (isspace d); [|done].
        by rewrite andb_false_r in Hr. }
      rewrite (well_spaced_nonspace_head true d r' Hd) in Hr.
      rewrite <- (well_spaced_nonspace_head false d r' Hd) in Hr.
      destruct Hend' as [Hend'|?]; [|done].
      specialize (IH [] Hr Hend' (λ _, Hd)).
      rewrite fields_from_space by done. cbn [app].
      pose proof (fields_from_flush [d] r') as Hne.
      assert (fields_from [] (d :: r') ≠ []) as Hne'.
      { simpl. rewrite Hd. by apply Hne. }
      destruct (fields_from [] (d :: r')) as [|w ws] eqn:Hf; [done|].
      change (join_space (reverse (x :: cur) :: w :: ws))
        with (reverse (x :: cur) ++ 32%N :: join_space (w :: ws)).
      by rewrite IH.
    + rewrite (well_spaced_nonspace_head false c r Hc) in Hws.
      simpl. rewrite Hc. rewrite IH; [| done | | done].
      * by rewrite reverse_cons, <- app_assoc.
      * destruct Hend' as [?| ->]; done.
Qed.

(** [WS_RE.sub(" ", s).strip()] is [" ".join(s.split())]. *)
Lemma normalized_fields s : strip (WS_RE_sub s) = join_space (fields s).
Proof.
  assert (fields (strip (WS_RE_sub s)) = fields s) as Hf.
  { rewrite fields_strip. unfold fields, WS_RE_sub.
    by destruct (fields_ws_sub s) as [-> _]. }
  rewrite <- Hf. symmetry. apply (join_space_fields _ []).
  - apply well_spaced_normalized.
  - apply rstrip_ends_nonspace.
  - intros _. unfold strip. apply rstrip_starts_nonspace, lstrip_starts_nonspace.
Qed.

Lemma strip_fixed_ends s : strip s = s → starts_nonspace s ∧ ends_nonspace s.
Proof.
  intros Hs. rewrite <- Hs. unfold strip. split.
  - apply rstrip_starts_nonspace, lstrip_starts_nonspace.
  - apply rstrip_ends_nonspace.
Qed.
End PlainText.

(** C8, as the code has it.  Take a text without markup: no tag, and no
    opening of a script or style block in either letter case.  The stripper
    only collapses its runs of whitespace and trims it: the text returned is
    the fields of the input joined by single spaces.  It has the fields of
    the input, no whitespace at either end and single spaces only; it is
    the input itself when the input is already of that form; it is again
    without markup, and the stripper gives it back unchanged. *)
Theorem strip_html_on_plain_text (fuel : nat) (s : pystr) :
  plain_text s →
  let t := join_space (fields s) in
  Processor.strip_html (S fuel) s = Some (t, HREF_RE_findall s, SRC_RE_findall s)
  ∧ fields t = fields s
  ∧ strip t = t
  ∧ well_spaced false t = true
  ∧ (well_spaced false s = true → strip s = s → t = s)
  ∧ plain_text t
  ∧ Processor.strip_html (S fuel) t = Some (t, HREF_RE_findall t, SRC_RE_findall t).
Proof.
  intros Hplain t. subst t. rewrite <- normalized_fields.
  pose proof (plain_text_normalized s Hplain) as Ht.
  split_and!.
  - by apply strip_html_plain.
  - rewrite fields_strip. unfold fields, WS_RE_sub.
    by destruct (fields_ws_sub s) as [-> _].
  - apply strip_idemp.
  - apply well_spaced_normalized.
  - intros Hws Hs. rewrite normalized_fields. destruct (strip_fixed_ends s Hs).
    by apply (join_space_fields s []).
  - done.
  - rewrite (strip_html_plain fuel _ Ht). by rewrite normalized_fixed.
Qed.

Lemma strip_html_on_plain_text_witness :
  let s := Examples.spaced_text in
  let t := join_space (fields s) in
  Processor.strip_html 1 s = Some (t, HREF_RE_findall s, SRC_RE_findall s)
  ∧ fields t = fields s
  ∧ strip t = t
  ∧ well_spaced false t = true
  ∧ (well_spaced false s = true → strip s = s → t = s)
  ∧ plain_text t
  ∧ Processor.strip_html 1 t = Some (t, HREF_RE_findall t, SRC_RE_findall t).
Proof.
  apply (strip_html_on_plain_text 0 Examples.spaced_text).
  split_and!; vm_compute; reflexivity.
Defined.

(** C8, as the claim has it, fails.  The text "x <scriptorium y" holds no
    tag, for no [>] follows its [<]; it is three fields with single spaces
    between them, so that collapsing and trimming leave it as it is.  The
    stripper takes its [<script] for the opening of a script block that is
    not closed, and returns "x". *)
Lemma tag_free_text_is_cut_at_script_opening :
  let s := py "x <scriptorium y" in
  has_tag s = false
  ∧ join_space (fields s) = s
  ∧ strip (WS_RE_sub s) = s
  ∧ (∀ fuel, Processor.strip_html (S fuel) s = Some (py "x", [], []))
  ∧ ¬ (∃ fuel links images,
         Processor.strip_html fuel s = Some (join_space (fields s), links, images)).
Proof.
  assert (∀ fuel, Processor.strip_html (S fuel) (py "x <scriptorium y")
                  = Some (py "x", [], [])) as Hcut.
  { intros fuel. vm_compute. reflexivity. }
  split_and!.
  - vm_compute. reflexivity.
  - vm_compute. reflexivity.
  - vm_compute. reflexivity.
  - exact Hcut.
  - intros (fuel & links & images & Hret). destruct fuel as [|fuel]; [done|].
    rewrite Hcut in Hret. vm_compute in Hret. discriminate Hret.
Qed.

(** ** Block removal on text whose lowercase form has the same length *)

Section Dotless.
Import Processor.

Lemma lower_cp_single c : c ≠ 304%N → ∃ d, lower_cp c = [d].
Proof.
  intros Hc. unfold lower_cp.
  destruct (in_range 65 90 c); [by eexists|].
  destruct (in_range 192 222 c && negb (c =? 215)%N); [by eexists|].
  destruct (N.eqb_spec c 304); [done | by eexists].
Qed.

Lemma lower_dotless_take html n :
  304%N ∉ html → lower (take n html) = take n (lower html).
Proof.
  revert n. induction html as [|c html IH]; intros n Hdot; [by destruct n|].
  apply not_elem_of_cons in Hdot as [Hc Hdot].
  destruct (lower_cp_single c) as [d Hd]; [done|].
  destruct n as [|n]; [done|].
  change (lower (take (S n) (c :: html))) with (lower_cp c ++ lower (take n html)).
  change (lower (c :: html)) with (lower_cp c ++ lower html).
  rewrite Hd. simpl. f_equal. by apply IH.
Qed.

Lemma lower_dotless_length html : 304%N ∉ html → length (lower html) = length html.
Proof.
  induction html as [|c html IH]; intros Hdot; [done|].
  apply not_elem_of_cons in Hdot as [Hc Hdot].
  destruct (lower_cp_single c) as [d Hd]; [done|].
  change (lower (c :: html)) with (lower_cp c ++ lower html).
  rewrite Hd. simpl. f_equal. by apply IH.
Qed.

Lemma startswith_length s p : startswith s p = true → length p ≤ length s.
Proof.
  revert s. induction p as [|a p IH]; intros [|c s]; simpl; try done; [lia|].
  rewrite andb_true_iff. intros [_ H]. apply IH in H. lia.
Qed.

Lemma find_Some_bound s p i : find s p = Some i → i + length p ≤ length s.
Proof.
  revert i. induction s as [|c s IH]; intros i.
  - destruct p; [|done]. simpl. intros [= <-]. simpl. lia.
  - rewrite find_cons. destruct (startswith (c :: s) p) eqn:Hs.
    + intros [= <-]. by apply startswith_length in Hs.
    + destruct (find s p) as [j|] eqn:Hj; [|done]. simpl. intros [= <-].
      specialize (IH j eq_refl). simpl. lia.
Qed.

Lemma find_from_Some_bound s p start e :
  start ≤ length s →
  find_from s p start = Some e → start ≤ e ∧ e + length p ≤ length s.
Proof.
  intros Hstart. unfold find_from. destruct (find (drop start s) p) as [j|] eqn:Hj; [|done].
  simpl. intros [= <-]. apply find_Some_bound in Hj. rewrite length_drop in Hj. lia.
Qed.

Lemma startswith_take s p n : startswith (take n s) p = true → startswith s p = true.
Proof.
  intros H. rewrite <- (take_drop n s). by apply startswith_app.
Qed.

(** Nothing is found in front of the first occurrence. *)
Lemma find_take_None s p i : p ≠ [] → find s p = Some i → find (take i s) p = None.
Proof.
  intros Hp. revert i. induction s as [|c s IH]; intros i.
  - by destruct p.
  - rewrite find_cons. destruct (startswith (c :: s) p) eqn:Hs.
    + intros [= <-]. by destruct p.
    + destruct (find s p) as [j|] eqn:Hj; [|done]. simpl. intros [= <-].
      change (take (S j) (c :: s)) with (c :: take j s).
      apply find_None_cons. split; [|by apply IH].
      destruct (startswith (c :: take j s) p) eqn:Hs'; [|done].
      change (c :: take j s) with (take (S j) (c :: s)) in Hs'.
      apply startswith_take in Hs'. congruence.
Qed.

(** On such a text the loop is left within as many turns as the text has
    characters, plus one; what it returns holds no opening pattern, in
    either case, and is no longer than the text. *)
Lemma remove_tag_block_loop_returns open_pat tag_name fuel : ∀ html,
  open_pat ≠ [] →
  304%N ∉ html → length html < fuel →
  ∃ r, remove_tag_block_loop fuel open_pat (py "</" ++ tag_name ++ py ">")
         html (lower html) = Some r
       ∧ find (lower r) open_pat = None
       ∧ (304%N ∉ r) ∧ length r ≤ length html.
Proof.
  intros html Hopen. revert html.
  induction fuel as [|fuel IH]; intros html Hdot Hlen; [lia|].
  cbn [remove_tag_block_loop].
  destruct (find (lower html) open_pat) as [start|] eqn:Hstart.
  - pose proof (find_Some_bound _ _ _ Hstart) as Hb.
    rewrite lower_dotless_length in Hb by done.
    destruct (find_from (lower html) _ start) as [e|] eqn:He.
    + apply find_from_Some_bound in He as [Hse He];
        [|rewrite lower_dotless_length by done; lia].
      rewrite lower_dotless_length in He by done.
      rewrite length_app in He. change (length (py "</")) with 2 in He.
      destruct (IH (take start html ++ 32%N :: drop (e + length (py "</" ++ tag_name ++ py ">")) html))
        as (r & Hr & Hnone & Hdot' & Hlen').
      * intros Hin. apply elem_of_app in Hin as [Hin|Hin].
        -- apply Hdot. by eapply subseteq_take.
        -- apply elem_of_cons in Hin as [?|Hin]; [done|].
           apply Hdot. by eapply subseteq_drop.
      * rewrite length_app, length_take. simpl. rewrite length_drop, !length_app.
        change (length (py "</")) with 2. lia.
      * exists r. split_and!; [done | done | done |].
        etrans; [done|].
        rewrite length_app, length_take. simpl. rewrite length_drop, !length_app.
        change (length (py "</")) with 2. lia.
    + exists (take start html). split_and!.
      * done.
      * rewrite lower_dotless_take by done. by apply find_take_None.
      * intros Hin. apply Hdot. by eapply subseteq_take.
      * rewrite length_take. lia.
  - by exists html.
Qed.
End Dotless.

(** For a text without the code point U+0130 block removal returns; it returns a text in which the opening pattern no
    longer occurs, in either case, and which is no longer than the input. *)
Theorem remove_tag_block_on_dotless_text (fuel : nat) (html tag_name : pystr) :
  304%N ∉ html → length html < fuel →
  ∃ r, Processor.remove_tag_block fuel html tag_name = Some r
       ∧ find (lower r) (py "<" ++ tag_name) = None
       ∧ (304%N ∉ r) ∧ length r ≤ length html.
Proof.
  intros Hdot Hlen. unfold Processor.remove_tag_block.
  by apply remove_tag_block_loop_returns.
Qed.

Lemma remove_tag_block_on_dotless_text_witness :
  ∃ r, Processor.remove_tag_block 30 (py "a<script>x</script>b") (py "script") = Some r
       ∧ find (lower r) (py "<" ++ py "script") = None
       ∧ (304%N ∉ r) ∧ length r ≤ length (py "a<script>x</script>b").
Proof.
  apply (remove_tag_block_on_dotless_text 30 (py "a<script>x</script>b") (py "script")).
  - refine (bool_decide_unpack _ _). vm_compute. exact I.
  - apply Nat.ltb_lt. vm_compute. reflexivity.
Defined.

(** ** The loop over the raw files *)

Section Accounting.
Import Processor.

Lemma split_no_sep sep s : sep ∉ s → split sep s = [s].
Proof.
  induction s as [|c s IH]; [done|]. intros Hs.
  apply not_elem_of_cons in Hs as [Hc Hs]. simpl.
  destruct (N.eqb_spec c sep) as [->|_]; [done|]. by rewrite IH.
Qed.

Lemma split_two sep a f : ∃ h h' t, split sep (a ++ sep :: f) = h :: h' :: t.
Proof.
  induction a as [|c a (h & h' & t & IH)]; simpl.
  - rewrite N.eqb_refl. destruct (split sep f) as [|x l] eqn:Hx; [|by eexists _, _, _].
    by destruct f as [|c f]; simpl in Hx; repeat case_match.
  - rewrite IH. destruct (c =? sep)%N; by eexists _, _, _.
Qed.

(** The last component of a path that ends with a name free of slashes. *)
Lemma split_last_app sep a f : sep ∉ f → split_last sep (a ++ sep :: f) = f.
Proof.
  intros Hf. unfold split_last. induction a as [|c a IH]; simpl.
  - rewrite N.eqb_refl, split_no_sep by done. done.
  - destruct (split_two sep a f) as (h & h' & t & Hs). rewrite Hs in IH |- *.
    by destruct (c =? sep)%N.
Qed.

Lemma strip_html_returns fuel html :
  304%N ∉ html → length html < fuel → is_Some (strip_html fuel html).
Proof.
  intros Hdot Hlen. unfold strip_html, remove_tag_block.
  destruct (remove_tag_block_loop_returns (py "<" ++ py "script") (py "script") fuel html)
    as (html1 & -> & _ & Hdot1 & Hlen1); [done | done | done |].
  cbn [mbind option_bind].
  destruct (remove_tag_block_loop_returns (py "<" ++ py "style") (py "style") fuel html1)
    as (html2 & -> & _); [done | done | lia |].
  by cbn [mbind option_bind].
Qed.

Variable fuel : nat.
Variable w : world.

Lemma process_one_file_source path d :
  process_one_file fuel w path = Some (inr d) → source_file d = split_last 47 path.
Proof.
  unfold process_one_file. destruct (read_text_file w path) as [e|html]; [done|].
  destruct (strip_html fuel html) as [[[text links] images]|]; [|done].
  simpl. by intros [= <-].
Qed.

(** A file that cannot be opened settles, and so does a file whose text is
    free of U+0130 and shorter than the number of turns allowed. *)
Lemma unreadable_settles fname e :
  read_text_file w (RAW_DIR ++ py "/" ++ fname) = inl e → settles fuel w fname.
Proof. intros Hread. unfold settles, process_one_file. by rewrite Hread. Qed.

Lemma dotless_settles fname html :
  read_text_file w (RAW_DIR ++ py "/" ++ fname) = inr html →
  304%N ∉ html → length html < fuel → settles fuel w fname.
Proof.
  intros Hread Hdot Hlen. unfold settles, process_one_file. rewrite Hread.
  destruct (strip_html_returns fuel html Hdot Hlen) as [[[text links] images] ->].
  by simpl.
Qed.

(** One turn of the loop accounts for its file. *)
Lemma process_step_accounts fname st :
  47%N ∉ fname → settles fuel w fname →
  ∃ st' e ds, process_step fuel w fname st = Some st'
    ∧ st_results st' = st_results st ++ [e]
    ∧ written st' = written st ++ ds
    ∧ ok st' + bad st' = ok st + bad st + 1
    ∧ accounted fname e ds.
Proof.
  intros Hslash [r Hr]. unfold process_step. rewrite Hr. simpl.
  destruct r as [e|d]; [|destruct (write_json w (out_path_of fname)) as [e|]].
  - eexists _, _, []. split_and!; [done | done | by rewrite app_nil_r | simpl; lia |].
    split; [done|]. right. by split_and!.
  - eexists _, _, []. split_and!; [done | done | by rewrite app_nil_r | simpl; lia |].
    split; [done|]. right. by split_and!.
  - eexists _, _, _. split_and!; [done | done | done | simpl; lia |].
    split; [done|]. left. split_and!; [done | done | done |].
    exists d. split; [done|]. apply process_one_file_source in Hr as ->.
    change (RAW_DIR ++ py "/" ++ fname) with (RAW_DIR ++ 47%N :: fname).
    by apply split_last_app.
Qed.

Lemma process_loop_accounts files : ∀ st,
  Forall (λ f, 47%N ∉ f) files → Forall (settles fuel w) files →
  ∃ st' es, process_loop fuel w files st = Some st'
    ∧ st_results st' = st_results st ++ es.*1
    ∧ written st' = written st ++ concat es.*2
    ∧ ok st' + bad st' = ok st + bad st + length files
    ∧ Forall2 (λ f o, accounted f o.1 o.2) files es.
Proof.
  induction files as [|f files IH]; intros st Hslash Hsettle.
  - exists st, []. simpl. rewrite !app_nil_r. split_and!; [done | done | done | lia | done].
  - apply Forall_cons in Hslash as [Hf Hslash].
    apply Forall_cons in Hsettle as [Hsf Hsettle].
    destruct (process_step_accounts f st Hf Hsf) as (st1 & e & ds & Hstep & Hr & Hw & Hn & Hacc).
    destruct (IH st1 Hslash Hsettle) as (st' & es & Hloop & Hr' & Hw' & Hn' & Hall).
    exists st', ((e, ds) :: es). cbn [process_loop]. rewrite Hstep. simpl.
    split_and!.
    + done.
    + rewrite Hr', Hr, <- app_assoc. done.
    + rewrite Hw', Hw, <- app_assoc. done.
    + lia.
    + by constructor.
Qed.

(** The strings of the entries are made of the file name, of constants and
    of the messages of the exceptions. *)
Lemma py_encodable lit : encodable (py lit).
Proof.
  unfold encodable, py. apply Forall_fmap, Forall_forall. intros a _.
  pose proof (N_ascii_bounded a). unfold compose, scalar. lia.
Qed.

Lemma elem_of_split sep s : ∀ p x, p ∈ split sep s → x ∈ p → x ∈ s.
Proof.
  induction s as [|c s IH]; intros p x; simpl.
  - intros Hp Hx. apply list_elem_of_singleton in Hp as ->. done.
  - destruct (c =? sep)%N.
    + intros Hp Hx. apply elem_of_cons in Hp as [->|Hp]; [by apply elem_of_nil in Hx|].
      right. by eapply IH.
    + destruct (split sep s) as [|h t] eqn:Hs.
      * intros Hp Hx. apply list_elem_of_singleton in Hp as ->.
        apply list_elem_of_singleton in Hx as ->. left.
      * intros Hp Hx. apply elem_of_cons in Hp as [->|Hp].
        -- apply elem_of_cons in Hx as [->|Hx]; [left|].
           right. apply (IH h); [left | done].
        -- right. apply (IH p); [by right | done].
Qed.

Lemma elem_of_split_last sep s x : x ∈ split_last sep s → x ∈ s.
Proof.
  unfold split_last.
  assert (∀ l : list pystr, x ∈ List.last l [] → ∃ p, p ∈ l ∧ x ∈ p) as Hlast.
  { induction l as [|a l IHl]; simpl; [intros H; by apply elem_of_nil in H|].
    destruct l as [|b l]; [intros H; exists a; split; [left | done]|].
    intros H. destruct (IHl H) as (q & Hq & Hx). exists q. split; [by right | done]. }
  intros Hx. destruct (Hlast _ Hx) as (q & Hq & Hxq). by eapply elem_of_split.
Qed.

Lemma elem_of_rsplit1_head sep s x : x ∈ rsplit1_head sep s → x ∈ s.
Proof.
  induction s as [|c s IH]; simpl; [done|].
  case_bool_decide.
  - intros Hx. apply elem_of_cons in Hx as [->|Hx]; [left | right; by apply IH].
  - destruct (c =? sep)%N; [intros Hx; by apply elem_of_nil in Hx | done].
Qed.

Lemma out_file_encodable fname :
  encodable fname → encodable (split_last 47 (out_path_of fname)).
Proof.
  intros Hname. apply Forall_forall. intros x Hx.
  apply elem_of_split_last in Hx. unfold out_path_of in Hx.
  pose proof (py_encodable "/shared/processed") as H1.
  pose proof (py_encodable "/") as H2.
  pose proof (py_encodable ".json") as H3.
  unfold encodable in *. rewrite Forall_forall in Hname, H1, H2, H3.
  rewrite !elem_of_app in Hx. destruct Hx as [Hx|[Hx|[Hx|Hx]]].
  - by apply H1.
  - by apply H2.
  - apply Hname. case_bool_decide; [by eapply elem_of_rsplit1_head | done].
  - by apply H3.
Qed.

Lemma process_one_file_inl path e :
  process_one_file fuel w path = Some (inl e) → read_text_file w path = inl e.
Proof.
  unfold process_one_file. destruct (read_text_file w path) as [e'|html].
  - by intros [= ->].
  - destruct (strip_html fuel html) as [[[text links] images]|]; [|done]. done.
Qed.

Lemma process_step_encodable fname st st' :
  messages_encodable w → encodable fname →
  process_step fuel w fname st = Some st' →
  Forall encodable (concat (entry_strings <$> st_results st)) →
  Forall encodable (concat (entry_strings <$> st_results st')).
Proof.
  intros [Hread Hwrite] Hname. unfold process_step.
  destruct (process_one_file fuel w _) as [r|] eqn:Hr; [|done].
  cbn [mbind option_bind]. intros [= <-] Hst.
  destruct r as [e|d]; [|destruct (write_json w (out_path_of fname)) as [e|] eqn:Hw];
    cbn [st_results record_failure];
    rewrite fmap_app, concat_app, Forall_app; (split; [done|]);
    cbn [fmap list_fmap concat]; rewrite app_nil_r; unfold entry_strings;
    cbn [r_source_file r_status r_output_file r_error option_list app].
  - apply process_one_file_inl in Hr.
    apply Forall_cons_2; [done|]. apply Forall_cons_2; [apply py_encodable|].
    apply Forall_cons_2; [by eapply Hread | apply Forall_nil_2].
  - apply Forall_cons_2; [done|]. apply Forall_cons_2; [apply py_encodable|].
    apply Forall_cons_2; [by eapply Hwrite | apply Forall_nil_2].
  - apply Forall_cons_2; [done|]. apply Forall_cons_2; [apply py_encodable|].
    apply Forall_cons_2; [by apply out_file_encodable | apply Forall_nil_2].
Qed.

Lemma process_loop_encodable files : ∀ st st',
  messages_encodable w → Forall encodable files →
  process_loop fuel w files st = Some st' →
  Forall encodable (concat (entry_strings <$> st_results st)) →
  Forall encodable (concat (entry_strings <$> st_results st')).
Proof.
  induction files as [|f files IH]; intros st st' Hmsg Hnames; cbn [process_loop].
  - by intros [= <-].
  - apply Forall_cons in Hnames as [Hf Hnames].
    destruct (process_step fuel w f st) as [st1|] eqn:Hstep; [|done].
    cbn [mbind option_bind]. intros Hloop Hst.
    apply (IH st1 st' Hmsg Hnames Hloop).
    by apply (process_step_encodable f st st1).
Qed.

(** Among the outcomes of distinct files, those of one file are one entry and
    its documents. *)
Lemma accounted_filter files es :
  Forall2 (λ f o, accounted f o.1 o.2) files es → NoDup files →
  ∀ f,
    (f ∉ files →
       filter (λ r, r_source_file r = f) es.*1 = []
       ∧ filter (λ pd, source_file pd.2 = f) (concat es.*2) = [])
    ∧ (f ∈ files →
       ∃ e ds, accounted f e ds
         ∧ filter (λ r, r_source_file r = f) es.*1 = [e]
         ∧ filter (λ pd, source_file pd.2 = f) (concat es.*2) = ds).
Proof.
  induction 1 as [|g [e ds] files es Hacc _ IH]; intros Hnd f.
  - split; [done|]. intros Hin. by apply elem_of_nil in Hin.
  - apply NoDup_cons in Hnd as [Hg Hnd]. specialize (IH Hnd f) as [IHout IHin].
    simpl in Hacc. cbn [fmap list_fmap fst snd concat].
    rewrite filter_cons, filter_app.
    assert (r_source_file e = g) as Hsrc by apply Hacc.
    assert (filter (λ pd, source_file pd.2 = f) ds = if decide (g = f) then ds else [])
      as Hds.
    { destruct Hacc as [_ [(_ & _ & _ & d & -> & Hd)|(_ & _ & _ & ->)]].
      - rewrite filter_cons, filter_nil. simpl. rewrite Hd.
        by destruct (decide (g = f)).
      - by destruct (decide (g = f)). }
    rewrite Hds, Hsrc. split.
    + intros Hnot. apply not_elem_of_cons in Hnot as [Hne Hnot].
      destruct (IHout Hnot) as [-> ->].
      rewrite !decide_False by done. done.
    + intros Hin. apply elem_of_cons in Hin as [->|Hin].
      * destruct (IHout Hg) as [-> ->]. rewrite !decide_True by done.
        exists e, ds. by rewrite app_nil_r.
      * assert (g ≠ f) as Hne by (intros ->; done).
        rewrite !decide_False by done. simpl. by apply IHin.
Qed.
End Accounting.

(** The bookkeeping of the loop.  Take a raw directory whose names are
    distinct, free of slashes and encodable in UTF-8 (no lone surrogate),
    suppose that the messages of the exceptions met are encodable too, and
    that the [try] block returns or raises for every [.html] file of the
    directory.  Then the processor comes to its last write with exit code 0
    and a manifest in which every string is encodable; and for each such
    file the manifest has exactly one entry: either a success entry that
    names the output file, with exactly one document written, or a failed
    entry with an error and no output file, with no document written.  The
    entries are as many as the files, and the two counters add up to that
    number. *)
Theorem every_raw_file_is_accounted_for
    (fuel : nat) (w : Processor.world) (names : list pystr) :
  Processor.raw_dir w = Some names →
  NoDup names →
  Forall (λ f, 47%N ∉ f) names →
  Forall encodable names →
  messages_encodable w →
  (∀ f, f ∈ names → Processor.is_html f → settles fuel w f) →
  ∃ out, Processor.main fuel w = Some out
    ∧ Processor.exit_code out = 0%Z
    ∧ Forall encodable (manifest_strings (Processor.status_file out))
    ∧ Processor.successful (Processor.status_file out)
      + Processor.failed (Processor.status_file out)
      = Processor.files_processed (Processor.status_file out)
    ∧ length (Processor.results (Processor.status_file out))
      = Processor.files_processed (Processor.status_file out)
    ∧ ∀ f, f ∈ names → Processor.is_html f →
        ∃ e ds, accounted f e ds
          ∧ filter (λ r, Processor.r_source_file r = f)
              (Processor.results (Processor.status_file out)) = [e]
          ∧ filter (λ pd, Processor.source_file pd.2 = f) (Processor.documents out) = ds.
Proof.
  intros Hdir Hnd Hslash Hnames Hmsg Hsettle. unfold Processor.main. rewrite Hdir.
  set (raw_files := merge_sort Processor.name_le (filter (λ n, Processor.is_html n) names)).
  assert (raw_files ≡ₚ filter (λ n, Processor.is_html n) names) as Hperm
    by apply merge_sort_Permutation.
  assert (∀ f, f ∈ raw_files ↔ Processor.is_html f ∧ f ∈ names) as Hmem.
  { intros f. by rewrite Hperm, list_elem_of_filter. }
  destruct (process_loop_accounts fuel w raw_files
              {| Processor.st_results := []; Processor.ok := 0;
                 Processor.bad := 0; Processor.written := [] |})
    as (st & es & Hloop & Hres & Hdocs & Hcount & Hall).
  { apply Forall_forall. intros f Hf. apply Hmem in Hf as [_ Hf].
    rewrite Forall_forall in Hslash. by apply Hslash. }
  { apply Forall_forall. intros f Hf. apply Hmem in Hf as [Hh Hf]. by apply Hsettle. }
  assert (Forall encodable (concat (entry_strings <$> Processor.st_results st))) as Henc.
  { eapply (process_loop_encodable fuel w raw_files); [exact Hmsg | |exact Hloop|constructor].
    apply Forall_forall. intros f Hf. apply Hmem in Hf as [_ Hf].
    rewrite Forall_forall in Hnames. by apply Hnames. }
  rewrite Hloop. simpl in Hres, Hdocs, Hcount. eexists. split; [done|].
  cbn [Processor.exit_code Processor.status_file Processor.documents
       Processor.successful Processor.failed Processor.files_processed
       Processor.results].
  split_and!; [done | exact Henc | lia | |].
  - rewrite Hres, length_fmap. symmetry. by eapply Forall2_length.
  - intros f Hf Hh. rewrite Hres, Hdocs.
    apply (accounted_filter raw_files es Hall).
    + rewrite Hperm. by apply NoDup_filter.
    + by apply Hmem.
Qed.

Lemma every_raw_file_is_accounted_for_witness :
  ∃ out, Processor.main 40 Examples.mixed_raw_dir = Some out
    ∧ Processor.exit_code out = 0%Z
    ∧ Forall encodable (manifest_strings (Processor.status_file out))
    ∧ Processor.successful (Processor.status_file out)
      + Processor.failed (Processor.status_file out)
      = Processor.files_processed (Processor.status_file out)
    ∧ length (Processor.results (Processor.status_file out))
      = Processor.files_processed (Processor.status_file out)
    ∧ ∀ f, f ∈ [py "page_2.html"; py "notes.txt"; py "page_1.html"] →
        Processor.is_html f →
        ∃ e ds, accounted f e ds
          ∧ filter (λ r, Processor.r_source_file r = f)
              (Processor.results (Processor.status_file out)) = [e]
          ∧ filter (λ pd, Processor.source_file pd.2 = f) (Processor.documents out) = ds.
Proof.
  apply (every_raw_file_is_accounted_for 40 Examples.mixed_raw_dir
           [py "page_2.html"; py "notes.txt"; py "page_1.html"]).
  - reflexivity.
  - refine (bool_decide_unpack _ _). vm_compute. exact I.
  - repeat constructor; refine (bool_decide_unpack _ _); vm_compute; exact I.
  - repeat (apply Forall_cons_2; [apply py_encodable|]). apply Forall_nil_2.
  - split; intros p e; simpl; [|done].
    case_bool_decide; [|done]. intros [= <-]. apply py_encodable.
  - intros f Hf _. unfold settles.
    repeat (apply elem_of_cons in Hf as [->|Hf]); [| | |by apply elem_of_nil in Hf];
      vm_compute; eauto.
Defined.

(** ** The extract manifest *)

(** C4.  Without a raw directory the processor still produces its manifest:
    it carries an error field, zero files processed, zero successes, zero
    failures and no result; no document is written and the exit code is not
    zero. *)
Theorem missing_raw_dir_is_fatal (fuel : nat) (w : Processor.world) :
  Processor.raw_dir w = None →
  ∃ out, Processor.main fuel w = Some out
    ∧ Processor.exit_code out ≠ 0%Z
    ∧ is_Some (Processor.m_error (Processor.status_file out))
    ∧ Processor.files_processed (Processor.status_file out) = 0
    ∧ Processor.successful (Processor.status_file out) = 0
    ∧ Processor.failed (Processor.status_file out) = 0
    ∧ Processor.results (Processor.status_file out) = []
    ∧ Processor.documents out = [].
Proof.
  intros Hdir. unfold Processor.main. rewrite Hdir.
  eexists. split; [reflexivity|]. simpl. split_and!; eauto.
Qed.

Lemma missing_raw_dir_is_fatal_witness :
  ∃ out, Processor.main 0 Examples.no_raw_dir = Some out
    ∧ Processor.exit_code out ≠ 0%Z
    ∧ is_Some (Processor.m_error (Processor.status_file out))
    ∧ Processor.files_processed (Processor.status_file out) = 0
    ∧ Processor.successful (Processor.status_file out) = 0
    ∧ Processor.failed (Processor.status_file out) = 0
    ∧ Processor.results (Processor.status_file out) = []
    ∧ Processor.documents out = [].
Proof. apply (missing_raw_dir_is_fatal 0 Examples.no_raw_dir). reflexivity. Defined.

Lemma filter_none {A} (p : A → bool) (l : list A) :
  Forall (λ x, p x = false) l → filter (λ x, p x) l = [].
Proof.
  induction 1 as [|x l Hx _ IH]; [done|].
  rewrite filter_cons_False; [done|]. rewrite Hx. simpl. tauto.
Qed.

(** C9.  A raw directory that exists and holds no file with the [.html]
    suffix is not an error: the manifest reports zero files processed, zero
    successes and zero failures, carries no error field, and the exit code
    is 0. *)
Theorem empty_raw_dir_is_not_fatal (fuel : nat) (w : Processor.world) (names : list pystr) :
  Processor.raw_dir w = Some names →
  Forall (λ n, Processor.is_html n = false) names →
  Processor.main fuel w =
    Some {| Processor.exit_code := 0;
            Processor.status_file :=
              {| Processor.m_status := None; Processor.m_error := None;
                 Processor.files_processed := 0; Processor.successful := 0;
                 Processor.failed := 0; Processor.results := [] |};
            Processor.documents := [] |}.
Proof.
  intros Hdir Hnone. unfold Processor.main. rewrite Hdir.
  rewrite (filter_none _ _ Hnone). reflexivity.
Qed.

Lemma empty_raw_dir_is_not_fatal_witness :
  Processor.main 5 Examples.no_html_files =
    Some {| Processor.exit_code := 0;
            Processor.status_file :=
              {| Processor.m_status := None; Processor.m_error := None;
                 Processor.files_processed := 0; Processor.successful := 0;
                 Processor.failed := 0; Processor.results := [] |};
            Processor.documents := [] |}.
Proof.
  apply (empty_raw_dir_is_not_fatal 5 Examples.no_html_files
           [py "notes.txt"; py "page_1.htm"]).
  - reflexivity.
  - repeat constructor.
Defined.

(** ** Jaccard similarity *)

Section Jaccard.
Import Analyzer.

Lemma Zpos_of_nat (n : nat) : 0 < n → Z.pos (Pos.of_nat n) = Z.of_nat n.
Proof. intros Hn. destruct n; [lia|]. rewrite <- Pos.of_nat_succ. lia. Qed.

Lemma ratio_bounds (n d : nat) :
  n ≤ d → 0 < d → (0 <= Z.of_nat n # Pos.of_nat d)%Q ∧ (Z.of_nat n # Pos.of_nat d <= 1)%Q.
Proof.
  intros Hnd Hd. unfold Qle. simpl. rewrite Zpos_of_nat by done. lia.
Qed.

Lemma ratio_one (d : nat) : 0 < d → (Z.of_nat d # Pos.of_nat d == 1)%Q.
Proof. intros Hd. unfold Qeq. simpl. rewrite Zpos_of_nat by done. lia. Qed.

Lemma size_list_to_set_pos (A : list pystr) :
  A ≠ [] → 0 < size (list_to_set A : gset pystr).
Proof.
  destruct A as [|a A]; [done|]. intros _.
  assert (a ∈ (list_to_set (a :: A) : gset pystr)) as Ha
    by (apply elem_of_list_to_set; left).
  destruct (decide (size (list_to_set (a :: A) : gset pystr) = 0)) as [Hz|]; [|lia].
  apply size_empty_inv in Hz. set_solver.
Qed.
End Jaccard.

(** C5.  The Jaccard similarity of two token lists does not depend on their
    order, lies between 0 and 1, and for a list compared with itself is 1
    when the list has a token and 0 when it has none (so when both sets are
    empty). *)
Theorem jaccard_similarity_properties (A B : list pystr) :
  Analyzer.jaccard_similarity A B = Analyzer.jaccard_similarity B A
  ∧ (0 <= Analyzer.jaccard_similarity A B)%Q
  ∧ (Analyzer.jaccard_similarity A B <= 1)%Q
  ∧ (Analyzer.jaccard_similarity A A == if bool_decide (A = []) then 0 else 1)%Q.
Proof.
  unfold Analyzer.jaccard_similarity. split_and!.
  - assert ((list_to_set A : gset pystr) ∩ list_to_set B = list_to_set B ∩ list_to_set A)
      as -> by set_solver.
    assert ((list_to_set A : gset pystr) ∪ list_to_set B = list_to_set B ∪ list_to_set A)
      as -> by set_solver.
    reflexivity.
  - destruct (0 <? _) eqn:Hpos; [|done].
    apply Nat.ltb_lt in Hpos. apply ratio_bounds; [|done].
    apply subseteq_size. set_solver.
  - destruct (0 <? _) eqn:Hpos; [|done].
    apply Nat.ltb_lt in Hpos. apply ratio_bounds; [|done].
    apply subseteq_size. set_solver.
  - assert ((list_to_set A : gset pystr) ∩ list_to_set A = list_to_set A) as -> by set_solver.
    assert ((list_to_set A : gset pystr) ∪ list_to_set A = list_to_set A) as -> by set_solver.
    case_bool_decide as HA.
    + subst A. reflexivity.
    + pose proof (size_list_to_set_pos A HA) as Hpos.
      apply Nat.ltb_lt in Hpos as Hb. rewrite Hb. by apply ratio_one.
Qed.

(** ** Orders given to [sort] *)

(** [sort] compares keys with [<] and keeps [x] before [y] unless the key of
    [y] is smaller.  For keys under a strict total order this relation is
    total and transitive, and antisymmetric when the key determines the
    element. *)
Section NotLexico.
Context {A K : Type} `{Lexico K} `{!StrictOrder (@lexico K _)}
        `{!Trichotomy (@lexico K _)} (key : A → K).

Let R (x y : A) : Prop := ¬ lexico (key y) (key x).

Lemma not_lexico_total : Total R.
Proof.
  intros x y. unfold R.
  destruct (trichotomy (@lexico K _) (key x) (key y)) as [Hxy|[Heq|Hyx]].
  - left. intros Hyx. by apply (irreflexivity (@lexico K _) (key x)); etrans.
  - left. rewrite Heq. apply irreflexivity, _.
  - right. intros Hxy. by apply (irreflexivity (@lexico K _) (key x)); etrans.
Qed.

Lemma not_lexico_trans : Transitive R.
Proof.
  intros x y z Hxy Hyz Hzx. unfold R in *.
  destruct (trichotomy (@lexico K _) (key x) (key y)) as [Hlt|[Heq|Hgt]]; [| |done].
  - apply Hyz. by etrans.
  - apply Hyz. by rewrite <- Heq.
Qed.

Lemma not_lexico_antisymm : (∀ x y, key x = key y → x = y) → AntiSymm (=) R.
Proof.
  intros Hinj x y Hxy Hyx. unfold R in *. apply Hinj.
  by destruct (trichotomy (@lexico K _) (key x) (key y)) as [?|[?|?]].
Qed.
End NotLexico.

Global Instance name_le_total : Total Processor.name_le.
Proof. apply (not_lexico_total (λ n : pystr, n)). Qed.
Global Instance name_le_trans : Transitive Processor.name_le.
Proof. apply (not_lexico_trans (λ n : pystr, n)). Qed.
Global Instance name_le_antisymm : AntiSymm (=) Processor.name_le.
Proof. by apply (not_lexico_antisymm (λ n : pystr, n)). Qed.

(** ** Ranking of the frequency maps *)

Section Ranking.
Import Analyzer.

Lemma sort_key_inj x y : sort_key x = sort_key y → x = y.
Proof.
  destruct x as [a n], y as [b m]. unfold sort_key. simpl.
  intros [= Hn Ha]. f_equal; [done | lia].
Qed.

(** The order that [sort] is given is the ranking rule. *)
Lemma rank_le_precedes x y : rank_le x y ↔ precedes x y.
Proof.
  unfold rank_le, precedes, sort_key, str_lt.
  destruct x as [a n], y as [b m]. simpl.
  unfold lexico at 1, prod_lexico. simpl.
  unfold lexico at 1, Z_lexico.
  destruct (trichotomy (@lexico pystr _) a b) as [Hab|[->|Hba]].
  - split.
    + intros Hno. destruct (decide (m < n)); [by left|]. right.
      split; [|by right]. destruct (decide (n = m)); [done|].
      exfalso. apply Hno. left. lia.
    + intros [Hlt|[-> _]] [Hlt'|[Heq Hlex]]; try lia.
      by apply (irreflexivity (@lexico pystr _) a); etrans.
  - split.
    + intros Hno. destruct (decide (m < n)); [by left|]. right.
      split; [|by left]. destruct (decide (n = m)); [done|].
      exfalso. apply Hno. left. lia.
    + intros [Hlt|[-> _]] [Hlt'|[Heq Hlex]]; try lia.
      by apply (irreflexivity (@lexico pystr _) b).
  - split.
    + intros Hno. destruct (decide (m < n)); [by left|]. exfalso. apply Hno.
      destruct (decide (n = m)) as [->|]; [by right | left; lia].
    + intros [Hlt|[-> [->|Hab]]] [Hlt'|[Heq Hlex]]; try lia.
      * by apply (irreflexivity (@lexico pystr _) b).
      * by apply (irreflexivity (@lexico pystr _) a); etrans.
Qed.

Global Instance rank_le_total : Total rank_le.
Proof. apply (not_lexico_total sort_key). Qed.

Global Instance rank_le_trans : Transitive rank_le.
Proof. apply (not_lexico_trans sort_key). Qed.

Global Instance rank_le_antisymm : AntiSymm (=) rank_le.
Proof. apply (not_lexico_antisymm sort_key), sort_key_inj. Qed.

Lemma StronglySorted_iff {A} (R1 R2 : relation A) (l : list A) :
  (∀ x y, R1 x y ↔ R2 x y) → StronglySorted R1 l → StronglySorted R2 l.
Proof.
  intros HR. induction 1 as [|x l _ IH Hx]; constructor; [done|].
  eapply Forall_impl; [done|]. intros y. apply HR.
Qed.

(** [sorted_items] yields the ranking, and there is only one. *)
Lemma sorted_items_is_ranking freq : is_ranking freq (sorted_items freq).
Proof.
  split; [apply merge_sort_Permutation|].
  apply (StronglySorted_iff rank_le); [apply rank_le_precedes|].
  apply StronglySorted_merge_sort; apply _.
Qed.

Lemma ranking_unique freq l : is_ranking freq l → l = sorted_items freq.
Proof.
  intros [Hperm Hsorted].
  apply (StronglySorted_unique rank_le).
  - apply (StronglySorted_iff precedes); [|done].
    intros x y. symmetry. apply rank_le_precedes.
  - apply StronglySorted_merge_sort; apply _.
  - rewrite Hperm. symmetry. apply merge_sort_Permutation.
Qed.
End Ranking.

(** ** The counts of the analyzer *)

Section Counting.
Import Analyzer.

Lemma count_of_increment d key k :
  count_of (increment_count d key) k
  = count_of d k + (if decide (key = k) then 1 else 0).
Proof.
  induction d as [|[k' v] d IH]; simpl.
  - repeat case_decide; congruence || lia.
  - destruct (decide (k' = key)) as [->|Hne]; simpl.
    + repeat case_decide; congruence || lia.
    + destruct (decide (k' = k)) as [->|]; [|done].
      rewrite decide_False by done. lia.
Qed.

Lemma keys_increment d key :
  (increment_count d key).*1 = if decide (key ∈ d.*1) then d.*1 else d.*1 ++ [key].
Proof.
  induction d as [|[k' v] d IH]; [done|]. cbn [increment_count fmap list_fmap fst].
  destruct (decide (k' = key)) as [->|Hne]; cbn [fmap list_fmap fst].
  - clear IH. rewrite decide_True; [done | left].
  - rewrite IH. destruct (decide (key ∈ d.*1)) as [Hin|Hnin].
    + rewrite decide_True; [done | by right].
    + rewrite decide_False; [done|]. rewrite elem_of_cons. naive_solver.
Qed.

Lemma NoDup_increment d key : NoDup d.*1 → NoDup (increment_count d key).*1.
Proof.
  intros Hnd. rewrite keys_increment. case_decide; [done|].
  apply NoDup_app. split_and!; [done | | apply NoDup_singleton].
  intros x Hx Hx'. apply list_elem_of_singleton in Hx'. by subst.
Qed.

Lemma count_of_count_all keys : ∀ d k,
  count_of (count_all d keys) k = count_of d k + occurrences k keys.
Proof.
  unfold count_all, occurrences.
  induction keys as [|key keys IH]; intros d k; simpl; [lia|].
  rewrite IH, count_of_increment.
  destruct (decide (key = k)) as [->|Hne].
  - rewrite filter_cons_True by done. simpl. lia.
  - rewrite filter_cons_False by done. lia.
Qed.

Lemma NoDup_count_all keys : ∀ d, NoDup d.*1 → NoDup (count_all d keys).*1.
Proof.
  unfold count_all. induction keys as [|key keys IH]; intros d Hd; simpl; [done|].
  by apply IH, NoDup_increment.
Qed.

Lemma positive_increment d key :
  Forall (λ p, 0 < p.2) d → Forall (λ p, 0 < p.2) (increment_count d key).
Proof.
  induction 1 as [|[k v] d Hv Hd IH]; simpl.
  - repeat constructor.
  - case_decide; constructor; simpl in *; done || lia.
Qed.

Lemma positive_count_all keys : ∀ d,
  Forall (λ p, 0 < p.2) d → Forall (λ p, 0 < p.2) (count_all d keys).
Proof.
  unfold count_all. induction keys as [|key keys IH]; intros d Hd; simpl; [done|].
  by apply IH, positive_increment.
Qed.

Lemma count_of_elem d k c : NoDup d.*1 → (k, c) ∈ d → count_of d k = c.
Proof.
  induction d as [|[k' v] d IH]; simpl; intros Hnd Hin.
  - by apply elem_of_nil in Hin.
  - apply NoDup_cons in Hnd as [Hk' Hnd].
    apply elem_of_cons in Hin as [[= <- <-]|Hin].
    + by rewrite decide_True.
    + rewrite decide_False; [by apply IH|].
      intros ->. apply Hk'. apply list_elem_of_fmap. by exists (k, c).
Qed.

Lemma occurrences_app k l1 l2 :
  occurrences k (l1 ++ l2) = occurrences k l1 + occurrences k l2.
Proof. unfold occurrences. by rewrite filter_app, length_app. Qed.

Lemma corpus_words_snoc ds d :
  corpus_words (ds ++ [d]) = corpus_words ds ++ d_words d.
Proof.
  unfold corpus_words. rewrite fmap_app, concat_app. simpl. by rewrite app_nil_r.
Qed.

Lemma consistent_initial : consistent initial.
Proof.
  unfold consistent. simpl. split_and!; [done | done | constructor | constructor | done].
Qed.

Lemma consistent_add_document st fname text :
  consistent st → consistent (add_document st fname text).
Proof.
  intros (Hall & Htot & Hnd & Hpos & Hcount). unfold consistent, add_document. simpl.
  rewrite corpus_words_snoc. simpl. split_and!.
  - by rewrite Hall.
  - rewrite length_app. lia.
  - by apply NoDup_count_all.
  - by apply positive_count_all.
  - intros k. by rewrite count_of_count_all, Hcount, occurrences_app.
Qed.

(** The loop over the files adds the documents of their [corpus]. *)
Lemma read_loop_docs (w : world) files : ∀ st st',
  read_loop w files st = Some st' →
  docs st' = docs st ++ corpus w files ∧ (consistent st → consistent st').
Proof.
  unfold corpus.
  induction files as [|f files IH]; intros st st' Hrun; simpl in *.
  - injection Hrun as <-. by rewrite app_nil_r.
  - destruct (read_json w _) as [msg| |[[text|]|]]; simpl in *.
    + by apply IH.
    + by apply IH.
    + apply IH in Hrun as [Hd Hc]. split.
      * rewrite Hd. simpl. by rewrite <- app_assoc.
      * intros Hst. by apply Hc, consistent_add_document.
    + done.
    + apply IH in Hrun as [Hd Hc]. split.
      * rewrite Hd. simpl. by rewrite <- app_assoc.
      * intros Hst. by apply Hc, consistent_add_document.
Qed.
End Counting.

(** ** The report of the analyzer *)

Section Report.
Import Analyzer.

Lemma main_run (w : world) names code r :
  processed_dir w = Some names → main w = Some (code, r) →
  ∃ st, read_loop w (listed_files names) initial = Some st
        ∧ code = 0%Z ∧ r = report_of st
        ∧ docs st = corpus w (listed_files names) ∧ consistent st.
Proof.
  intros Hdir Hmain. unfold main in Hmain. rewrite Hdir in Hmain.
  destruct (read_loop w (listed_files names) initial) as [st|] eqn:Hrun; [|done].
  simpl in Hmain. injection Hmain as <- <-.
  destruct (read_loop_docs w _ _ _ Hrun) as [Hdocs Hcons].
  exists st. split_and!; [done | done | done | done | apply Hcons, consistent_initial].
Qed.

Lemma elem_of_take_sorted freq n x :
  x ∈ take n (sorted_items freq) → x ∈ freq.
Proof.
  intros Hx. apply elem_of_take in Hx as (i & Hi & _).
  apply list_elem_of_lookup_2 in Hi.
  unfold sorted_items in Hi. by rewrite merge_sort_Permutation in Hi.
Qed.
End Report.

(** C6.  Each of the three ranked lists of a report is the head (100 words,
    50 bigrams, 50 trigrams) of the ranking of the frequency map that the
    run has built, where the ranking is the one arrangement of the map's
    entries that puts higher counts first and, among equal counts, smaller
    terms first; any way of enumerating or sorting the map gives the same
    list. *)
Theorem ranked_output_is_deterministic
    (w : Analyzer.world) (names : list pystr) (code : Z) (r : Analyzer.report) :
  Analyzer.processed_dir w = Some names →
  Analyzer.main w = Some (code, r) →
  ∃ st, Analyzer.read_loop w (Analyzer.listed_files names) Analyzer.initial = Some st
    ∧ (∀ freq, is_ranking freq (Analyzer.sorted_items freq)
               ∧ ∀ l, is_ranking freq l → l = Analyzer.sorted_items freq)
    ∧ Analyzer.top_100_words r =
        Analyzer.word_entry_of (Analyzer.total_words_ st)
          <$> take 100 (Analyzer.sorted_items (Analyzer.global_freq st))
    ∧ Analyzer.top_bigrams r =
        Analyzer.ngram_entry_of
          <$> take 50 (Analyzer.sorted_items (Analyzer.bigram_freq st))
    ∧ Analyzer.top_trigrams r =
        Analyzer.ngram_entry_of
          <$> take 50 (Analyzer.sorted_items (Analyzer.trigram_freq st)).
Proof.
  intros Hdir Hmain.
  destruct (main_run w names code r Hdir Hmain) as (st & Hrun & -> & -> & _).
  exists st. split_and!; try reflexivity; [done|].
  intros freq. split; [apply sorted_items_is_ranking | apply ranking_unique].
Qed.

Lemma ranked_output_is_deterministic_witness :
  ∃ st, Analyzer.read_loop Examples.two_documents
          (Analyzer.listed_files [py "b.json"; py "a.json"]) Analyzer.initial = Some st
    ∧ (∀ freq, is_ranking freq (Analyzer.sorted_items freq)
               ∧ ∀ l, is_ranking freq l → l = Analyzer.sorted_items freq)
    ∧ Analyzer.top_100_words (Analyzer.report_of Examples.two_documents_state) =
        Analyzer.word_entry_of (Analyzer.total_words_ st)
          <$> take 100 (Analyzer.sorted_items (Analyzer.global_freq st))
    ∧ Analyzer.top_bigrams (Analyzer.report_of Examples.two_documents_state) =
        Analyzer.ngram_entry_of
          <$> take 50 (Analyzer.sorted_items (Analyzer.bigram_freq st))
    ∧ Analyzer.top_trigrams (Analyzer.report_of Examples.two_documents_state) =
        Analyzer.ngram_entry_of
          <$> take 50 (Analyzer.sorted_items (Analyzer.trigram_freq st)).
Proof.
  apply (ranked_output_is_deterministic Examples.two_documents
           [py "b.json"; py "a.json"] 0%Z
           (Analyzer.report_of Examples.two_documents_state)).
  - reflexivity.
  - vm_compute. reflexivity.
Defined.

(** C1, as the code has it.  Each entry of the top-100 list carries the
    word, the number of its occurrences among the tokens of all the documents
    of the run, and its relative frequency: that count divided by the total
    number of tokens.  No document frequency is recorded. *)
Theorem top_words_record_count_and_relative_frequency
    (w : Analyzer.world) (names : list pystr) (code : Z) (r : Analyzer.report) :
  Analyzer.processed_dir w = Some names →
  Analyzer.main w = Some (code, r) →
  let words := corpus_words (corpus w (Analyzer.listed_files names)) in
  Analyzer.total_words r = length words
  ∧ ∀ e, e ∈ Analyzer.top_100_words r →
      Analyzer.count e = occurrences (Analyzer.word e) words
      ∧ 0 < Analyzer.count e
      ∧ 0 < Analyzer.total_words r
      ∧ Analyzer.frequency e
        = (Z.of_nat (Analyzer.count e) # Pos.of_nat (Analyzer.total_words r))%Q.
Proof.
  intros Hdir Hmain words.
  destruct (main_run w names code r Hdir Hmain)
    as (st & Hrun & -> & -> & Hdocs & Hall & Htot & Hnd & Hpos & Hcount).
  subst words. rewrite <- Hdocs. simpl. split; [done|].
  intros e He. apply list_elem_of_fmap in He as ([k c] & -> & Hin).
  apply elem_of_take_sorted in Hin. simpl.
  assert (0 < c) as Hc by (by rewrite Forall_forall in Hpos; apply (Hpos (k, c))).
  assert (c = occurrences k (corpus_words (Analyzer.docs st))) as Hocc.
  { rewrite <- Hcount. symmetry. by apply count_of_elem. }
  assert (0 < Analyzer.total_words_ st) as Htotal.
  { rewrite Htot. unfold occurrences in Hocc.
    pose proof (length_filter (λ v, v = k) (corpus_words (Analyzer.docs st))). lia. }
  split_and!; [done | done | done |].
  apply Nat.ltb_lt in Htotal. by rewrite Htotal.
Qed.

Lemma top_words_record_count_and_relative_frequency_witness :
  let words := corpus_words (corpus Examples.two_documents
                               (Analyzer.listed_files [py "b.json"; py "a.json"])) in
  Analyzer.total_words (Analyzer.report_of Examples.two_documents_state) = length words
  ∧ ∀ e, e ∈ Analyzer.top_100_words (Analyzer.report_of Examples.two_documents_state) →
      Analyzer.count e = occurrences (Analyzer.word e) words
      ∧ 0 < Analyzer.count e
      ∧ 0 < Analyzer.total_words (Analyzer.report_of Examples.two_documents_state)
      ∧ Analyzer.frequency e
        = (Z.of_nat (Analyzer.count e)
           # Pos.of_nat (Analyzer.total_words
                           (Analyzer.report_of Examples.two_documents_state)))%Q.
Proof.
  apply (top_words_record_count_and_relative_frequency Examples.two_documents
           [py "b.json"; py "a.json"] 0%Z
           (Analyzer.report_of Examples.two_documents_state)).
  - reflexivity.
  - vm_compute. reflexivity.
Defined.

(** C1, as the claim has it, fails: in the run over the two documents
    "a a b" and "a" the word "a" occurs in 2 documents, and its entry is
    (word "a", count 3, frequency 3/4); neither number is 2. *)
Lemma top_words_hold_no_document_frequency :
  ∃ r e, Analyzer.main Examples.two_documents = Some (0%Z, r)
    ∧ Analyzer.top_100_words r !! 0 = Some e
    ∧ e = {| Analyzer.word := py "a"; Analyzer.count := 3;
             Analyzer.frequency := (3 # 4)%Q |}
    ∧ document_frequency (py "a")
        (corpus Examples.two_documents
           (Analyzer.listed_files [py "b.json"; py "a.json"])) = 2
    ∧ Analyzer.count e ≠ 2
    ∧ ¬ (Analyzer.frequency e == 2)%Q.
Proof.
  eexists _, _. split_and!.
  - vm_compute. reflexivity.
  - reflexivity.
  - reflexivity.
  - vm_compute. reflexivity.
  - simpl. lia.
  - simpl. unfold Qeq. simpl. lia.
Qed.

(** ** Files that the analyzer cannot load *)

Section Skipping.
Import Analyzer.

Lemma StronglySorted_filter {A} (R : relation A) (P : A → Prop)
    `{∀ x, Decision (P x)} (l : list A) :
  StronglySorted R l → StronglySorted R (filter P l).
Proof.
  induction 1 as [|x l _ IH Hx]; [constructor|].
  rewrite filter_cons. case_decide; [|done].
  constructor; [done|].
  apply Forall_forall. intros y Hy. apply list_elem_of_filter in Hy as [_ Hy].
  rewrite Forall_forall in Hx. by apply Hx.
Qed.

(** Listing a directory without [f] gives the listing without [f]. *)
Lemma listed_files_without names f :
  listed_files (filter (λ n, n ≠ f) names) = filter (λ n, n ≠ f) (listed_files names).
Proof.
  unfold listed_files. apply (StronglySorted_unique Processor.name_le).
  - apply StronglySorted_merge_sort; apply _.
  - apply StronglySorted_filter, StronglySorted_merge_sort; apply _.
  - rewrite !merge_sort_Permutation, !list_filter_filter.
    assert (filter (λ x, is_json x ∧ x ≠ f) names
            = filter (λ x, (x ≠ f) ∧ is_json x) names) as ->; [|done].
    apply list_filter_iff. tauto.
Qed.

(** The loop looks at the world through [read_json] only. *)
Lemma read_loop_ext (w1 w2 : world) files :
  read_json w1 = read_json w2 →
  ∀ st, read_loop w1 files st = read_loop w2 files st.
Proof.
  intros Heq. induction files as [|n files IH]; intros st; [done|].
  simpl. rewrite Heq. destruct (read_json w2 _) as [| |[[|]|]]; by rewrite ?IH.
Qed.

Variable w : world.
Variable f : pystr.
Variable msg : pystr.
Hypothesis Hbroken : read_json w (os_path_join PROCESSED_DIR f) = Unreadable msg.

Lemma read_loop_without files : ∀ st,
  read_loop w (filter (λ n, n ≠ f) files) st = read_loop w files st.
Proof.
  induction files as [|n files IH]; intros st; [done|].
  rewrite filter_cons. destruct (decide (n ≠ f)) as [Hn|Hn].
  - simpl. destruct (read_json w (os_path_join PROCESSED_DIR n)) as [| |[[|]|]];
      by rewrite ?IH.
  - apply dec_stable in Hn as ->. simpl. by rewrite Hbroken.
Qed.

Lemma corpus_without files : f ∉ (d_file <$> corpus w files).
Proof.
  unfold corpus. intros Hin. apply list_elem_of_fmap in Hin as (d & -> & Hd).
  apply list_elem_of_omap in Hd as (n & _ & Hn).
  destruct (tokens_of (read_json w (os_path_join PROCESSED_DIR n))) as [ws|] eqn:Htok;
    [|done].
  simpl in Hn. injection Hn as <-. simpl in *. by rewrite Hbroken in Htok.
Qed.

Lemma sim_pairs_names (ds : list doc) p :
  p ∈ sim_pairs ds → doc1 p ∈ (d_file <$> ds) ∧ doc2 p ∈ (d_file <$> ds).
Proof.
  induction ds as [|d ds IH]; simpl; intros Hp.
  - by apply elem_of_nil in Hp.
  - apply elem_of_app in Hp as [Hp|Hp].
    + apply list_elem_of_fmap in Hp as (d' & -> & Hd'). simpl. split; [left|right].
      apply list_elem_of_fmap. by exists d'.
    + apply IH in Hp as [H1 H2]. split; by right.
Qed.
End Skipping.

(** C10.  A listed file that cannot be opened or parsed is passed over: the
    run ends as it would without the file in the directory, same exit code
    and same report; whenever there is a report, it has no error field, the
    documents it counts are the listed files that were loaded, the file is
    not one of them, and no similarity pair names it. *)
Theorem unreadable_document_is_skipped
    (w : Analyzer.world) (names : list pystr) (f msg : pystr) :
  Analyzer.processed_dir w = Some names →
  Analyzer.read_json w (os_path_join Analyzer.PROCESSED_DIR f) = Analyzer.Unreadable msg →
  Analyzer.main w =
    Analyzer.main {| Analyzer.processed_dir := Some (filter (λ n, n ≠ f) names);
                     Analyzer.read_json := Analyzer.read_json w |}
  ∧ ∀ code r, Analyzer.main w = Some (code, r) →
      Analyzer.error r = None
      ∧ Analyzer.documents_processed r
        = length (corpus w (Analyzer.listed_files names))
      ∧ (f ∉ (Analyzer.d_file <$> corpus w (Analyzer.listed_files names)))
      ∧ ∀ p, p ∈ Analyzer.document_similarity r →
             Analyzer.doc1 p ≠ f ∧ Analyzer.doc2 p ≠ f.
Proof.
  intros Hdir Hbroken. split.
  - unfold Analyzer.main. rewrite Hdir. simpl.
    rewrite listed_files_without.
    rewrite (read_loop_ext
               {| Analyzer.processed_dir := Some (filter (λ n, n ≠ f) names);
                  Analyzer.read_json := Analyzer.read_json w |} w) by done.
    by rewrite (read_loop_without w f msg Hbroken).
  - intros code r Hmain.
    destruct (main_run w names code r Hdir Hmain) as (st & Hrun & -> & -> & Hdocs & _).
    pose proof (corpus_without w f msg Hbroken (Analyzer.listed_files names)) as Hnot.
    simpl. split_and!; [done | by rewrite Hdocs | done |].
    intros p Hp. apply sim_pairs_names in Hp as [H1 H2]. rewrite Hdocs in H1, H2.
    split; intros <-; by apply Hnot.
Qed.

Lemma unreadable_document_is_skipped_witness :
  let w := Examples.with_broken_file in
  let names := [py "b.json"; py "broken.json"; py "a.json"] in
  let f := py "broken.json" in
  Analyzer.main w =
    Analyzer.main {| Analyzer.processed_dir := Some (filter (λ n, n ≠ f) names);
                     Analyzer.read_json := Analyzer.read_json w |}
  ∧ ∀ code r, Analyzer.main w = Some (code, r) →
      Analyzer.error r = None
      ∧ Analyzer.documents_processed r
        = length (corpus w (Analyzer.listed_files names))
      ∧ (f ∉ (Analyzer.d_file <$> corpus w (Analyzer.listed_files names)))
      ∧ ∀ p, p ∈ Analyzer.document_similarity r →
             Analyzer.doc1 p ≠ f ∧ Analyzer.doc2 p ≠ f.
Proof.
  apply (unreadable_document_is_skipped Examples.with_broken_file
           [py "b.json"; py "broken.json"; py "a.json"] (py "broken.json")
           (py "Expecting value: line 1 column 1 (char 0)")).
  - reflexivity.
  - vm_compute. reflexivity.
Defined.

(** ** The URL list and the raw files of the fetcher *)

Section FetcherFiles.
Import Fetcher.

Lemma py_inj a b : py a = py b → a = b.
Proof.
  unfold py. intros H.
  rewrite <- (string_of_list_ascii_of_string a), <- (string_of_list_ascii_of_string b).
  f_equal. revert H. generalize (list_ascii_of_string a) (list_ascii_of_string b).
  intros l1. induction l1 as [|x l1 IH]; intros [|y l2]; simpl; try done.
  intros [= Hxy Hl]. f_equal; [|by apply IH].
  rewrite <- (ascii_N_embedding x), <- (ascii_N_embedding y). by rewrite Hxy.
Qed.

Lemma str_of_nat_inj n m : str_of_nat n = str_of_nat m → n = m.
Proof.
  unfold str_of_nat. intros H. apply py_inj in H.
  apply DecimalNat.Unsigned.to_uint_inj.
  assert (Some (Nat.to_uint n) = Some (Nat.to_uint m)) as [= ->]; [|done].
  by rewrite <- !NilEmpty.usu, H.
Qed.

Lemma page_name_inj i j : page_name i = page_name j → i = j.
Proof.
  unfold page_name. intros H. apply app_inv_head in H. apply app_inv_tail in H.
  apply str_of_nat_inj in H. lia.
Qed.

Lemma read_urls_filter lines :
  read_urls lines = filter (λ u, u ≠ []) (strip <$> lines).
Proof.
  induction lines as [|l lines IH]; [done|]. simpl.
  rewrite filter_cons. destruct (strip l) eqn:Hl.
  - by rewrite decide_False by (intros H; by apply H).
  - rewrite decide_True by done. by rewrite IH.
Qed.

Lemma record_agrees_mono written written' i r :
  written ⊆ written' → record_agrees written i r → record_agrees written' i r.
Proof.
  intros Hsub [(? & ? & ? & content & ? & Hin)|?]; [left|by right].
  split_and!; [done..|]. exists content. split; [done|]. by apply Hsub.
Qed.

Variable w : world.

Lemma fetch_one_fetched index u st :
  fetched index st → fetched (index + 1) (fetch_one w index u st).
Proof.
  intros (Hlen & Hcount & Hnd & Hnames & Hrec). unfold fetch_one.
  fold (page_name index).
  assert (∀ e, fetched (index + 1) (record_failure st u e)) as Hfail.
  { intros e. unfold fetched, record_failure.
    cbn [st_results success_count fail_count raw_written]. split_and!.
    - rewrite length_app. simpl. lia.
    - done.
    - done.
    - intros p Hp. destruct (Hnames p Hp) as (j & r & Hj & -> & Hr & Hs).
      exists j, r. split_and!; [lia | done | | done]. by apply lookup_app_l_Some.
    - intros i r Hi. apply lookup_app_Some in Hi as [Hi|[Hge Hi]]; [by apply Hrec|].
      apply list_lookup_singleton_Some in Hi as [Hi <-]. right. by split_and!. }
  destruct (urlopen_read w index u) as [e|content]; [apply Hfail|].
  destruct (write_bytes w _ content) as [e|]; [apply Hfail|].
  unfold fetched. cbn [st_results success_count fail_count raw_written]. split_and!.
  - rewrite length_app. simpl. lia.
  - rewrite length_app. simpl. lia.
  - rewrite fmap_app. cbn [fmap list_fmap fst]. apply NoDup_app. split_and!; [done| |apply NoDup_singleton].
    intros p Hp Hp'. apply list_elem_of_singleton in Hp' as ->.
    destruct (Hnames _ Hp) as (j & r & Hj & Heq & _). apply app_inv_head in Heq.
    apply page_name_inj in Heq. lia.
  - intros p Hp. rewrite fmap_app in Hp. apply elem_of_app in Hp as [Hp|Hp].
    + destruct (Hnames p Hp) as (j & r & Hj & -> & Hr & Hs).
      exists j, r. split_and!; [lia | done | | done]. by apply lookup_app_l_Some.
    + apply list_elem_of_singleton in Hp as ->. eexists index, _.
      split_and!; [lia | done | |].
      * rewrite lookup_app_r by lia. by rewrite Hlen, Nat.sub_diag.
      * done.
  - intros i r Hi. apply lookup_app_Some in Hi as [Hi|[Hge Hi]].
    + eapply record_agrees_mono; [|by apply Hrec]. intros x Hx. apply elem_of_app. by left.
    + apply list_lookup_singleton_Some in Hi as [Hi <-].
      assert (i = index) as -> by lia. left. split_and!; [done..|].
      exists content. split; [done|]. apply elem_of_app. right. by left.
Qed.

Lemma fetch_loop_fetched urls : ∀ index st,
  fetched index st → fetched (index + length urls) (fetch_loop w urls index st).
Proof.
  induction urls as [|u urls IH]; intros index st Hst; simpl.
  - by rewrite Nat.add_0_r.
  - replace (index + S (length urls)) with (index + 1 + length urls) by lia.
    by apply IH, fetch_one_fetched.
Qed.
End FetcherFiles.

(** The list of URLs is the list of the stripped lines that are not empty,
    in the order of the file and with its repetitions; every URL is free of
    whitespace at both ends, and reading the list again as a file of lines
    gives the same list. *)
Theorem read_urls_keeps_stripped_nonblank_lines (lines : list pystr) :
  Fetcher.read_urls lines = filter (λ u, u ≠ []) (strip <$> lines)
  ∧ Forall (λ u, u ≠ [] ∧ strip u = u) (Fetcher.read_urls lines)
  ∧ Fetcher.read_urls (Fetcher.read_urls lines) = Fetcher.read_urls lines.
Proof.
  assert (Forall (λ u, u ≠ [] ∧ strip u = u) (Fetcher.read_urls lines)) as Hall.
  { rewrite read_urls_filter. apply Forall_forall. intros u Hu.
    apply list_elem_of_filter in Hu as [Hne Hu].
    apply list_elem_of_fmap in Hu as (l & -> & _). split; [done|apply strip_idemp]. }
  split_and!; [apply read_urls_filter | done |].
  induction Hall as [|u urls [Hne Hu] _ IH]; [done|].
  simpl. rewrite Hu. destruct u; [done|]. by rewrite IH.
Qed.

(** The records of the fetch manifest and the raw files agree.  The number
    of files written is the number of successes; no file is written twice;
    the record at position [i] is either a success that names
    [page_<i+1>.html], written with a body of the recorded size, or a failure
    with an error and no file; and every file written is that of a success
    record. *)
Theorem fetch_records_agree_with_files (w : Fetcher.world) :
  let m := (Fetcher.main w).1 in
  let written := (Fetcher.main w).2 in
  Fetcher.successful m = length written
  ∧ NoDup written.*1
  ∧ (∀ i r, Fetcher.results m !! i = Some r → record_agrees written i r)
  ∧ ∀ p, p ∈ written.*1 →
      ∃ i r, Fetcher.results m !! i = Some r
             ∧ Fetcher.status r = py "success"
             ∧ p = py "/shared/raw/" ++ page_name i.
Proof.
  intros m written. subst m written. unfold Fetcher.main. simpl.
  set (urls := Fetcher.read_urls (Fetcher.lines w)).
  destruct (fetch_loop_fetched w urls 0
              {| Fetcher.st_results := []; Fetcher.success_count := 0;
                 Fetcher.fail_count := 0; Fetcher.raw_written := [] |})
    as (Hlen & Hcount & Hnd & Hnames & Hrec).
  { unfold fetched. simpl. split_and!; [done | done | constructor | |].
    - intros p Hp. by apply elem_of_nil in Hp.
    - intros i r Hi. by rewrite lookup_nil in Hi. }
  split_and!; [done | done | done |].
  intros p Hp. destruct (Hnames p Hp) as (j & r & Hj & -> & Hr & Hs).
  by exists j, r.
Qed.

(** ** Characters of Latin-1 *)

Section Latin1.

(** What holds of every code point up to U+00FF can be checked on each. *)
Lemma latin_1_check (P : N → bool) :
  forallb P (N.of_nat <$> seq 0 256) = true → ∀ c, (c ≤ 255)%N → P c = true.
Proof.
  intros Hall c Hc. rewrite forallb_forall in Hall. apply Hall.
  apply list_elem_of_In, list_elem_of_fmap. exists (N.to_nat c).
  split; [by rewrite N2Nat.id | apply elem_of_seq; lia].
Qed.

(** Whitespace and sentence punctuation are no word characters, and their
    lowercase form is themselves. *)
Lemma separator_latin_1 c :
  (c ≤ 255)%N → isspace c = true ∨ is_sentence_end c = true →
  lower_cp c = [c] ∧ is_word c = false.
Proof.
  intros Hc Hsep.
  assert (forallb
    (λ c, implb (isspace c || is_sentence_end c)
                (match lower_cp c with [d] => (d =? c)%N | _ => false end
                 && negb (is_word c)))
    (N.of_nat <$> seq 0 256) = true) as Hall by (vm_compute; reflexivity).
  pose proof (latin_1_check _ Hall c Hc) as Hcheck. clear Hall. cbv beta in Hcheck.
  assert (isspace c || is_sentence_end c = true) as Hor.
  { apply orb_true_iff. done. }
  rewrite Hor in Hcheck. cbn [implb] in Hcheck.
  apply andb_true_iff in Hcheck as [H1 H2]. apply negb_true_iff in H2.
  destruct (lower_cp c) as [|d [|? ?]]; [done| |done].
  apply N.eqb_eq in H1 as ->. done.
Qed.

(** The lowercase form of a character is one character of Latin-1, a word
    character when the character is one, and its own lowercase form. *)
Lemma lower_latin_1 c :
  (c ≤ 255)%N →
  ∃ d, lower_cp c = [d] ∧ (d ≤ 255)%N ∧ is_word d = is_word c ∧ lower_cp d = [d].
Proof.
  intros Hc.
  assert (forallb
    (λ c, match lower_cp c with
          | [d] => (d <=? 255)%N && Bool.eqb (is_word d) (is_word c)
                   && match lower_cp d with [e] => (e =? d)%N | _ => false end
          | _ => false
          end)
    (N.of_nat <$> seq 0 256) = true) as Hall by (vm_compute; reflexivity).
  pose proof (latin_1_check _ Hall c Hc) as Hcheck. clear Hall. cbv beta in Hcheck.
  destruct (lower_cp c) as [|d [|? ?]]; [done| |done].
  apply andb_true_iff in Hcheck as [Hcheck H3].
  apply andb_true_iff in Hcheck as [H1 H2].
  apply N.leb_le in H1. apply Bool.eqb_prop in H2.
  destruct (lower_cp d) as [|e [|? ?]] eqn:Hd; [done| |done].
  apply N.eqb_eq in H3 as ->. by exists d.
Qed.

Lemma word_latin_1 c :
  (c ≤ 255)%N → is_word c = true → isspace c = false ∧ is_sentence_end c = false.
Proof.
  intros Hc Hw. destruct (isspace c) eqn:Hs.
  - destruct (separator_latin_1 c Hc) as [_ H]; [by left | congruence].
  - destruct (is_sentence_end c) eqn:He; [|done].
    destruct (separator_latin_1 c Hc) as [_ H]; [by right | congruence].
Qed.
End Latin1.

(** ** Tokens and n-grams *)

Section Tokens.
Import Analyzer.

Lemma findall_word_proper s : ∀ cur,
  Forall (λ c, is_word c = true) cur →
  Forall proper_word (findall_word cur s).
Proof.
  assert (∀ cur, cur ≠ [] → Forall (λ c, is_word c = true) cur →
                 proper_word (reverse cur)) as Hflush.
  { intros cur Hne Hcur. split.
    - intros Hrev. apply Hne. apply (f_equal reverse) in Hrev.
      by rewrite reverse_involutive in Hrev.
    - by apply Forall_reverse. }
  induction s as [|c s IH]; intros cur Hcur; simpl.
  - destruct cur as [|d cur]; [constructor|].
    constructor; [by apply Hflush | constructor].
  - destruct (is_word c) eqn:Hc; [by apply IH; constructor|].
    destruct cur as [|d cur]; [by apply IH|].
    constructor; [by apply Hflush | by apply IH].
Qed.

Lemma findall_word_app_word x rest : ∀ cur,
  Forall (λ c, is_word c = true) x →
  findall_word cur (x ++ rest) = findall_word (reverse x ++ cur) rest.
Proof.
  induction x as [|c x IH]; intros cur Hx; [done|].
  apply Forall_cons in Hx as [Hc Hx]. simpl. rewrite Hc, IH by done.
  by rewrite reverse_cons, <- app_assoc.
Qed.

Lemma findall_join_space ws :
  Forall proper_word ws → WORD_RE_findall (join_space ws) = ws.
Proof.
  unfold WORD_RE_findall. induction 1 as [|x ws [Hne Hx] Hws IH]; [done|].
  destruct ws as [|y ws].
  - simpl. rewrite <- (app_nil_r x) at 1. rewrite findall_word_app_word by done.
    simpl. rewrite app_nil_r. destruct (reverse x) eqn:Hr.
    + apply (f_equal reverse) in Hr. by rewrite reverse_involutive in Hr.
    + by rewrite <- Hr, reverse_involutive.
  - change (join_space (x :: y :: ws)) with (x ++ 32%N :: join_space (y :: ws)).
    rewrite findall_word_app_word by done. rewrite app_nil_r.
    change (findall_word (reverse x) (32%N :: join_space (y :: ws)))
      with (match reverse x with
            | [] => findall_word [] (join_space (y :: ws))
            | _ => reverse (reverse x) :: findall_word [] (join_space (y :: ws))
            end).
    rewrite IH. destruct (reverse x) eqn:Hr.
    + apply (f_equal reverse) in Hr. by rewrite reverse_involutive in Hr.
    + by rewrite <- Hr, reverse_involutive.
Qed.

Lemma lower_fixed x : Forall (λ d, lower_cp d = [d]) x → lower x = x.
Proof.
  induction 1 as [|d x Hd _ IH]; [done|].
  change (lower (d :: x)) with (lower_cp d ++ lower x). by rewrite Hd, IH.
Qed.

Lemma elem_of_lower d s : d ∈ lower s → ∃ c, c ∈ s ∧ d ∈ lower_cp c.
Proof.
  induction s as [|c s IH]; [intros H; by apply elem_of_nil in H|].
  change (lower (c :: s)) with (lower_cp c ++ lower s).
  intros Hd. apply elem_of_app in Hd as [Hd|Hd].
  - exists c. split; [left | done].
  - destruct (IH Hd) as (c' & Hc' & Hd'). exists c'. split; [by right | done].
Qed.

(** The lowercase form of a Latin-1 text is a Latin-1 text, and its own
    lowercase form. *)
Lemma lower_within_latin_1 s :
  within_latin_1 s →
  within_latin_1 (lower s) ∧ Forall (λ d, lower_cp d = [d]) (lower s).
Proof.
  unfold within_latin_1.
  induction 1 as [|c s Hc _ [IH1 IH2]]; [split; constructor|].
  change (lower (c :: s)) with (lower_cp c ++ lower s).
  destruct (lower_latin_1 c Hc) as (d & -> & Hd & _ & Hfix).
  split; by constructor.
Qed.

Lemma findall_word_chars s : ∀ cur x c,
  x ∈ findall_word cur s → c ∈ x → c ∈ cur ∨ c ∈ s.
Proof.
  induction s as [|d s IH]; intros cur x c; cbn [findall_word].
  - destruct cur as [|e cur]; [intros H; by apply elem_of_nil in H|].
    intros Hx Hc. apply list_elem_of_singleton in Hx as ->.
    left. by rewrite elem_of_reverse in Hc.
  - destruct (is_word d).
    + intros Hx Hc. destruct (IH _ _ _ Hx Hc) as [Hin|Hin]; [|by right; right].
      apply elem_of_cons in Hin as [->|Hin]; [right; left | by left].
    + destruct cur as [|e cur].
      * intros Hx Hc. destruct (IH _ _ _ Hx Hc) as [Hin|Hin]; [by left | by right; right].
      * intros Hx Hc. apply elem_of_cons in Hx as [->|Hx].
        -- left. by rewrite elem_of_reverse in Hc.
        -- destruct (IH _ _ _ Hx Hc) as [Hin|Hin]; [by apply elem_of_nil in Hin|].
           by right; right.
Qed.

Lemma build_ngrams_length words n : length (build_ngrams words n) = S (length words) - n.
Proof.
  induction words as [|x words IH]; [by destruct n|].
  cbn [build_ngrams]. destruct (Nat.leb_spec n (length (x :: words))) as [Hle|Hgt].
  - simpl. rewrite IH. simpl in Hle. lia.
  - simpl in *. lia.
Qed.

Lemma build_ngrams_lookup words n : ∀ i,
  i + n ≤ length words →
  build_ngrams words n !! i = Some (join_space (take n (drop i words))).
Proof.
  induction words as [|x words IH]; intros i Hi.
  - simpl in Hi. assert (i = 0 ∧ n = 0) as [-> ->] by lia. done.
  - cbn [build_ngrams]. destruct (Nat.leb_spec n (length (x :: words))) as [Hle|Hgt].
    + destruct i as [|i]; [done|]. simpl. apply IH. simpl in Hi. lia.
    + simpl in *. lia.
Qed.
End Tokens.

(** The tokens of a text of Latin-1 characters are non-empty runs of word
    characters; joined by single spaces and tokenised again they come back
    unchanged.  The tokens that the analyzer counts are in lower case, and
    the letter case of the text makes no difference to them. *)
Theorem tokens_are_words_and_round_trip (text : pystr) :
  within_latin_1 text →
  Forall proper_word (WORD_RE_findall text)
  ∧ WORD_RE_findall (join_space (WORD_RE_findall text)) = WORD_RE_findall text
  ∧ Forall (λ x, lower x = x) (Analyzer.tokenize_words_lower text)
  ∧ Analyzer.tokenize_words_lower (lower text) = Analyzer.tokenize_words_lower text.
Proof.
  intros Hlatin.
  assert (Forall proper_word (WORD_RE_findall text)) as Hproper
    by (apply findall_word_proper; constructor).
  destruct (lower_within_latin_1 text Hlatin) as [_ Hfix].
  split_and!; [done | by apply findall_join_space | |].
  - unfold Analyzer.tokenize_words_lower, WORD_RE_findall.
    apply Forall_forall. intros x Hx. apply lower_fixed, Forall_forall. intros c Hc.
    destruct (findall_word_chars _ _ _ _ Hx Hc) as [Hin|Hin]; [by apply elem_of_nil in Hin|].
    rewrite Forall_forall in Hfix. by apply Hfix.
  - unfold Analyzer.tokenize_words_lower. by rewrite (lower_fixed (lower text)).
Qed.

Lemma tokens_are_words_and_round_trip_witness :
  let text := py "Hello, World" in
  Forall proper_word (WORD_RE_findall text)
  ∧ WORD_RE_findall (join_space (WORD_RE_findall text)) = WORD_RE_findall text
  ∧ Forall (λ x, lower x = x) (Analyzer.tokenize_words_lower text)
  ∧ Analyzer.tokenize_words_lower (lower text) = Analyzer.tokenize_words_lower text.
Proof.
  apply (tokens_are_words_and_round_trip (py "Hello, World")).
  refine (bool_decide_unpack _ _). vm_compute. exact I.
Defined.

(** The n-grams of a token list are its windows of [n] consecutive tokens,
    one for each position where [n] tokens are left, each joined by single
    spaces: there are [len + 1 - n] of them (none when the list is shorter
    than [n]).  For the tokens of a text, the n-gram at position [i]
    tokenises back into the [n] tokens from position [i] on. *)
Theorem ngrams_are_the_windows (text : pystr) (n : nat) :
  let words := Analyzer.tokenize_words_lower text in
  length (Analyzer.build_ngrams words n) = S (length words) - n
  ∧ ∀ i, i + n ≤ length words →
      ∃ g, Analyzer.build_ngrams words n !! i = Some g
           ∧ g = join_space (take n (drop i words))
           ∧ WORD_RE_findall g = take n (drop i words)
           ∧ length (WORD_RE_findall g) = n.
Proof.
  intros words. split; [apply build_ngrams_length|].
  intros i Hi. eexists. split; [by apply build_ngrams_lookup|]. split; [done|].
  assert (Forall proper_word words) as Hproper
    by (apply findall_word_proper; constructor).
  split.
  - apply findall_join_space. apply Forall_take, Forall_drop, Hproper.
  - rewrite findall_join_space by apply Forall_take, Forall_drop, Hproper.
    rewrite length_take, length_drop. lia.
Qed.

(** ** Words inside sentences *)

Section SentenceWords.
Import Analyzer.

Lemma findall_word_app_sep a c b : ∀ cur,
  is_word c = false →
  findall_word cur (a ++ c :: b) = findall_word cur a ++ findall_word [] b.
Proof.
  induction a as [|d a IH]; intros cur Hc; simpl.
  - rewrite Hc. by destruct cur.
  - destruct (is_word d); [by apply IH|].
    destruct cur; by rewrite IH.
Qed.

(** A separator between two pieces keeps their tokens apart. *)
Lemma tokens_app_sep a c b :
  (c ≤ 255)%N → isspace c = true ∨ is_sentence_end c = true →
  length (tokenize_words_lower (a ++ c :: b))
  = length (tokenize_words_lower a) + length (tokenize_words_lower b).
Proof.
  intros Hlatin Hc. destruct (separator_latin_1 c Hlatin Hc) as [Hlow Hword].
  unfold tokenize_words_lower, WORD_RE_findall.
  rewrite lower_app. change (lower (c :: b)) with (lower_cp c ++ lower b).
  rewrite Hlow. simpl. by rewrite findall_word_app_sep, length_app.
Qed.

Lemma tokens_cons_sep c b :
  (c ≤ 255)%N → isspace c = true ∨ is_sentence_end c = true →
  length (tokenize_words_lower (c :: b)) = length (tokenize_words_lower b).
Proof. intros Hlatin Hc. apply (tokens_app_sep [] c b Hlatin Hc). Qed.

Lemma tokens_spaces a b :
  within_latin_1 a → Forall (λ c, isspace c = true) a →
  length (tokenize_words_lower (a ++ b)) = length (tokenize_words_lower b).
Proof.
  intros Hlatin Ha. induction Ha as [|c a Hc _ IH]; [done|].
  apply Forall_cons in Hlatin as [Hl Hlatin].
  rewrite <- app_comm_cons, tokens_cons_sep by (done || by left). by apply IH.
Qed.

Lemma tokens_spaces_r a b :
  within_latin_1 b → Forall (λ c, isspace c = true) b →
  length (tokenize_words_lower (a ++ b)) = length (tokenize_words_lower a).
Proof.
  intros Hlatin Hb. destruct Hb as [|c b Hc Hb]; [by rewrite app_nil_r|].
  apply Forall_cons in Hlatin as [Hl Hlatin].
  rewrite tokens_app_sep by (done || by left).
  rewrite <- (app_nil_r b), (tokens_spaces b []) by done. simpl. lia.
Qed.

Lemma tokens_strip p :
  within_latin_1 p →
  length (tokenize_words_lower (strip p)) = length (tokenize_words_lower p).
Proof.
  intros Hlatin. unfold strip. destruct (lstrip_spaces p) as (a & Ha & Hsa).
  destruct (rstrip_spaces (lstrip p)) as (b & Hb & Hsb).
  assert (within_latin_1 a ∧ within_latin_1 b) as [Hla Hlb].
  { unfold within_latin_1 in *. rewrite Ha, Hb in Hlatin.
    rewrite !Forall_app in Hlatin. tauto. }
  rewrite Ha at 2. rewrite tokens_spaces by done.
  rewrite Hb at 2. by rewrite tokens_spaces_r.
Qed.

Lemma prepend_part_app pre c parts :
  prepend_part pre (prepend_part [c] parts) = prepend_part (pre ++ [c]) parts.
Proof. destruct parts; simpl; [done|]. f_equal. by rewrite <- app_assoc. Qed.

(** The pieces between the sentence ends hold all the tokens of the text. *)
Lemma tokens_in_split_runs text :
  within_latin_1 text →
  (∀ pre, tokens_in (prepend_part pre (split_runs is_sentence_end false text))
          = length (tokenize_words_lower (pre ++ text)))
  ∧ tokens_in (split_runs is_sentence_end true text)
    = length (tokenize_words_lower text).
Proof.
  induction 1 as [|c text Hl _ [IHf IHt]].
  - split; [intros pre|]; unfold tokens_in; simpl; lia.
  - cbn [split_runs]. destruct (is_sentence_end c) eqn:Hc.
    + split; [|by rewrite tokens_cons_sep by (done || by right)].
      intros pre. rewrite tokens_app_sep by (done || by right). rewrite <- IHt.
      unfold tokens_in. simpl. by rewrite app_nil_r.
    + change (match split_runs is_sentence_end false text with
              | h :: t => (c :: h) :: t
              | [] => [[c]]
              end) with (prepend_part [c] (split_runs is_sentence_end false text)).
      split; [|by apply (IHf [c])].
      intros pre. rewrite prepend_part_app, IHf. by rewrite <- app_assoc.
Qed.

(** The pieces of a Latin-1 text are Latin-1 texts. *)
Lemma split_runs_within_latin_1 is_sep s :
  within_latin_1 s → ∀ b, Forall within_latin_1 (split_runs is_sep b s).
Proof.
  induction 1 as [|c s Hc _ IH]; intros b; cbn [split_runs].
  - by repeat constructor.
  - destruct (is_sep c).
    + destruct b; [apply IH|]. constructor; [constructor | apply IH].
    + specialize (IH false). destruct (split_runs is_sep false s) as [|h t].
      * by repeat constructor.
      * apply Forall_cons in IH as [Hh Ht]. constructor; [by constructor | done].
Qed.

Lemma sentence_words_strip_nonblank parts :
  Forall within_latin_1 parts →
  sentence_words (strip_nonblank parts) = tokens_in parts.
Proof.
  unfold tokens_in. induction 1 as [|p parts Hp _ IH]; [done|]. simpl.
  rewrite <- (tokens_strip p Hp).
  destruct (strip p) as [|d s] eqn:Hs; [by rewrite IH|].
  simpl. by rewrite IH.
Qed.

(** The sentences of a Latin-1 text hold its tokens, each once. *)
Lemma sentence_words_all text :
  within_latin_1 text →
  sentence_words (split_sentences text) = length (tokenize_words_lower text).
Proof.
  intros Hlatin. unfold split_sentences, SENT_SPLIT_RE_split.
  rewrite sentence_words_strip_nonblank by by apply split_runs_within_latin_1.
  destruct (tokens_in_split_runs text Hlatin) as [H _]. specialize (H []).
  by destruct (split_runs is_sentence_end false text).
Qed.
End SentenceWords.

(** ** The frequency maps of a run *)

Section Tallies.
Import Analyzer.

Lemma elem_of_increment_keys d key k :
  k ∈ (increment_count d key).*1 ↔ k ∈ d.*1 ∨ k = key.
Proof.
  rewrite keys_increment. case_decide as Hin.
  - split; [by left|]. by intros [?| ->].
  - rewrite elem_of_app, list_elem_of_singleton. done.
Qed.

Lemma elem_of_count_all_keys keys : ∀ d k,
  k ∈ (count_all d keys).*1 ↔ k ∈ d.*1 ∨ k ∈ keys.
Proof.
  unfold count_all. induction keys as [|key keys IH]; intros d k; simpl.
  - split; [by left|]. intros [?|H]; [done|]. by apply elem_of_nil in H.
  - rewrite IH, elem_of_increment_keys, elem_of_cons. naive_solver.
Qed.

Lemma sum_list_cons (x : nat) l : sum_list (x :: l) = x + sum_list l.
Proof. reflexivity. Qed.

Lemma sum_counts_increment d key :
  sum_counts (increment_count d key) = sum_counts d + 1.
Proof.
  unfold sum_counts. induction d as [|[k v] d IH]; [done|].
  cbn [increment_count]. case_decide; rewrite !fmap_cons, !sum_list_cons; cbn [snd].
  - lia.
  - rewrite IH. lia.
Qed.

Lemma sum_counts_count_all keys : ∀ d,
  sum_counts (count_all d keys) = sum_counts d + length keys.
Proof.
  unfold count_all. induction keys as [|key keys IH]; intros d; simpl; [lia|].
  rewrite IH, sum_counts_increment. lia.
Qed.

Lemma count_of_absent d k : k ∉ d.*1 → count_of d k = 0.
Proof.
  induction d as [|[k' v] d IH]; simpl; [done|].
  intros Hk. apply not_elem_of_cons in Hk as [Hne Hk].
  rewrite decide_False by done. by apply IH.
Qed.

Lemma occurrences_absent k terms : k ∉ terms → occurrences k terms = 0.
Proof.
  unfold occurrences. induction terms as [|x terms IH]; [done|].
  intros Hk. apply not_elem_of_cons in Hk as [Hne Hk].
  rewrite filter_cons_False by done. by apply IH.
Qed.

Lemma tallied_count_of d terms k :
  tallied d terms → count_of d k = occurrences k terms.
Proof.
  intros (Hnd & Hkeys & Hcount).
  destruct (decide (k ∈ d.*1)) as [Hin|Hnot].
  - apply list_elem_of_fmap in Hin as ([k' c] & -> & Hin). simpl.
    rewrite (count_of_elem d k' c Hnd Hin). by apply Hcount.
  - rewrite count_of_absent by done. symmetry. apply occurrences_absent.
    by rewrite <- Hkeys.
Qed.

(** Counting further terms into a tally gives the tally of the longer list. *)
Lemma tallied_count_all d terms keys :
  tallied d terms → tallied (count_all d keys) (terms ++ keys).
Proof.
  intros Ht. pose proof Ht as (Hnd & Hkeys & Hcount). split_and!.
  - by apply NoDup_count_all.
  - intros k. rewrite elem_of_count_all_keys, elem_of_app, Hkeys. done.
  - intros k c Hin.
    rewrite <- (count_of_elem _ k c (NoDup_count_all keys d Hnd) Hin).
    rewrite count_of_count_all, occurrences_app. f_equal. by apply tallied_count_of.
Qed.

Lemma tallied_size d terms :
  tallied d terms → length d = size (list_to_set terms : gset pystr).
Proof.
  intros (Hnd & Hkeys & _).
  rewrite <- (length_fmap fst d), <- (size_list_to_set (C := gset pystr) d.*1) by done.
  f_equal. apply set_eq. intros k. by rewrite !elem_of_list_to_set, Hkeys.
Qed.

Lemma corpus_ngrams_snoc n ds d :
  corpus_ngrams n (ds ++ [d]) = corpus_ngrams n ds ++ build_ngrams (d_words d) n.
Proof.
  unfold corpus_ngrams. rewrite fmap_app, concat_app. simpl. by rewrite app_nil_r.
Qed.

Lemma tallies_initial : tallies initial.
Proof.
  assert (tallied [] []) as Hnil.
  { split_and!; [constructor | done |]. intros k c H. by apply elem_of_nil in H. }
  unfold tallies. simpl. by split_and!.
Qed.

Lemma tallies_add_document st fname text :
  tallies st → tallies (add_document st fname text).
Proof.
  intros (Hw & Hb & Ht & Hsum & Htot & Hall).
  unfold tallies, add_document. simpl.
  rewrite corpus_words_snoc, !corpus_ngrams_snoc. simpl. split_and!.
  - by apply tallied_count_all.
  - by apply tallied_count_all.
  - by apply tallied_count_all.
  - rewrite sum_counts_count_all. lia.
  - rewrite length_app. lia.
  - by rewrite Hall.
Qed.

(** The loop over the files is the fold of [add_document] over the
    documents read. *)
Lemma read_loop_fold (w : world) files : ∀ st st',
  read_loop w files st = Some st' →
  st' = foldl (λ s ft, add_document s ft.1 ft.2) st (documents_read w files).
Proof.
  unfold documents_read.
  induction files as [|f files IH]; intros st st' Hrun; simpl in *.
  - by injection Hrun as <-.
  - destruct (read_json w _) as [msg| |[[text|]|]]; simpl in *; by apply IH.
Qed.

Lemma fold_tallies l : ∀ st,
  tallies st → tallies (foldl (λ s ft, add_document s ft.1 ft.2) st l).
Proof.
  induction l as [|[f t] l IH]; intros st Hst; [done|].
  simpl. by apply IH, tallies_add_document.
Qed.

Lemma fold_sentence_count l : ∀ st,
  total_sentence_count (foldl (λ s ft, add_document s ft.1 ft.2) st l)
  = total_sentence_count st + sum_list ((λ ft, length (split_sentences ft.2)) <$> l).
Proof.
  induction l as [|[f t] l IH]; intros st; [unfold sum_list; simpl; lia|].
  cbn [foldl]. rewrite IH, fmap_cons, sum_list_cons. simpl. lia.
Qed.

Lemma main_tallies (w : world) names code r :
  processed_dir w = Some names → main w = Some (code, r) →
  ∃ st, r = report_of st ∧ tallies st
        ∧ docs st = corpus w (listed_files names)
        ∧ total_sentence_count st
          = sum_list ((λ ft, length (split_sentences ft.2))
                        <$> documents_read w (listed_files names)).
Proof.
  intros Hdir Hmain.
  destruct (main_run w names code r Hdir Hmain) as (st & Hrun & _ & -> & Hdocs & _).
  exists st. pose proof (read_loop_fold w _ _ _ Hrun) as Hfold.
  split_and!; [done | | done |].
  - rewrite Hfold. apply fold_tallies, tallies_initial.
  - rewrite Hfold, fold_sentence_count. done.
Qed.

Lemma sum_list_take_le (l : list nat) n : sum_list (take n l) ≤ sum_list l.
Proof.
  revert n. induction l as [|x l IH]; intros [|n]; cbn [take]; rewrite ?sum_list_cons;
    try (unfold sum_list; simpl; lia).
  specialize (IH n). lia.
Qed.
End Tallies.

(** ** What the report says about the corpus *)

Section Corpus.
Import Analyzer.

(** The head of the ranking of a tally: as many entries as asked for, or all
    of them; distinct terms; each with the number of its occurrences, which
    is not zero. *)
Lemma ranked_tally d terms K :
  tallied d terms →
  let top := take K (sorted_items d) in
  length top = K `min` size (list_to_set terms : gset pystr)
  ∧ NoDup top.*1
  ∧ ∀ k c, (k, c) ∈ top → c = occurrences k terms ∧ 0 < c ∧ k ∈ terms.
Proof.
  intros Ht top. pose proof Ht as (Hnd & Hkeys & Hcount).
  assert (sorted_items d ≡ₚ d) as Hperm by apply merge_sort_Permutation.
  split_and!.
  - subst top. rewrite length_take, Hperm. by rewrite (tallied_size d terms).
  - subst top. rewrite fmap_take.
    apply (sublist_NoDup _ (sorted_items d).*1); [by rewrite Hperm|].
    apply sublist_take.
  - intros k c Hin. apply elem_of_take_sorted in Hin.
    assert (k ∈ terms) as Hk.
    { apply Hkeys. apply list_elem_of_fmap. by exists (k, c). }
    pose proof (Hcount k c Hin) as ->. split_and!; [done | | done].
    unfold occurrences.
    assert (k ∈ filter (λ v, v = k) terms) as Hf by (by apply list_elem_of_filter).
    destruct (filter _ terms); [by apply elem_of_nil in Hf | simpl; lia].
Qed.

Lemma sum_list_perm (l1 l2 : list nat) : l1 ≡ₚ l2 → sum_list l1 = sum_list l2.
Proof.
  induction 1 as [|x l1 l2 _ IH|x y l|l1 l2 l3 _ IH1 _ IH2];
    rewrite ?sum_list_cons; [done | lia | lia | congruence].
Qed.

Lemma sum_counts_sorted d : sum_counts (sorted_items d) = sum_counts d.
Proof.
  unfold sum_counts. apply sum_list_perm.
  unfold sorted_items. by rewrite merge_sort_Permutation.
Qed.

Lemma word_entries_words t l : word <$> (word_entry_of t <$> l) = l.*1.
Proof. rewrite <- list_fmap_compose. by apply list_fmap_ext. Qed.

Lemma word_entries_counts t l : count <$> (word_entry_of t <$> l) = l.*2.
Proof. rewrite <- list_fmap_compose. by apply list_fmap_ext. Qed.

Lemma ngram_entries_terms l : ngram <$> (ngram_entry_of <$> l) = l.*1.
Proof. rewrite <- list_fmap_compose. by apply list_fmap_ext. Qed.

Lemma elem_of_concat {A} (x : A) (ls : list (list A)) :
  x ∈ concat ls ↔ ∃ l, x ∈ l ∧ l ∈ ls.
Proof.
  induction ls as [|l ls IH]; simpl.
  - split; [intros H; by apply elem_of_nil in H|].
    intros (l & _ & H). by apply elem_of_nil in H.
  - rewrite elem_of_app, IH. split.
    + intros [H|(l' & H1 & H2)]; [exists l; split; [done | left] | exists l'; split; [done | by right]].
    + intros (l' & H1 & H2). apply elem_of_cons in H2 as [->|H2]; [by left | right; by exists l'].
Qed.

(** An n-gram of a corpus is a window of one of its documents. *)
Lemma elem_of_build_ngrams words n g :
  g ∈ build_ngrams words n →
  ∃ i, i + n ≤ length words ∧ g = join_space (take n (drop i words)).
Proof.
  intros Hg. apply list_elem_of_lookup in Hg as [i Hi].
  pose proof (lookup_lt_Some _ _ _ Hi) as Hlt.
  rewrite build_ngrams_length in Hlt.
  assert (i + n ≤ length words) as Hle by lia.
  exists i. split; [done|].
  rewrite build_ngrams_lookup in Hi by done. by injection Hi as <-.
Qed.

Lemma elem_of_corpus_ngrams n ds g :
  g ∈ corpus_ngrams n ds →
  ∃ d i, d ∈ ds ∧ i + n ≤ length (d_words d)
         ∧ g = join_space (take n (drop i (d_words d))).
Proof.
  unfold corpus_ngrams. intros Hg. apply elem_of_concat in Hg as (l & Hg & Hl).
  apply list_elem_of_fmap in Hl as (d & -> & Hd).
  apply elem_of_build_ngrams in Hg as (i & Hi & ->). by exists d, i.
Qed.

Lemma ranked_ngrams n K d ds :
  tallied d (corpus_ngrams n ds) →
  ranks_ngrams n K ds (ngram_entry_of <$> take K (sorted_items d)).
Proof.
  intros Ht. destruct (ranked_tally d _ K Ht) as (Hlen & Hnd & Hall).
  unfold ranks_ngrams. rewrite length_fmap, ngram_entries_terms.
  split_and!; [done | done |].
  intros e He. apply list_elem_of_fmap in He as ([k c] & -> & Hin). simpl.
  destruct (Hall k c Hin) as (Hc & Hpos & Hk).
  split_and!; [done | done |]. by apply elem_of_corpus_ngrams.
Qed.

(** The documents of a corpus hold tokens. *)
Lemma corpus_words_proper (w : world) files :
  Forall proper_word (corpus_words (corpus w files)).
Proof.
  unfold corpus_words, corpus. apply Forall_forall. intros x Hx.
  apply elem_of_concat in Hx as (l & Hx & Hl).
  apply list_elem_of_fmap in Hl as (d & -> & Hd).
  apply list_elem_of_omap in Hd as (f & _ & Hf).
  destruct (read_json w (os_path_join PROCESSED_DIR f)) as [msg| |[[t|]|]];
    simpl in Hf; try done; injection Hf as <-; simpl in Hx;
    (eapply Forall_forall; [|exact Hx]); apply findall_word_proper; constructor.
Qed.

Lemma total_length_proper words :
  Forall proper_word words → length words ≤ Processor.total_length words.
Proof.
  induction 1 as [|x words [Hne _] _ IH]; simpl; [lia|].
  destruct x; [done | simpl; lia].
Qed.

(** Sentences are counted wherever sentence words are. *)
Lemma fold_sentences_with_words l : ∀ st,
  (total_sentence_count st = 0 → total_sentence_words st = 0) →
  let st' := foldl (λ s ft, add_document s ft.1 ft.2) st l in
  total_sentence_count st' = 0 → total_sentence_words st' = 0.
Proof.
  induction l as [|[f t] l IH]; intros st Hst; [done|].
  cbn [foldl]. apply IH. simpl. intros H0.
  destruct (split_sentences t) as [|s ss]; [|simpl in H0; lia].
  simpl in *. rewrite Hst by lia. done.
Qed.

(** On Latin-1 texts the words counted sentence by sentence are the words
    of the texts. *)
Lemma fold_sentence_words l : ∀ st,
  Forall (λ ft, within_latin_1 ft.2) l →
  total_sentence_words st = total_words_ st →
  let st' := foldl (λ s ft, add_document s ft.1 ft.2) st l in
  total_sentence_words st' = total_words_ st'.
Proof.
  induction l as [|[f t] l IH]; intros st Hl Hst; [done|].
  apply Forall_cons in Hl as [Ht Hl]. cbn [foldl]. apply IH; [done|].
  simpl. rewrite (sentence_words_all t Ht). lia.
Qed.

Lemma main_totals (w : world) names code r :
  processed_dir w = Some names → main w = Some (code, r) →
  Forall (λ ft, within_latin_1 ft.2) (documents_read w (listed_files names)) →
  ∃ st, r = report_of st ∧ tallies st
        ∧ docs st = corpus w (listed_files names)
        ∧ total_sentence_count st
          = sum_list ((λ ft, length (split_sentences ft.2))
                        <$> documents_read w (listed_files names))
        ∧ (total_sentence_count st = 0 → total_sentence_words st = 0)
        ∧ total_sentence_words st = total_words_ st.
Proof.
  intros Hdir Hmain Hlatin.
  destruct (main_run w names code r Hdir Hmain) as (st & Hrun & _ & -> & Hdocs & _).
  exists st. pose proof (read_loop_fold w _ _ _ Hrun) as Hfold.
  split_and!; [done | | done | | |].
  - rewrite Hfold. apply fold_tallies, tallies_initial.
  - rewrite Hfold, fold_sentence_count. done.
  - rewrite Hfold. by apply fold_sentences_with_words.
  - rewrite Hfold. by apply fold_sentence_words.
Qed.

Lemma read_loop_stops (w : world) files : ∀ st,
  read_loop w files st = None
  ↔ ∃ f, f ∈ files ∧ read_json w (os_path_join PROCESSED_DIR f) = Dict (Some VOther).
Proof.
  induction files as [|f files IH]; intros st.
  - split; [done|]. intros (f & Hf & _). by apply elem_of_nil in Hf.
  - cbn [read_loop].
    destruct (read_json w (os_path_join PROCESSED_DIR f)) as [msg| |[[t|]|]] eqn:Hread.
    all: try (rewrite IH; split;
      [intros (g & Hg & Hr); exists g; split; [by right | done]
      |intros (g & Hg & Hr); apply elem_of_cons in Hg as [->|Hg];
         [congruence | by exists g]]).
    split; [|done]. intros _. exists f. split; [left | done].
Qed.

Lemma sim_pairs_length ds : 2 * length (sim_pairs ds) = length ds * (length ds - 1).
Proof.
  induction ds as [|d ds IH]; [done|].
  cbn [sim_pairs]. rewrite length_app, length_fmap. simpl. nia.
Qed.

Lemma elem_of_sim_pairs ds p :
  p ∈ sim_pairs ds
  ↔ ∃ i j di dj, i < j ∧ ds !! i = Some di ∧ ds !! j = Some dj
      ∧ p = {| doc1 := d_file di; doc2 := d_file dj;
               similarity := jaccard_similarity (d_words di) (d_words dj) |}.
Proof.
  induction ds as [|d ds IH]; cbn [sim_pairs].
  - split; [intros H; by apply elem_of_nil in H|]. by intros (i & j & di & dj & _ & H & _).
  - rewrite elem_of_app, IH, list_elem_of_fmap. split.
    + intros [(dj & -> & Hdj)|(i & j & di & dj & Hij & Hi & Hj & ->)].
      * apply list_elem_of_lookup in Hdj as [j Hj].
        exists 0, (S j), d, dj. split_and!; [lia | done | done | done].
      * exists (S i), (S j), di, dj. split_and!; [lia | done | done | done].
    + intros (i & j & di & dj & Hij & Hi & Hj & ->).
      destruct j as [|j]; [lia|]. simpl in Hj. destruct i as [|i].
      * simpl in Hi. injection Hi as <-. left. exists dj. split; [done|].
        by eapply list_elem_of_lookup_2.
      * simpl in Hi. right. exists i, j, di, dj. split_and!; [lia | done | done | done].
Qed.

(** The documents of a corpus come in the order of the listing. *)
Lemma corpus_files_sublist (w : world) files : d_file <$> corpus w files `sublist_of` files.
Proof.
  unfold corpus. induction files as [|f files IH]; [done|]. simpl.
  destruct (tokens_of _) as [ws|]; simpl.
  - by apply sublist_skip.
  - by apply sublist_cons.
Qed.

Lemma StronglySorted_sublist {A} (R : relation A) (l1 l2 : list A) :
  l1 `sublist_of` l2 → StronglySorted R l2 → StronglySorted R l1.
Proof.
  induction 1 as [|x l1 l2 Hsub IH|x l1 l2 Hsub IH]; intros Hs; [done| |].
  - apply StronglySorted_inv in Hs as [Hs Hx]. constructor; [by apply IH|].
    apply Forall_forall. intros y Hy. rewrite Forall_forall in Hx. apply Hx.
    by eapply sublist_subseteq.
  - apply StronglySorted_inv in Hs as [Hs _]. by apply IH.
Qed.

Lemma StronglySorted_lookup {A} (R : relation A) (l : list A) i j x y :
  StronglySorted R l → i < j → l !! i = Some x → l !! j = Some y → R x y.
Proof.
  intros Hs. revert i j. induction Hs as [|z l Hs IH Hz]; intros i j Hij Hi Hj; [done|].
  destruct j as [|j]; [lia|]. simpl in Hj. destruct i as [|i].
  - simpl in Hi. injection Hi as <-. rewrite Forall_forall in Hz. apply Hz.
    by eapply list_elem_of_lookup_2.
  - simpl in Hi. apply (IH i j); [lia | done | done].
Qed.

(** A sorted list of distinct names is strictly ascending. *)
Lemma sorted_distinct_names l :
  StronglySorted Processor.name_le l → NoDup l → StronglySorted str_lt l.
Proof.
  induction 1 as [|x l Hs IH Hx]; intros Hnd; [constructor|].
  apply NoDup_cons in Hnd as [Hnot Hnd]. constructor; [by apply IH|].
  apply Forall_forall. intros y Hy. rewrite Forall_forall in Hx.
  specialize (Hx y Hy). unfold Processor.name_le, str_lt in *.
  destruct (trichotomy (lexico (A := pystr)) x y) as [Hlt|[->|Hgt]]; [done | done | done].
Qed.

Lemma listed_files_sorted names : StronglySorted Processor.name_le (listed_files names).
Proof. unfold listed_files. apply StronglySorted_merge_sort; apply _. Qed.

Lemma elem_of_listed_files names f :
  f ∈ listed_files names ↔ f ∈ names ∧ is_json f = true.
Proof.
  unfold listed_files. rewrite merge_sort_Permutation, list_elem_of_filter.
  split; intros [H1 H2]; split; try done; by destruct (is_json f).
Qed.

Lemma listed_files_NoDup names : NoDup names → NoDup (listed_files names).
Proof.
  intros Hnd. unfold listed_files. rewrite merge_sort_Permutation. by apply NoDup_filter.
Qed.
(** The strings of a report: names of the directory, and terms made of word
    characters and spaces. *)
Lemma elem_of_join_space ws x :
  x ∈ join_space ws → x = 32%N ∨ ∃ v, v ∈ ws ∧ x ∈ v.
Proof.
  induction ws as [|v ws IH]; [intros H; by apply elem_of_nil in H|].
  cbn [join_space]. destruct ws as [|v' ws].
  - intros Hx. right. exists v. split; [left | done].
  - rewrite elem_of_app, elem_of_cons. intros [Hx|[->|Hx]].
    + right. exists v. split; [left | done].
    + by left.
    + destruct (IH Hx) as [->|(u & Hu & Hxu)]; [by left|].
      right. exists u. split; [by right | done].
Qed.

Lemma corpus_file_listed (w : world) files d :
  d ∈ corpus w files → d_file d ∈ files.
Proof.
  unfold corpus. intros Hd. apply list_elem_of_omap in Hd as (f & Hf & Hd).
  destruct (tokens_of _) as [ws|]; [|done]. simpl in Hd. by injection Hd as <-.
Qed.

Lemma report_names_listed (w : world) names code r :
  processed_dir w = Some names → main w = Some (code, r) →
  ∀ n, n ∈ report_names r → n ∈ names.
Proof.
  intros Hdir Hmain n Hn.
  destruct (main_run w names code r Hdir Hmain) as (st & _ & _ & -> & Hdocs & _).
  unfold report_names, report_of in Hn. cbn [document_similarity] in Hn.
  apply elem_of_concat in Hn as (l & Hn & Hl).
  apply list_elem_of_fmap in Hl as (p & -> & Hp).
  apply elem_of_sim_pairs in Hp as (i & j & di & dj & _ & Hi & Hj & ->).
  apply list_elem_of_lookup_2 in Hi, Hj. rewrite Hdocs in Hi, Hj.
  apply corpus_file_listed, elem_of_listed_files in Hi as [Hi _].
  apply corpus_file_listed, elem_of_listed_files in Hj as [Hj _].
  cbn [doc1 doc2] in Hn.
  apply elem_of_cons in Hn as [->|Hn]; [done|].
  apply list_elem_of_singleton in Hn as ->. done.
Qed.

Lemma ngram_word_chars n (ds : list doc) g :
  Forall proper_word (corpus_words ds) → g ∈ corpus_ngrams n ds →
  Forall (λ c, is_word c = true ∨ c = 32%N) g.
Proof.
  intros Hproper Hg. apply elem_of_corpus_ngrams in Hg as (d & i & Hd & _ & ->).
  apply Forall_forall. intros x Hx.
  apply elem_of_join_space in Hx as [->|(v & Hv & Hx)]; [by right|]. left.
  apply subseteq_take, subseteq_drop in Hv.
  assert (v ∈ corpus_words ds) as Hin.
  { unfold corpus_words. apply elem_of_concat. exists (d_words d).
    split; [done|]. apply list_elem_of_fmap. by exists d. }
  rewrite Forall_forall in Hproper. destruct (Hproper v Hin) as [_ Hall].
  rewrite Forall_forall in Hall. by apply Hall.
Qed.

Lemma report_terms_word_chars (w : world) names code r :
  processed_dir w = Some names → main w = Some (code, r) →
  Forall (Forall (λ c, is_word c = true ∨ c = 32%N)) (report_terms r).
Proof.
  intros Hdir Hmain.
  destruct (main_tallies w names code r Hdir Hmain)
    as (st & -> & (Hw & Hb & Ht & _) & Hdocs & _).
  pose proof (corpus_words_proper w (listed_files names)) as Hproper.
  rewrite <- Hdocs in Hproper.
  assert (∀ d terms K k, tallied d terms → k ∈ (take K (sorted_items d)).*1 → k ∈ terms)
    as Hkey.
  { intros d terms K k Htal Hk. apply list_elem_of_fmap in Hk as ([k' c] & -> & Hin).
    by destruct (ranked_tally d terms K Htal) as (_ & _ & Hall); destruct (Hall k' c Hin)
      as (_ & _ & ?). }
  unfold report_terms, report_of.
  cbn [top_100_words top_bigrams top_trigrams].
  rewrite word_entries_words, !ngram_entries_terms, !Forall_app. split_and!.
  - apply Forall_forall. intros k Hk. apply (Hkey _ _ _ _ Hw) in Hk.
    rewrite Forall_forall in Hproper. destruct (Hproper k Hk) as [_ Hall].
    eapply Forall_impl; [exact Hall|]. intros c Hc. by left.
  - apply Forall_forall. intros k Hk. apply (Hkey _ _ _ _ Hb) in Hk.
    by eapply ngram_word_chars.
  - apply Forall_forall. intros k Hk. apply (Hkey _ _ _ _ Ht) in Hk.
    by eapply ngram_word_chars.
Qed.
End Corpus.

Section JaccardSets.
Import Analyzer.

Lemma jaccard_one_iff (A B : list pystr) :
  (jaccard_similarity A B == 1)%Q ↔ A ≠ [] ∧ ∀ x, x ∈ A ↔ x ∈ B.
Proof.
  unfold jaccard_similarity.
  set (X := list_to_set A : gset pystr). set (Y := list_to_set B : gset pystr).
  assert (X ∩ Y ⊆ X ∪ Y) as Hsub by set_solver.
  destruct (Nat.ltb_spec 0 (size (X ∪ Y))) as [Hpos|Hzero].
  - unfold Qeq. simpl. rewrite Zpos_of_nat by done. split.
    + intros Heq. assert (size (X ∪ Y) ≤ size (X ∩ Y)) as Hle by lia.
      pose proof (set_subseteq_size_eq _ _ Hsub Hle) as Hxy.
      assert (∀ x, x ∈ A ↔ x ∈ B) as Hiff.
      { intros x. split; intros Hx.
        - assert (x ∈ X ∪ Y) as Hu by (subst X; set_solver).
          rewrite <- Hxy in Hu. subst Y. set_solver.
        - assert (x ∈ X ∪ Y) as Hu by (subst Y; set_solver).
          rewrite <- Hxy in Hu. subst X. set_solver. }
      split; [|done]. intros ->.
      assert (X ∪ Y = ∅) as Hempty.
      { apply set_eq. intros x. subst X Y. rewrite elem_of_union, !elem_of_list_to_set.
        rewrite <- Hiff. set_solver. }
      rewrite Hempty, size_empty in Hpos. lia.
    + intros [_ Hiff]. assert (X ∩ Y = X ∪ Y) as ->; [|lia].
      apply set_eq. intros x. subst X Y.
      rewrite elem_of_union, elem_of_intersection, !elem_of_list_to_set, Hiff. tauto.
  - split; [by unfold Qeq|]. intros [Hne Hiff]. exfalso.
    destruct A as [|a A]; [done|].
    assert (a ∈ X ∪ Y) as Ha by (subst X; set_solver).
    assert (size (X ∪ Y) = 0) as H0 by lia.
    apply size_empty_inv in H0. set_solver.
Qed.

Lemma jaccard_zero_iff (A B : list pystr) :
  (jaccard_similarity A B == 0)%Q ↔ ∀ x, x ∈ A → x ∉ B.
Proof.
  unfold jaccard_similarity.
  set (X := list_to_set A : gset pystr). set (Y := list_to_set B : gset pystr).
  destruct (Nat.ltb_spec 0 (size (X ∪ Y))) as [Hpos|Hzero].
  - unfold Qeq. simpl. split.
    + intros Heq. assert (size (X ∩ Y) = 0) as H0 by lia.
      apply size_empty_inv in H0. intros x Hx Hy.
      assert (x ∈ X ∩ Y) as Hin by (subst X Y; set_solver). set_solver.
    + intros Hdis. assert (X ∩ Y = ∅) as ->; [|by rewrite size_empty].
      apply set_eq. intros x. subst X Y.
      rewrite elem_of_intersection, !elem_of_list_to_set. split; [|set_solver].
      intros [Hx Hy]. by destruct (Hdis x Hx).
  - split; [|done]. intros _ x Hx Hy.
    assert (x ∈ X ∪ Y) as Ha by (subst X; set_solver).
    assert (size (X ∪ Y) = 0) as H0 by lia.
    apply size_empty_inv in H0. set_solver.
Qed.

Lemma jaccard_ext (A B A' B' : list pystr) :
  (∀ x, x ∈ A ↔ x ∈ A') → (∀ x, x ∈ B ↔ x ∈ B') →
  jaccard_similarity A' B' = jaccard_similarity A B.
Proof.
  intros HA HB. unfold jaccard_similarity.
  assert ((list_to_set A' : gset pystr) = list_to_set A) as ->.
  { apply set_eq. intros x. by rewrite !elem_of_list_to_set, HA. }
  assert ((list_to_set B' : gset pystr) = list_to_set B) as ->; [|done].
  apply set_eq. intros x. by rewrite !elem_of_list_to_set, HB.
Qed.
End JaccardSets.

(** The word list of a report against the corpus.  The number of unique
    words is the number of distinct tokens of the documents read; the list
    has 100 entries, or one for every distinct token when these are fewer;
    no word is listed twice and every listed word is a token of the corpus;
    the listed counts add up to no more than the total number of words, and
    to exactly that number when the corpus has at most 100 distinct tokens,
    in which case every token of the corpus is listed. *)
Theorem word_list_summarises_the_corpus
    (w : Analyzer.world) (names : list pystr) (code : Z) (r : Analyzer.report) :
  Analyzer.processed_dir w = Some names →
  Analyzer.main w = Some (code, r) →
  let words := corpus_words (corpus w (Analyzer.listed_files names)) in
  let top := Analyzer.top_100_words r in
  Analyzer.unique_words r = size (list_to_set words : gset pystr)
  ∧ length top = 100 `min` Analyzer.unique_words r
  ∧ NoDup (Analyzer.word <$> top)
  ∧ (∀ e, e ∈ top → Analyzer.word e ∈ words)
  ∧ sum_list (Analyzer.count <$> top) ≤ Analyzer.total_words r
  ∧ (Analyzer.unique_words r ≤ 100 →
       sum_list (Analyzer.count <$> top) = Analyzer.total_words r
       ∧ ∀ x, x ∈ words → x ∈ Analyzer.word <$> top).
Proof.
  intros Hdir Hmain words top.
  destruct (main_tallies w names code r Hdir Hmain)
    as (st & -> & (Hw & _ & _ & Hsum & _) & Hdocs & _).
  subst words top. rewrite <- Hdocs. cbn [Analyzer.report_of Analyzer.unique_words
    Analyzer.top_100_words Analyzer.total_words].
  destruct (ranked_tally _ _ 100 Hw) as (Hlen & Hnd & Hall).
  pose proof (tallied_size _ _ Hw) as Hsize.
  rewrite length_fmap, word_entries_words, word_entries_counts.
  split_and!.
  - done.
  - by rewrite Hsize.
  - done.
  - intros e He. apply list_elem_of_fmap in He as ([k c] & -> & Hin).
    simpl. by destruct (Hall k c Hin) as (_ & _ & ?).
  - rewrite <- Hsum, <- sum_counts_sorted. unfold sum_counts.
    rewrite fmap_take. apply sum_list_take_le.
  - intros Hle. rewrite take_ge.
    2:{ unfold Analyzer.sorted_items. by rewrite merge_sort_Permutation. }
    split; [by rewrite <- Hsum, <- sum_counts_sorted|].
    intros x Hx. destruct Hw as (_ & Hkeys & _). apply Hkeys in Hx.
    unfold Analyzer.sorted_items. by rewrite merge_sort_Permutation.
Qed.

Lemma word_list_summarises_the_corpus_witness :
  let r := Analyzer.report_of Examples.two_documents_state in
  let words := corpus_words (corpus Examples.two_documents
                               (Analyzer.listed_files [py "b.json"; py "a.json"])) in
  let top := Analyzer.top_100_words r in
  Analyzer.unique_words r = size (list_to_set words : gset pystr)
  ∧ length top = 100 `min` Analyzer.unique_words r
  ∧ NoDup (Analyzer.word <$> top)
  ∧ (∀ e, e ∈ top → Analyzer.word e ∈ words)
  ∧ sum_list (Analyzer.count <$> top) ≤ Analyzer.total_words r
  ∧ (Analyzer.unique_words r ≤ 100 →
       sum_list (Analyzer.count <$> top) = Analyzer.total_words r
       ∧ ∀ x, x ∈ words → x ∈ Analyzer.word <$> top).
Proof.
  apply (word_list_summarises_the_corpus Examples.two_documents
           [py "b.json"; py "a.json"] 0%Z
           (Analyzer.report_of Examples.two_documents_state)).
  - reflexivity.
  - vm_compute. reflexivity.
Defined.

(** The two n-gram lists of a report against the corpus.  The bigram list
    ranks the bigrams of the documents read and has at most 50 entries, the
    trigram list does the same for the trigrams: an entry holds a window of
    consecutive tokens of one document, never tokens of two documents, with
    the number of times that window occurs in the documents; no term is
    listed twice. *)
Theorem ngram_lists_rank_windows_of_single_documents
    (w : Analyzer.world) (names : list pystr) (code : Z) (r : Analyzer.report) :
  Analyzer.processed_dir w = Some names →
  Analyzer.main w = Some (code, r) →
  let ds := corpus w (Analyzer.listed_files names) in
  ranks_ngrams 2 50 ds (Analyzer.top_bigrams r)
  ∧ ranks_ngrams 3 50 ds (Analyzer.top_trigrams r).
Proof.
  intros Hdir Hmain ds.
  destruct (main_tallies w names code r Hdir Hmain)
    as (st & -> & (_ & Hb & Ht & _) & Hdocs & _).
  subst ds. rewrite <- Hdocs. split; by apply ranked_ngrams.
Qed.

Lemma ngram_lists_rank_windows_of_single_documents_witness :
  let ds := corpus Examples.two_documents
              (Analyzer.listed_files [py "b.json"; py "a.json"]) in
  ranks_ngrams 2 50 ds (Analyzer.top_bigrams (Analyzer.report_of Examples.two_documents_state))
  ∧ ranks_ngrams 3 50 ds
      (Analyzer.top_trigrams (Analyzer.report_of Examples.two_documents_state)).
Proof.
  apply (ngram_lists_rank_windows_of_single_documents Examples.two_documents
           [py "b.json"; py "a.json"] 0%Z
           (Analyzer.report_of Examples.two_documents_state)).
  - reflexivity.
  - vm_compute. reflexivity.
Defined.

(** The readability figures of a report over texts of Latin-1 characters.
    The average sentence length is the total number of words divided by the
    number of sentences of the texts read: the words counted sentence by
    sentence are the words of the texts.  Without a token both averages are
    zero; with a token there is a sentence, the average sentence length is
    positive and the average word length is at least 1. *)
Theorem readability_averages_over_the_corpus
    (w : Analyzer.world) (names : list pystr) (code : Z) (r : Analyzer.report) :
  Analyzer.processed_dir w = Some names →
  Analyzer.main w = Some (code, r) →
  Forall (λ ft, within_latin_1 ft.2) (documents_read w (Analyzer.listed_files names)) →
  let words := corpus_words (corpus w (Analyzer.listed_files names)) in
  let sentences :=
    sum_list ((λ ft, length (Analyzer.split_sentences ft.2))
                <$> documents_read w (Analyzer.listed_files names)) in
  let rd := Analyzer.readability r in
  Analyzer.avg_sentence_length rd
    = (if 0 <? sentences then Z.of_nat (length words) # Pos.of_nat sentences else 0)%Q
  ∧ (words = [] →
       (Analyzer.avg_sentence_length rd == 0)%Q
       ∧ (Analyzer.avg_word_length_ rd == 0)%Q)
  ∧ (words ≠ [] →
       0 < sentences
       ∧ (0 < Analyzer.avg_sentence_length rd)%Q
       ∧ (1 <= Analyzer.avg_word_length_ rd)%Q).
Proof.
  intros Hdir Hmain Hlatin words sentences rd.
  destruct (main_totals w names code r Hdir Hmain Hlatin)
    as (st & -> & (_ & _ & _ & _ & Htot & Hall) & Hdocs & Hsc & Hzero & Hsw).
  pose proof (corpus_words_proper w (Analyzer.listed_files names)) as Hproper.
  subst words sentences rd. rewrite <- Hdocs in *. rewrite <- Hsc.
  cbn [Analyzer.report_of Analyzer.readability Analyzer.avg_sentence_length
       Analyzer.avg_word_length_].
  rewrite Hsw, Htot, Hall.
  split_and!; [done | |].
  - intros Hnil. rewrite Hnil. simpl.
    destruct (0 <? Analyzer.total_sentence_count st); by split_and!.
  - intros Hne.
    assert (0 < length (corpus_words (Analyzer.docs st))) as Hlen.
    { destruct (corpus_words (Analyzer.docs st)); [done | simpl; lia]. }
    assert (0 < Analyzer.total_sentence_count st) as Hpos.
    { destruct (Analyzer.total_sentence_count st) eqn:Hn; [|lia].
      specialize (Hzero eq_refl). lia. }
    split; [done|]. apply Nat.ltb_lt in Hpos as Hb. rewrite Hb. split.
    + unfold Qlt. simpl. lia.
    + pose proof (total_length_proper _ Hproper) as Hle.
      unfold Analyzer.avg_word_length.
      destruct (length (corpus_words (Analyzer.docs st))) as [|n] eqn:Hn; [lia|].
      unfold Qle. simpl. rewrite Zpos_of_nat by lia. lia.
Qed.

Lemma readability_averages_over_the_corpus_witness :
  let w := Examples.two_documents in
  let names := [py "b.json"; py "a.json"] in
  let r := Analyzer.report_of Examples.two_documents_state in
  let words := corpus_words (corpus w (Analyzer.listed_files names)) in
  let sentences :=
    sum_list ((λ ft, length (Analyzer.split_sentences ft.2))
                <$> documents_read w (Analyzer.listed_files names)) in
  let rd := Analyzer.readability r in
  Analyzer.avg_sentence_length rd
    = (if 0 <? sentences then Z.of_nat (length words) # Pos.of_nat sentences else 0)%Q
  ∧ (words = [] →
       (Analyzer.avg_sentence_length rd == 0)%Q
       ∧ (Analyzer.avg_word_length_ rd == 0)%Q)
  ∧ (words ≠ [] →
       0 < sentences
       ∧ (0 < Analyzer.avg_sentence_length rd)%Q
       ∧ (1 <= Analyzer.avg_word_length_ rd)%Q).
Proof.
  apply (readability_averages_over_the_corpus Examples.two_documents
           [py "b.json"; py "a.json"] 0%Z
           (Analyzer.report_of Examples.two_documents_state)).
  - reflexivity.
  - vm_compute. reflexivity.
  - refine (bool_decide_unpack _ _). vm_compute. exact I.
Defined.

(** The similarity list of a report.  It holds one entry for every two
    documents read, the one that comes first in the listing as [doc1]: with
    [D] documents there are [D (D - 1) / 2] entries; the similarity of an
    entry is the Jaccard similarity of the tokens of its two documents; and
    when the names in the directory are distinct, [doc1] is smaller than
    [doc2] in the order of strings. *)
Theorem similarity_list_pairs_the_documents
    (w : Analyzer.world) (names : list pystr) (code : Z) (r : Analyzer.report) :
  Analyzer.processed_dir w = Some names →
  Analyzer.main w = Some (code, r) →
  let ds := corpus w (Analyzer.listed_files names) in
  2 * length (Analyzer.document_similarity r)
    = Analyzer.documents_processed r * (Analyzer.documents_processed r - 1)
  ∧ (∀ p, p ∈ Analyzer.document_similarity r ↔
       ∃ i j di dj, i < j ∧ ds !! i = Some di ∧ ds !! j = Some dj
         ∧ p = {| Analyzer.doc1 := Analyzer.d_file di;
                  Analyzer.doc2 := Analyzer.d_file dj;
                  Analyzer.similarity :=
                    Analyzer.jaccard_similarity (Analyzer.d_words di)
                                                (Analyzer.d_words dj) |})
  ∧ (∀ p, p ∈ Analyzer.document_similarity r →
       Processor.name_le (Analyzer.doc1 p) (Analyzer.doc2 p))
  ∧ (NoDup names →
     ∀ p, p ∈ Analyzer.document_similarity r →
       str_lt (Analyzer.doc1 p) (Analyzer.doc2 p)).
Proof.
  intros Hdir Hmain ds.
  destruct (main_run w names code r Hdir Hmain) as (st & _ & _ & -> & Hdocs & _).
  subst ds. rewrite <- Hdocs.
  cbn [Analyzer.report_of Analyzer.document_similarity Analyzer.documents_processed].
  assert (∀ R, StronglySorted R (Analyzer.listed_files names) →
            ∀ p, p ∈ Analyzer.sim_pairs (Analyzer.docs st) →
              R (Analyzer.doc1 p) (Analyzer.doc2 p)) as Hord.
  { intros R Hs p Hp. apply elem_of_sim_pairs in Hp as (i & j & di & dj & Hij & Hi & Hj & ->).
    simpl. apply (StronglySorted_lookup R (Analyzer.d_file <$> Analyzer.docs st) i j).
    - eapply StronglySorted_sublist; [|exact Hs]. rewrite Hdocs. apply corpus_files_sublist.
    - done.
    - by rewrite list_lookup_fmap, Hi.
    - by rewrite list_lookup_fmap, Hj. }
  split_and!.
  - apply sim_pairs_length.
  - apply elem_of_sim_pairs.
  - apply Hord, listed_files_sorted.
  - intros Hnd. apply Hord, sorted_distinct_names;
      [apply listed_files_sorted | by apply listed_files_NoDup].
Qed.

Lemma similarity_list_pairs_the_documents_witness :
  let w := Examples.two_documents in
  let names := [py "b.json"; py "a.json"] in
  let r := Analyzer.report_of Examples.two_documents_state in
  let ds := corpus w (Analyzer.listed_files names) in
  2 * length (Analyzer.document_similarity r)
    = Analyzer.documents_processed r * (Analyzer.documents_processed r - 1)
  ∧ (∀ p, p ∈ Analyzer.document_similarity r ↔
       ∃ i j di dj, i < j ∧ ds !! i = Some di ∧ ds !! j = Some dj
         ∧ p = {| Analyzer.doc1 := Analyzer.d_file di;
                  Analyzer.doc2 := Analyzer.d_file dj;
                  Analyzer.similarity :=
                    Analyzer.jaccard_similarity (Analyzer.d_words di)
                                                (Analyzer.d_words dj) |})
  ∧ (∀ p, p ∈ Analyzer.document_similarity r →
       Processor.name_le (Analyzer.doc1 p) (Analyzer.doc2 p))
  ∧ (NoDup names →
     ∀ p, p ∈ Analyzer.document_similarity r →
       str_lt (Analyzer.doc1 p) (Analyzer.doc2 p)).
Proof.
  apply (similarity_list_pairs_the_documents Examples.two_documents
           [py "b.json"; py "a.json"] 0%Z
           (Analyzer.report_of Examples.two_documents_state)).
  - reflexivity.
  - vm_compute. reflexivity.
Defined.

(** When the analyzer stops before its report.  Take a processed directory
    whose file names are encodable in UTF-8 (no lone surrogate).  The run is
    cut short by an exception that nothing catches, before a report is
    built, exactly when the directory exists and one of its [.json] files
    loads as an object whose ["text"] is present and is not a string.  In
    every other case the run comes to its last write with a report, with
    exit code 1 and an error field when the directory is missing and with
    exit code 0 and no error field otherwise; the file names in that report
    are names of the directory, hence encodable, the error message is
    encodable, and the words and n-grams of the report are made of word
    characters and spaces. *)
Theorem analyzer_stops_only_on_text_that_is_no_string (w : Analyzer.world) :
  (∀ names, Analyzer.processed_dir w = Some names → Forall encodable names) →
  (Analyzer.main w = None ↔
     ∃ names f, Analyzer.processed_dir w = Some names
       ∧ f ∈ names ∧ Analyzer.is_json f = true
       ∧ Analyzer.read_json w (os_path_join Analyzer.PROCESSED_DIR f)
         = Analyzer.Dict (Some Analyzer.VOther))
  ∧ ∀ code r, Analyzer.main w = Some (code, r) →
      (code = 1%Z ↔ Analyzer.processed_dir w = None)
      ∧ (code = 0%Z ↔ is_Some (Analyzer.processed_dir w))
      ∧ (is_Some (Analyzer.error r) ↔ code = 1%Z)
      ∧ (∀ e, Analyzer.error r = Some e → encodable e)
      ∧ (∀ n, n ∈ report_names r →
           encodable n ∧ ∃ names, Analyzer.processed_dir w = Some names ∧ n ∈ names)
      ∧ Forall (Forall (λ c, is_word c = true ∨ c = 32%N)) (report_terms r).
Proof.
  intros Hnames.
  destruct (Analyzer.processed_dir w) as [names|] eqn:Hdir.
  - specialize (Hnames names eq_refl). split.
    + unfold Analyzer.main. rewrite Hdir.
      destruct (Analyzer.read_loop w (Analyzer.listed_files names) Analyzer.initial)
        as [st|] eqn:Hrun; simpl.
      * split; [done|]. intros (names' & f & [= <-] & Hf & Hj & Hread).
        assert (Analyzer.read_loop w (Analyzer.listed_files names) Analyzer.initial = None)
          as Hnone; [|congruence].
        apply read_loop_stops. exists f. split; [|done]. by apply elem_of_listed_files.
      * split; [|done]. intros _. apply read_loop_stops in Hrun as (f & Hf & Hread).
        apply elem_of_listed_files in Hf as [Hf Hj]. by exists names, f.
    + intros code r Hmain.
      pose proof (report_names_listed w names code r Hdir Hmain) as Hlisted.
      pose proof (report_terms_word_chars w names code r Hdir Hmain) as Hterms.
      unfold Analyzer.main in Hmain. rewrite Hdir in Hmain.
      destruct (Analyzer.read_loop w (Analyzer.listed_files names) Analyzer.initial)
        as [st|]; simpl in Hmain; [|done].
      injection Hmain as <- <-. cbn [Analyzer.error Analyzer.report_of].
      split_and!; [split; done | split; done | split; [by intros [? ?] | done] | done | | done].
      intros n Hn. specialize (Hlisted n Hn). split; [|by exists names].
      rewrite Forall_forall in Hnames. by apply Hnames.
  - unfold Analyzer.main. rewrite Hdir. split.
    + split; [done|]. by intros (names & f & ? & _).
    + intros code r [= <- <-]. cbn [Analyzer.error Analyzer.missing_dir_report].
      split_and!; [split; done | split; [done | by intros [? ?]] | split; [done | eauto]
                  | | | ].
      * intros e [= <-]. apply py_encodable.
      * intros n Hn. by apply elem_of_nil in Hn.
      * unfold report_terms. simpl. constructor.
Qed.

Lemma analyzer_stops_only_on_text_that_is_no_string_witness :
  let w := Examples.two_documents in
  (Analyzer.main w = None ↔
     ∃ names f, Analyzer.processed_dir w = Some names
       ∧ f ∈ names ∧ Analyzer.is_json f = true
       ∧ Analyzer.read_json w (os_path_join Analyzer.PROCESSED_DIR f)
         = Analyzer.Dict (Some Analyzer.VOther))
  ∧ ∀ code r, Analyzer.main w = Some (code, r) →
      (code = 1%Z ↔ Analyzer.processed_dir w = None)
      ∧ (code = 0%Z ↔ is_Some (Analyzer.processed_dir w))
      ∧ (is_Some (Analyzer.error r) ↔ code = 1%Z)
      ∧ (∀ e, Analyzer.error r = Some e → encodable e)
      ∧ (∀ n, n ∈ report_names r →
           encodable n ∧ ∃ names, Analyzer.processed_dir w = Some names ∧ n ∈ names)
      ∧ Forall (Forall (λ c, is_word c = true ∨ c = 32%N)) (report_terms r).
Proof.
  apply (analyzer_stops_only_on_text_that_is_no_string Examples.two_documents).
  intros names Hdir. simpl in Hdir. injection Hdir as <-.
  repeat (apply Forall_cons_2; [apply py_encodable|]). apply Forall_nil_2.
Defined.

(** The similarity of two token lists depends on the sets of their tokens
    only, not on order or repetition; it is 1 exactly when the two lists
    hold the same tokens and at least one, and 0 exactly when they share no
    token. *)
Theorem jaccard_similarity_compares_token_sets (A B : list pystr) :
  (∀ A' B', (∀ x, x ∈ A ↔ x ∈ A') → (∀ x, x ∈ B ↔ x ∈ B') →
            Analyzer.jaccard_similarity A' B' = Analyzer.jaccard_similarity A B)
  ∧ ((Analyzer.jaccard_similarity A B == 1)%Q ↔ A ≠ [] ∧ ∀ x, x ∈ A ↔ x ∈ B)
  ∧ ((Analyzer.jaccard_similarity A B == 0)%Q ↔ ∀ x, x ∈ A → x ∉ B).
Proof.
  split_and!.
  - intros A' B'. apply jaccard_ext.
  - apply jaccard_one_iff.
  - apply jaccard_zero_iff.
Qed.

(** ** What the markup stripper returns *)

Section Stripper.
Import Processor.

Lemma elem_of_tag_sub x s : ∀ b, x ∈ tag_sub b s → x = 32%N ∨ x ∈ s.
Proof.
  induction s as [|c s IH]; intros b; simpl; [by right|].
  destruct b; [|destruct (tag_starts c s)]; rewrite ?elem_of_cons; intros H.
  - apply IH in H. naive_solver.
  - destruct H as [->|H]; [by left|]. apply IH in H. naive_solver.
  - destruct H as [->|H]; [by right; left|]. apply IH in H. naive_solver.
Qed.

Lemma tag_starts_no_close c r : 62%N ∉ r → tag_starts c r = false.
Proof.
  intros Hr. unfold tag_starts. rewrite (bool_decide_eq_false_2 _ Hr).
  by rewrite andb_false_r.
Qed.

(** Without a [>] nothing is a tag. *)
Lemma tag_sub_no_close r : 62%N ∉ r → tag_sub false r = r.
Proof.
  induction r as [|c r IH]; [done|]. intros Hr.
  apply not_elem_of_cons in Hr as [Hc Hr]. simpl.
  rewrite tag_starts_no_close by done. by rewrite IH.
Qed.

Lemma tag_starts_tag_sub c r :
  tag_starts c r = false → tag_starts c (tag_sub false r) = false.
Proof.
  unfold tag_starts. destruct (c =? 60)%N; [|done]. simpl.
  destruct r as [|d r]; [done|].
  destruct (N.eqb_spec d 62) as [->|Hd].
  - intros _. simpl. done.
  - simpl. intros Hgt. apply bool_decide_eq_false in Hgt.
    fold (tag_starts d r). rewrite (tag_starts_no_close d r).
    2:{ intros Hin. apply Hgt. by right. }
    rewrite tag_sub_no_close.
    2:{ intros Hin. apply Hgt. by right. }
    apply N.eqb_neq in Hd. rewrite Hd. simpl. by apply bool_decide_eq_false.
Qed.

(** What [TAG_RE.sub] returns holds no match of [TAG_RE]. *)
Lemma has_tag_tag_sub s : ∀ b, has_tag (tag_sub b s) = false.
Proof.
  induction s as [|c s IH]; intros b; [done|]. simpl.
  destruct b; [apply IH|].
  destruct (tag_starts c s) eqn:Ht; simpl.
  - apply IH.
  - by rewrite IH, tag_starts_tag_sub.
Qed.

(** The head of the lowercase form of a character is [<] or [>] when the
    character is, and nothing else of it is. *)
Lemma lower_cp_shape c :
  ∃ d rest, lower_cp c = d :: rest
    ∧ (d =? 60)%N = (c =? 60)%N ∧ (d =? 62)%N = (c =? 62)%N
    ∧ (rest = [] ∨ (c ≠ 60%N ∧ c ≠ 62%N ∧ rest = [775%N])).
Proof.
  unfold lower_cp, in_range.
  repeat match goal with
  | |- context [(?a <=? c)%N] => destruct (N.leb_spec a c)
  | |- context [(c <=? ?b)%N] => destruct (N.leb_spec c b)
  | |- context [(c =? ?b)%N] => destruct (N.eqb_spec c b)
  end; simpl; eexists _, _; (split; [reflexivity|]);
  repeat match goal with
  | |- context [(?a =? ?b)%N] => destruct (N.eqb_spec a b)
  end; try lia; split_and!; try done; try (by left); right; split_and!; done || lia.
Qed.

Lemma elem_of_lower_close r : 62%N ∈ lower r ↔ 62%N ∈ r.
Proof.
  induction r as [|c r IH]; [done|].
  change (lower (c :: r)) with (lower_cp c ++ lower r).
  destruct (lower_cp_shape c) as (d & rest & -> & _ & Hd & Hrest).
  assert (62%N = d ↔ 62%N = c) as Hdc.
  { destruct (N.eqb_spec d 62), (N.eqb_spec c 62); try done; naive_solver. }
  assert (62%N ∉ rest) as Hnot.
  { destruct Hrest as [->|(_ & _ & ->)]; [apply not_elem_of_nil|].
    rewrite list_elem_of_singleton. lia. }
  rewrite elem_of_app, !elem_of_cons, IH. tauto.
Qed.

Lemma tag_starts_lower c r d :
  (d =? 60)%N = (c =? 60)%N → tag_starts d (lower r) = tag_starts c r.
Proof.
  intros Hd. unfold tag_starts. rewrite Hd. f_equal; [f_equal|].
  - destruct r as [|x r]; [done|].
    change (lower (x :: r)) with (lower_cp x ++ lower r).
    destruct (lower_cp_shape x) as (y & rest & -> & _ & Hy & _). simpl. by rewrite Hy.
  - apply bool_decide_ext, elem_of_lower_close.
Qed.

(** [TAG_RE.sub] and [lower] commute. *)
Lemma lower_tag_sub s : ∀ b, lower (tag_sub b s) = tag_sub b (lower s).
Proof.
  induction s as [|c s IH]; intros b; [done|].
  change (lower (c :: s)) with (lower_cp c ++ lower s).
  destruct (lower_cp_shape c) as (d & rest & Hlow & H60 & H62 & Hrest).
  destruct Hrest as [->|(Hne60 & Hne62 & ->)]; rewrite Hlow; cbn [tag_sub app]; destruct b.
  - by rewrite IH, H62.
  - rewrite (tag_starts_lower c s d H60). destruct (tag_starts c s).
    + change (lower (32%N :: tag_sub true s)) with (32%N :: lower (tag_sub true s)).
      by rewrite IH.
    + change (lower (c :: tag_sub false s)) with (lower_cp c ++ lower (tag_sub false s)).
      by rewrite IH, Hlow.
  - apply N.eqb_neq in Hne62. rewrite IH, H62, Hne62. done.
  - assert (tag_starts c s = false) as ->.
    { unfold tag_starts. apply N.eqb_neq in Hne60. by rewrite Hne60. }
    assert (tag_starts d (775%N :: lower s) = false) as ->.
    { unfold tag_starts. apply N.eqb_neq in Hne60. by rewrite H60, Hne60. }
    change (lower (c :: tag_sub false s)) with (lower_cp c ++ lower (tag_sub false s)).
    rewrite IH, Hlow. done.
Qed.

(** A pattern that opens like a tag and is not in a text is not in what
    [TAG_RE.sub] makes of the text. *)
Lemma find_None_tag_sub d q s :
  d ≠ 62%N →
  ∀ b, find s (60%N :: d :: q) = None → find (tag_sub b s) (60%N :: d :: q) = None.
Proof.
  intros Hd. induction s as [|c s IH]; intros b Hfind; [done|].
  apply find_None_cons in Hfind as [Hs Ht]. cbn [tag_sub]. destruct b; [by apply IH|].
  destruct (tag_starts c s) eqn:Htag.
  - apply find_None_cons. split; [done | by apply IH].
  - apply find_None_cons. split; [|by apply IH].
    rewrite startswith_cons in Hs |- *.
    destruct (N.eqb_spec c 60) as [->|]; [|done]. simpl in *.
    unfold tag_starts in Htag. simpl in Htag.
    destruct s as [|x s]; [done|].
    destruct (N.eqb_spec x 62) as [->|Hx].
    + cbn [tag_sub]. assert (tag_starts 62 s = false) as -> by reflexivity.
      apply N.eqb_neq in Hd. rewrite N.eqb_sym, Hd. done.
    + simpl in Htag. apply bool_decide_eq_false in Htag.
      rewrite tag_sub_no_close by done. done.
Qed.

(** *** Removing a block keeps out what was out *)

Lemma startswith_splice a c b p :
  c ∉ p → startswith (a ++ c :: b) p = true → startswith a p = true.
Proof.
  revert a. induction p as [|x p IH]; intros a Hc; [by destruct a|].
  apply not_elem_of_cons in Hc as [Hx Hc].
  destruct a as [|y a]; simpl.
  - apply N.eqb_neq in Hx. by rewrite Hx.
  - destruct (y =? x)%N; simpl; [by apply IH | done].
Qed.

Lemma find_None_splice a c b p :
  c ∉ p → find a p = None → find b p = None → find (a ++ c :: b) p = None.
Proof.
  intros Hc. induction a as [|y a IH]; intros Ha Hb.
  - simpl app. apply find_None_cons. split; [|done].
    destruct p as [|x p]; [done|]. apply not_elem_of_cons in Hc as [Hx _].
    rewrite startswith_cons. apply N.eqb_neq in Hx. by rewrite Hx.
  - apply find_None_cons in Ha as [Hs Ha]. rewrite <- app_comm_cons.
    apply find_None_cons. split; [|by apply IH].
    destruct (startswith (y :: a ++ c :: b) p) eqn:Hs'; [|done].
    rewrite app_comm_cons in Hs'. apply startswith_splice in Hs'; [congruence | done].
Qed.

Lemma lower_take_drop html n : lower html = lower (take n html) ++ lower (drop n html).
Proof. by rewrite <- lower_app, take_drop. Qed.

Lemma remove_tag_block_loop_keeps_out p open_pat close_pat fuel : ∀ html r,
  32%N ∉ p →
  find (lower html) p = None →
  remove_tag_block_loop fuel open_pat close_pat html (lower html) = Some r →
  find (lower r) p = None.
Proof.
  induction fuel as [|fuel IH]; intros html r Hp Hout; [done|].
  cbn [remove_tag_block_loop].
  destruct (find (lower html) open_pat) as [start|]; [|by intros [= <-]].
  destruct (find_from (lower html) close_pat start) as [e|].
  - apply IH; [done|]. rewrite lower_app.
    change (lower (32%N :: ?x)) with (32%N :: lower x).
    apply find_None_splice; [done | |].
    + rewrite (lower_take_drop html start) in Hout. by apply find_None_prefix in Hout.
    + rewrite (lower_take_drop html (e + length close_pat)) in Hout.
      by apply find_None_suffix in Hout.
  - intros [= <-]. rewrite (lower_take_drop html start) in Hout.
    by apply find_None_prefix in Hout.
Qed.

(** *** Attribute values *)

Lemma take_value_chars s : Forall (λ c, is_value_char c = true) (take_value s).
Proof.
  induction s as [|c s IH]; simpl; [constructor|].
  destruct (is_value_char c) eqn:Hc; by constructor.
Qed.

Lemma match_attr_proper name s v n : match_attr name s = Some (v, n) → proper_value v.
Proof.
  unfold match_attr. intros H. repeat case_match; simplify_eq.
  all: split; [done|].
  all: match goal with H : take_value ?b = _ |- _ => rewrite <- H; apply take_value_chars end.
Qed.

Lemma attr_findall_proper name s : ∀ skip, Forall proper_value (attr_findall name skip s).
Proof.
  induction s as [|c s IH]; intros skip; [constructor|]. cbn [attr_findall].
  destruct skip as [|k]; [|apply IH].
  destruct (match_attr name (c :: s)) as [[v n]|] eqn:Hm; [|apply IH].
  constructor; [by eapply match_attr_proper | apply IH].
Qed.

Lemma strip_html_text fuel html text links images :
  strip_html fuel html = Some (text, links, images) →
  ∃ html2, text = strip (WS_RE_sub (TAG_RE_sub html2))
           ∧ links = HREF_RE_findall html2 ∧ images = SRC_RE_findall html2.
Proof.
  unfold strip_html.
  destruct (remove_tag_block fuel html (py "script")) as [html1|]; [|done]. simpl.
  destruct (remove_tag_block fuel html1 (py "style")) as [html2|]; [|done]. simpl.
  intros [= <- <- <-]. by exists html2.
Qed.

(** Collapsing and trimming a text without tags leaves it without tags. *)
Lemma has_tag_normalized t : has_tag t = false → has_tag (strip (WS_RE_sub t)) = false.
Proof.
  intros Htag. destruct (strip_infix (WS_RE_sub t)) as (a & b & Hab).
  apply (has_tag_ws_sub t false) in Htag. fold (WS_RE_sub t) in Htag.
  rewrite Hab in Htag. apply has_tag_suffix in Htag. by apply has_tag_prefix in Htag.
Qed.

Lemma stripped_text_normal fuel html text links images :
  strip_html fuel html = Some (text, links, images) → strip (WS_RE_sub text) = text.
Proof.
  intros Hret. apply strip_html_text in Hret as (html2 & -> & _). apply normalized_fixed.
Qed.

(** The text of a page without U+0130 comes out without markup. *)
Lemma strip_html_dotless fuel html :
  304%N ∉ html → length html < fuel →
  ∃ text links images,
    strip_html fuel html = Some (text, links, images) ∧ plain_text text.
Proof.
  intros Hdot Hlen. unfold strip_html, remove_tag_block.
  destruct (remove_tag_block_loop_returns (py "<script") (py "script") fuel html)
    as (html1 & Hr1 & Hout1 & Hdot1 & Hlen1); [done | done | done |].
  change (py "<" ++ py "script") with (py "<script").
  change (py "<" ++ py "style") with (py "<style").
  rewrite Hr1. cbn [mbind option_bind].
  destruct (remove_tag_block_loop_returns (py "<style") (py "style") fuel html1)
    as (html2 & Hr2 & Hout2 & Hdot2 & Hlen2); [done | done | lia |].
  rewrite Hr2. cbn [mbind option_bind]. eexists _, _, _. split; [done|].
  assert (find (lower html2) (py "<script") = None) as Hout1'.
  { eapply (remove_tag_block_loop_keeps_out (py "<script")); [|exact Hout1|exact Hr2].
    apply (bool_decide_eq_false_1 (32%N ∈ py "<script")). vm_compute. done. }
  apply plain_text_normalized. unfold TAG_RE_sub. split_and!.
  - apply has_tag_tag_sub.
  - rewrite lower_tag_sub. by apply (find_None_tag_sub 115 (py "cript")).
  - rewrite lower_tag_sub. by apply (find_None_tag_sub 115 (py "tyle")).
Qed.
End Stripper.

(** Whatever page the stripper is given, the text it returns holds no tag,
    is trimmed, and has single spaces as its only whitespace, so that
    collapsing and trimming it again changes nothing; and every link and
    image address it returns is a non-empty run of characters without quote,
    space or [>]. *)
Theorem stripped_text_is_clean
    (fuel : nat) (html text : pystr) (links images : list pystr) :
  Processor.strip_html fuel html = Some (text, links, images) →
  has_tag text = false
  ∧ well_spaced false text = true
  ∧ strip text = text
  ∧ strip (WS_RE_sub text) = text
  ∧ Forall proper_value links
  ∧ Forall proper_value images.
Proof.
  intros Hret. apply strip_html_text in Hret as (html2 & -> & -> & ->).
  split_and!.
  - apply has_tag_normalized, has_tag_tag_sub.
  - apply well_spaced_normalized.
  - apply strip_idemp.
  - apply normalized_fixed.
  - apply attr_findall_proper.
  - apply attr_findall_proper.
Qed.

Lemma stripped_text_is_clean_witness :
  let text := py "Hi See this" in
  has_tag text = false
  ∧ well_spaced false text = true
  ∧ strip text = text
  ∧ strip (WS_RE_sub text) = text
  ∧ Forall proper_value [py "a.html"]
  ∧ Forall proper_value [py "b.png"].
Proof.
  apply (stripped_text_is_clean 200 Examples.sample_page (py "Hi See this")
           [py "a.html"] [py "b.png"]).
  vm_compute. reflexivity.
Defined.

(** On a page without the code point U+0130 the stripper returns, given as
    many turns as the page has characters plus one; the text it returns is
    without markup (no tag, no opening of a script or style block in either
    case), and the stripper gives it back unchanged. *)
Theorem stripped_text_is_a_fixed_point (fuel : nat) (html : pystr) :
  304%N ∉ html → length html < fuel →
  ∃ text links images,
    Processor.strip_html fuel html = Some (text, links, images)
    ∧ plain_text text
    ∧ Processor.strip_html fuel text
      = Some (text, HREF_RE_findall text, SRC_RE_findall text).
Proof.
  intros Hdot Hlen.
  destruct (strip_html_dotless fuel html Hdot Hlen) as (text & links & images & Hret & Hplain).
  exists text, links, images. split_and!; [done | done |].
  destruct fuel as [|fuel]; [lia|]. rewrite (strip_html_plain fuel text Hplain).
  apply stripped_text_normal in Hret. by rewrite Hret.
Qed.

Lemma stripped_text_is_a_fixed_point_witness :
  ∃ text links images,
    Processor.strip_html 200 Examples.sample_page = Some (text, links, images)
    ∧ plain_text text
    ∧ Processor.strip_html 200 text
      = Some (text, HREF_RE_findall text, SRC_RE_findall text).
Proof.
  apply (stripped_text_is_a_fixed_point 200 Examples.sample_page).
  - refine (bool_decide_unpack _ _). vm_compute. exact I.
  - apply Nat.ltb_lt. vm_compute. reflexivity.
Defined.

(** ** The statistics of a document *)

Section Statistics.
Import Processor.

Lemma count_nonblank_length parts :
  count_nonblank parts = length (Analyzer.strip_nonblank parts).
Proof.
  induction parts as [|p parts IH]; [done|]. simpl.
  destruct (strip p); simpl; by rewrite IH.
Qed.

(** A text with a token has a word character. *)
Lemma findall_word_char s :
  WORD_RE_findall s ≠ [] → ∃ c, c ∈ s ∧ is_word c = true.
Proof.
  unfold WORD_RE_findall. intros Hne.
  pose proof (findall_word_proper s [] (Forall_nil_2 _)) as Hall.
  destruct (findall_word [] s) as [|x l] eqn:Hx; [done|].
  apply Forall_cons in Hall as [[Hx0 Hxw] _].
  destruct x as [|c x]; [done|]. apply Forall_cons in Hxw as [Hc _].
  exists c. split; [|done].
  destruct (findall_word_chars s [] (c :: x) c) as [Hin|Hin]; [| |by apply elem_of_nil in Hin|done].
  - rewrite Hx. left.
  - left.
Qed.

(** Every character that is no separator lies in one of the pieces. *)
Lemma split_runs_covers is_sep s c :
  c ∈ s → is_sep c = false → ∀ b, ∃ p, p ∈ split_runs is_sep b s ∧ c ∈ p.
Proof.
  intros Hc Hsep. induction s as [|x r IH]; intros b; [by apply elem_of_nil in Hc|].
  cbn [split_runs]. destruct (is_sep x) eqn:Hx.
  - apply elem_of_cons in Hc as [->|Hc]; [congruence|].
    destruct (IH Hc true) as (p & Hp & Hcp). exists p.
    destruct b; [done | split; [by right | done]].
  - apply elem_of_cons in Hc as [->|Hc].
    + destruct (split_runs is_sep false r) as [|h t]; eexists; (split; [left | left]).
    + destruct (IH Hc false) as (p & Hp & Hcp).
      destruct (split_runs is_sep false r) as [|h t]; [by apply elem_of_nil in Hp|].
      apply elem_of_cons in Hp as [->|Hp].
      * exists (x :: h). split; [left | by right].
      * exists p. split; [by right | done].
Qed.

Lemma strip_nonempty p c : c ∈ p → isspace c = false → strip p ≠ [].
Proof.
  intros Hc Hs. unfold strip.
  destruct (lstrip_spaces p) as (a & Ha & Hsa).
  destruct (rstrip_spaces (lstrip p)) as (b & Hb & Hsb).
  assert (∀ l, Forall (λ c, isspace c = true) l → c ∉ l) as Hout.
  { intros l Hl Hin. rewrite Forall_forall in Hl. specialize (Hl c Hin). congruence. }
  rewrite Ha, elem_of_app in Hc. destruct Hc as [Hc|Hc]; [by apply Hout in Hc|].
  rewrite Hb, elem_of_app in Hc. destruct Hc as [Hc|Hc]; [|by apply Hout in Hc].
  intros Hnil. rewrite Hnil in Hc. by apply elem_of_nil in Hc.
Qed.

Lemma count_nonblank_pos parts p : p ∈ parts → strip p ≠ [] → 0 < count_nonblank parts.
Proof.
  induction parts as [|q parts IH]; intros Hp Hne; [by apply elem_of_nil in Hp|].
  simpl. apply elem_of_cons in Hp as [->|Hp].
  - destruct (strip q); [done | lia].
  - specialize (IH Hp Hne). destruct (strip q); lia.
Qed.

Lemma sentence_count_pos text c :
  c ∈ text → isspace c = false → is_sentence_end c = false → 0 < sentence_count text.
Proof.
  intros Hc Hs He. unfold sentence_count, SENT_SPLIT_RE_split.
  destruct (split_runs_covers is_sentence_end text c Hc He false) as (p & Hp & Hcp).
  apply (count_nonblank_pos _ p Hp). by apply (strip_nonempty p c).
Qed.

(** Block removal brings in no character but the space. *)
Lemma remove_tag_block_loop_chars open_pat close_pat fuel : ∀ html low r x,
  remove_tag_block_loop fuel open_pat close_pat html low = Some r →
  x ∈ r → x = 32%N ∨ x ∈ html.
Proof.
  induction fuel as [|fuel IH]; intros html low r x; [done|].
  cbn [remove_tag_block_loop].
  destruct (find low open_pat) as [start|]; [|intros [= <-]; by right].
  destruct (find_from low close_pat start) as [e|].
  - intros Hr Hx. destruct (IH _ _ _ _ Hr Hx) as [->|Hin]; [by left|].
    apply elem_of_app in Hin as [Hin|Hin].
    + right. by eapply subseteq_take.
    + apply elem_of_cons in Hin as [->|Hin]; [by left|].
      right. by eapply subseteq_drop.
  - intros [= <-] Hx. right. by eapply subseteq_take.
Qed.

Lemma strip_html_chars fuel html text links images x :
  strip_html fuel html = Some (text, links, images) →
  x ∈ text → x = 32%N ∨ x ∈ html.
Proof.
  unfold strip_html, remove_tag_block.
  destruct (remove_tag_block_loop fuel _ _ html _) as [html1|] eqn:H1; [|done].
  cbn [mbind option_bind].
  destruct (remove_tag_block_loop fuel _ _ html1 _) as [html2|] eqn:H2; [|done].
  cbn [mbind option_bind]. intros [= <- _ _] Hx.
  destruct (strip_infix (WS_RE_sub (TAG_RE_sub html2))) as (a & b & Hab).
  assert (x ∈ WS_RE_sub (TAG_RE_sub html2)) as Hin.
  { rewrite Hab, !elem_of_app. by right; left. }
  apply elem_of_ws_sub in Hin as [->|Hin]; [by left|].
  apply elem_of_tag_sub in Hin as [->|Hin]; [by left|].
  destruct (remove_tag_block_loop_chars _ _ _ _ _ _ _ H2 Hin) as [->|Hin1]; [by left|].
  by apply (remove_tag_block_loop_chars _ _ _ _ _ _ _ H1).
Qed.

(** The text of a Latin-1 page is a Latin-1 text. *)
Lemma strip_html_within_latin_1 fuel html text links images :
  within_latin_1 html →
  strip_html fuel html = Some (text, links, images) → within_latin_1 text.
Proof.
  intros Hlatin Hret. apply Forall_forall. intros x Hx.
  destruct (strip_html_chars _ _ _ _ _ _ Hret Hx) as [->|Hin]; [lia|].
  unfold within_latin_1 in Hlatin. rewrite Forall_forall in Hlatin. by apply Hlatin.
Qed.

(** Lowering a Latin-1 text moves no boundary between tokens. *)
Lemma findall_word_lower t :
  within_latin_1 t →
  ∀ cur cur', (cur = [] ↔ cur' = []) →
    length (findall_word cur' (lower t)) = length (findall_word cur t).
Proof.
  induction 1 as [|c t Hc _ IH]; intros cur cur' Hcur.
  - simpl. destruct cur, cur'; try done; naive_solver.
  - change (lower (c :: t)) with (lower_cp c ++ lower t).
    destruct (lower_latin_1 c Hc) as (d & -> & _ & Hw & _).
    cbn [app findall_word]. rewrite Hw. destruct (is_word c).
    + apply IH. done.
    + destruct cur, cur'; try (simpl; f_equal; by apply IH); naive_solver.
Qed.

Lemma sentence_count_nil : sentence_count [] = 0.
Proof. reflexivity. Qed.

Lemma process_one_file_inr fuel (w : world) path html d :
  read_text_file w path = inr html →
  process_one_file fuel w path = Some (inr d) →
  ∃ links images, strip_html fuel html = Some (text d, links, images)
    ∧ stats d = {| word_count := length (WORD_RE_findall (text d));
                   sentence_count_ := sentence_count (text d);
                   paragraph_count := count_paragraphs html (text d);
                   avg_word_length_ := avg_word_length (WORD_RE_findall (text d)) |}.
Proof.
  intros Hread. unfold process_one_file. rewrite Hread.
  destruct (strip_html fuel html) as [[[t links] images]|]; [|done].
  cbn [mbind option_bind]. intros [= <-]. by exists links, images.
Qed.
End Statistics.

(** ** The manifest of the processor *)

Section Manifest.
Import Processor.

Lemma failed_is_not_success : py "failed" ≠ py "success".
Proof. intros H. apply py_inj in H. done. Qed.

(** One turn of the loop adds one entry for its file; a success entry comes
    with one document at the output path of the file, a failed entry with
    none. *)
Lemma process_step_entry fuel (w : world) f st st' :
  process_step fuel w f st = Some st' →
  ∃ e, st_results st' = st_results st ++ [e] ∧ r_source_file e = f
    ∧ ((r_status e = py "success" ∧ ok st' = ok st + 1 ∧ bad st' = bad st
        ∧ ∃ d, written st' = written st ++ [(out_path_of f, d)])
       ∨ (r_status e = py "failed" ∧ ok st' = ok st ∧ bad st' = bad st + 1
          ∧ written st' = written st)).
Proof.
  unfold process_step. destruct (process_one_file fuel w _) as [[e|d]|]; [| |done].
  - cbn [mbind option_bind]. intros [= <-]. eexists. split_and!; [done | done |].
    right. by split_and!.
  - cbn [mbind option_bind]. destruct (write_json w (out_path_of f)) as [e|];
      intros [= <-]; eexists; (split_and!; [done | done |]).
    + right. by split_and!.
    + left. split_and!; [done | done | done |]. by exists d.
Qed.

Lemma process_loop_entries fuel (w : world) files : ∀ st st',
  process_loop fuel w files st = Some st' →
  ∃ es, st_results st' = st_results st ++ es
    ∧ r_source_file <$> es = files
    ∧ ok st' = ok st + length (filter (λ e, r_status e = py "success") es)
    ∧ bad st' = bad st + length (filter (λ e, r_status e = py "failed") es)
    ∧ Forall (λ e, r_status e = py "success" ∨ r_status e = py "failed") es
    ∧ ∃ ds, written st' = written st ++ ds
        ∧ ds.*1 = out_path_of <$>
                    (r_source_file <$> filter (λ e, r_status e = py "success") es).
Proof.
  induction files as [|f files IH]; intros st st'.
  - intros [= <-]. exists []. rewrite app_nil_r. simpl.
    split_and!; [done | done | lia | lia | done |]. exists []. by rewrite app_nil_r.
  - cbn [process_loop]. destruct (process_step fuel w f st) as [st1|] eqn:Hstep; [|done].
    cbn [mbind option_bind]. intros Hloop.
    destruct (process_step_entry _ _ _ _ _ Hstep) as (e & Hres & Hsrc & Hcase).
    destruct (IH _ _ Hloop) as (es & Hres' & Hsrc' & Hok & Hbad & Hmark & ds & Hw & Hds).
    exists (e :: es). rewrite Hres', Hres, <- app_assoc.
    destruct Hcase as [(Hs & Hok1 & Hbad1 & d & Hw1)|(Hs & Hok1 & Hbad1 & Hw1)].
    + rewrite !filter_cons, Hs, decide_True by done.
      rewrite decide_False by (intros H; symmetry in H; by apply failed_is_not_success in H).
      split_and!; [done | by rewrite fmap_cons, Hsrc, Hsrc' | simpl; lia | lia
                  | constructor; [by left | done] |].
      exists ((out_path_of f, d) :: ds). rewrite Hw, Hw1, <- app_assoc.
      split; [done|]. rewrite !fmap_cons. cbn [fst]. by rewrite Hds, Hsrc.
    + rewrite !filter_cons, Hs.
      rewrite decide_False by apply failed_is_not_success.
      rewrite decide_True by done.
      split_and!; [done | by rewrite fmap_cons, Hsrc, Hsrc' | lia | simpl; lia
                  | constructor; [by right | done] |].
      exists ds. by rewrite Hw, Hw1.
Qed.
End Manifest.

(** The statistics that the processor records for a page of Latin-1
    characters.  The extracted text is of Latin-1 characters too.  The
    sentence count is the number of sentences that the analyzer will find in
    that text, and the word count is the number of tokens that the analyzer
    will count in it.  A text with a token has at least one sentence and one
    paragraph, and an average word length of at least 1; without a token the
    average word length is 0; and a page with no paragraph has an empty
    text, no [<p] tag, no word and no sentence. *)
Theorem document_statistics_are_consistent
    (fuel : nat) (w : Processor.world) (path html : pystr) (d : Processor.document) :
  Processor.read_text_file w path = inr html →
  within_latin_1 html →
  Processor.process_one_file fuel w path = Some (inr d) →
  let st := Processor.stats d in
  within_latin_1 (Processor.text d)
  ∧ Processor.sentence_count_ st = length (Analyzer.split_sentences (Processor.text d))
  ∧ Processor.word_count st = length (Analyzer.tokenize_words_lower (Processor.text d))
  ∧ (Processor.word_count st = 0 → (Processor.avg_word_length_ st == 0)%Q)
  ∧ (0 < Processor.word_count st →
       1 ≤ Processor.sentence_count_ st
       ∧ 1 ≤ Processor.paragraph_count st
       ∧ (1 <= Processor.avg_word_length_ st)%Q)
  ∧ (Processor.paragraph_count st = 0 →
       Processor.text d = [] ∧ P_TAG_RE_count html = 0
       ∧ Processor.word_count st = 0 ∧ Processor.sentence_count_ st = 0).
Proof.
  intros Hread Hlatin Hrun st.
  destruct (process_one_file_inr fuel w path html d Hread Hrun)
    as (links & images & Hstrip & Hstats).
  subst st. rewrite Hstats. cbn [Processor.word_count Processor.sentence_count_
    Processor.paragraph_count Processor.avg_word_length_].
  assert (strip (Processor.text d) = Processor.text d) as Hstripped.
  { apply strip_html_text in Hstrip as (html2 & -> & _). apply strip_idemp. }
  pose proof (strip_html_within_latin_1 _ _ _ _ _ Hlatin Hstrip) as Htext.
  set (t := Processor.text d) in *.
  assert (0 < length (WORD_RE_findall t) →
          ∃ c, c ∈ t ∧ isspace c = false ∧ is_sentence_end c = false) as Hchar.
  { intros Hpos. destruct (findall_word_char t) as (c & Hc & Hw).
    - intros Hnil. rewrite Hnil in Hpos. simpl in Hpos. lia.
    - exists c. split; [done|]. apply word_latin_1; [|done].
      unfold within_latin_1 in Htext. rewrite Forall_forall in Htext. by apply Htext. }
  split_and!.
  - done.
  - apply count_nonblank_length.
  - unfold Analyzer.tokenize_words_lower, WORD_RE_findall. symmetry.
    by apply findall_word_lower.
  - intros H0. unfold Processor.avg_word_length. by rewrite H0.
  - intros Hpos. destruct (Hchar Hpos) as (c & Hc & Hs & He). split_and!.
    + by apply (sentence_count_pos t c).
    + unfold Processor.count_paragraphs.
      destruct (Nat.ltb_spec 0 (P_TAG_RE_count html)) as [Hp|Hp]; [lia|].
      rewrite Hstripped. destruct t; [by apply elem_of_nil in Hc | lia].
    + pose proof (findall_word_proper t [] (Forall_nil_2 _)) as Hproper.
      fold (WORD_RE_findall t) in Hproper.
      pose proof (total_length_proper _ Hproper) as Hle.
      unfold Processor.avg_word_length.
      destruct (length (WORD_RE_findall t)) as [|n] eqn:Hn; [lia|].
      unfold Qle. simpl. rewrite Zpos_of_nat by lia. lia.
  - unfold Processor.count_paragraphs.
    destruct (Nat.ltb_spec 0 (P_TAG_RE_count html)) as [Hp|Hp]; [lia|].
    rewrite Hstripped. destruct t as [|c t']; [|done]. intros _.
    split_and!; [done | lia | done | done].
Qed.

Lemma document_statistics_are_consistent_witness :
  ∃ d, Processor.process_one_file 40 Examples.mixed_raw_dir (py "/shared/raw/page_1.html")
       = Some (inr d)
    ∧ let st := Processor.stats d in
      let html := py "<script>x</script><p>Hello world.</p>" in
      within_latin_1 (Processor.text d)
      ∧ Processor.sentence_count_ st = length (Analyzer.split_sentences (Processor.text d))
      ∧ Processor.word_count st
        = length (Analyzer.tokenize_words_lower (Processor.text d))
      ∧ (Processor.word_count st = 0 → (Processor.avg_word_length_ st == 0)%Q)
      ∧ (0 < Processor.word_count st →
           1 ≤ Processor.sentence_count_ st
           ∧ 1 ≤ Processor.paragraph_count st
           ∧ (1 <= Processor.avg_word_length_ st)%Q)
      ∧ (Processor.paragraph_count st = 0 →
           Processor.text d = [] ∧ P_TAG_RE_count html = 0
           ∧ Processor.word_count st = 0 ∧ Processor.sentence_count_ st = 0).
Proof.
  eexists. split; [vm_compute; reflexivity|].
  apply (document_statistics_are_consistent 40 Examples.mixed_raw_dir
           (py "/shared/raw/page_1.html") (py "<script>x</script><p>Hello world.</p>")).
  - vm_compute. reflexivity.
  - refine (bool_decide_unpack _ _). vm_compute. exact I.
  - vm_compute. reflexivity.
Defined.

(** The manifest of the processor follows the sorted listing.  Whenever the
    processor ends, the source files of the entries are the [.html] names of
    the raw directory in ascending order; every entry is marked success or
    failed; the two counters count the entries so marked and add up to the
    number of files; and the documents written are, in the same order, one
    for each success entry, at the output path of its source file. *)
Theorem manifest_follows_the_sorted_listing
    (fuel : nat) (w : Processor.world) (names : list pystr) (out : Processor.output) :
  Processor.raw_dir w = Some names →
  Processor.main fuel w = Some out →
  let m := Processor.status_file out in
  let entries := Processor.results m in
  let done := filter (λ e, Processor.r_status e = py "success") entries in
  Processor.r_source_file <$> entries ≡ₚ filter (λ n, Processor.is_html n) names
  ∧ StronglySorted Processor.name_le (Processor.r_source_file <$> entries)
  ∧ Forall (λ e, Processor.r_status e = py "success" ∨ Processor.r_status e = py "failed")
      entries
  ∧ Processor.files_processed m = length entries
  ∧ Processor.successful m = length done
  ∧ Processor.failed m
    = length (filter (λ e, Processor.r_status e = py "failed") entries)
  ∧ Processor.successful m + Processor.failed m = Processor.files_processed m
  ∧ (Processor.documents out).*1 = Processor.out_path_of <$> (Processor.r_source_file <$> done).
Proof.
  intros Hdir Hmain m entries done'. subst m entries done'.
  unfold Processor.main in Hmain. rewrite Hdir in Hmain.
  set (raw_files := merge_sort Processor.name_le (filter (λ n, Processor.is_html n) names))
    in *.
  destruct (Processor.process_loop fuel w raw_files _) as [st|] eqn:Hloop; [|done].
  cbn [mbind option_bind] in Hmain. injection Hmain as <-.
  destruct (process_loop_entries _ _ _ _ _ Hloop)
    as (es & Hres & Hsrc & Hok & Hbad & Hmark & ds & Hw & Hds).
  cbn [Processor.status_file Processor.results Processor.files_processed
       Processor.successful Processor.failed Processor.documents].
  simpl in Hres, Hok, Hbad, Hw. rewrite Hres, Hw, Hsrc, Hok, Hbad.
  assert (length es = length raw_files) as Hlen by (by rewrite <- Hsrc, length_fmap).
  assert (length (filter (λ e, Processor.r_status e = py "success") es)
          + length (filter (λ e, Processor.r_status e = py "failed") es) = length es)
    as Hsum.
  { clear -Hmark. induction Hmark as [|e es [He|He] _ IH]; [done| |];
      rewrite !filter_cons, He.
    - rewrite decide_True by done.
      rewrite decide_False by (intros H; symmetry in H; by apply failed_is_not_success in H).
      simpl. lia.
    - rewrite decide_False by apply failed_is_not_success.
      rewrite decide_True by done. simpl. lia. }
  split_and!.
  - subst raw_files. apply merge_sort_Permutation.
  - subst raw_files. apply StronglySorted_merge_sort; apply _.
  - done.
  - done.
  - done.
  - done.
  - lia.
  - done.
Qed.

Lemma manifest_follows_the_sorted_listing_witness :
  ∃ out, Processor.main 40 Examples.mixed_raw_dir = Some out
    ∧ let names := [py "page_2.html"; py "notes.txt"; py "page_1.html"] in
      let m := Processor.status_file out in
      let entries := Processor.results m in
      let done := filter (λ e, Processor.r_status e = py "success") entries in
      Processor.r_source_file <$> entries ≡ₚ filter (λ n, Processor.is_html n) names
      ∧ StronglySorted Processor.name_le (Processor.r_source_file <$> entries)
      ∧ Forall (λ e, Processor.r_status e = py "success"
                     ∨ Processor.r_status e = py "failed") entries
      ∧ Processor.files_processed m = length entries
      ∧ Processor.successful m = length done
      ∧ Processor.failed m
        = length (filter (λ e, Processor.r_status e = py "failed") entries)
      ∧ Processor.successful m + Processor.failed m = Processor.files_processed m
      ∧ (Processor.documents out).*1
        = Processor.out_path_of <$> (Processor.r_source_file <$> done).
Proof.
  eexists. split; [vm_compute; reflexivity|].
  apply (manifest_follows_the_sorted_listing 40 Examples.mixed_raw_dir
           [py "page_2.html"; py "notes.txt"; py "page_1.html"]).
  - reflexivity.
  - vm_compute. reflexivity.
Defined.

(** ** File names from stage to stage *)

Section Names.
Import Processor.

Lemma rsplit1_head_app sep base ext :
  sep ∉ ext → rsplit1_head sep (base ++ sep :: ext) = base.
Proof.
  intros Hext. induction base as [|c base IH]; simpl.
  - rewrite bool_decide_eq_false_2 by done. by rewrite N.eqb_refl.
  - rewrite bool_decide_eq_true_2; [by rewrite IH|].
    apply elem_of_app. right. left.
Qed.

Lemma out_path_of_app base ext :
  46%N ∉ ext →
  out_path_of (base ++ 46%N :: ext) = PROCESSED_DIR ++ py "/" ++ base ++ py ".json".
Proof.
  intros Hext. unfold out_path_of.
  rewrite bool_decide_eq_true_2 by (apply elem_of_app; right; left).
  by rewrite rsplit1_head_app.
Qed.

Lemma snoc_case {A} (l : list A) : l = [] ∨ ∃ l' x, l = l' ++ [x].
Proof. induction l using rev_ind; [by left | right; by eexists _, _]. Qed.

Lemma startswith_refl p : startswith p p = true.
Proof. induction p as [|a p IH]; [done|]. simpl. by rewrite N.eqb_refl. Qed.

Lemma endswith_app s p : endswith (s ++ p) p = true.
Proof.
  unfold endswith. rewrite reverse_app. apply startswith_app, startswith_refl.
Qed.

(** The last character of a name whose lowercase form ends with [a]. *)
Lemma endswith_lower_snoc n c a p :
  a ≠ 775%N →
  startswith (reverse (lower (n ++ [c]))) (a :: p) = true →
  lower_cp c = [a] ∧ startswith (reverse (lower n)) p = true.
Proof.
  intros Ha. rewrite lower_app, reverse_app.
  change (lower [c]) with (lower_cp c ++ []). rewrite app_nil_r.
  destruct (lower_cp_shape c) as (d & rest & -> & _ & _ & [->|(_ & _ & ->)]).
  - change (reverse [d]) with [d]. cbn [app]. rewrite startswith_cons.
    destruct (N.eqb_spec d a) as [->|]; simpl; [by intros ? | done].
  - change (reverse [d; 775%N]) with [775%N; d]. cbn [app]. rewrite startswith_cons.
    destruct (N.eqb_spec 775 a) as [<-|]; simpl; [done | done].
Qed.

Lemma lower_cp_dot c : lower_cp c = [46%N] → c = 46%N.
Proof.
  unfold lower_cp, in_range.
  repeat match goal with
  | |- context [(?a <=? c)%N] => destruct (N.leb_spec a c)
  | |- context [(c <=? ?b)%N] => destruct (N.leb_spec c b)
  | |- context [(c =? ?b)%N] => destruct (N.eqb_spec c b)
  end; simpl; intros [= Heq]; lia.
Qed.

(** A name that the processor takes as a page ends with a dot and the four
    letters of [html], in either case. *)
Lemma is_html_extension fname :
  is_html fname = true →
  ∃ base ext, fname = base ++ 46%N :: ext
    ∧ lower ext = py "html" ∧ length ext = 4 ∧ (46%N ∉ ext).
Proof.
  unfold is_html, endswith. change (reverse (py ".html")) with (py "lmth.").
  intros H.
  destruct (snoc_case fname) as [->|(n1 & c1 & ->)]; [done|].
  apply endswith_lower_snoc in H as [H1 H]; [|done].
  destruct (snoc_case n1) as [->|(n2 & c2 & ->)]; [done|].
  apply endswith_lower_snoc in H as [H2 H]; [|done].
  destruct (snoc_case n2) as [->|(n3 & c3 & ->)]; [done|].
  apply endswith_lower_snoc in H as [H3 H]; [|done].
  destruct (snoc_case n3) as [->|(n4 & c4 & ->)]; [done|].
  apply endswith_lower_snoc in H as [H4 H]; [|done].
  destruct (snoc_case n4) as [->|(n5 & c5 & ->)]; [done|].
  apply endswith_lower_snoc in H as [H5 _]; [|done].
  apply lower_cp_dot in H5 as ->.
  exists n5, [c4; c3; c2; c1]. split_and!.
  - by rewrite <- !app_assoc.
  - change (lower [c4; c3; c2; c1])
      with (lower_cp c4 ++ lower_cp c3 ++ lower_cp c2 ++ lower_cp c1 ++ []).
    by rewrite H1, H2, H3, H4.
  - done.
  - intros Hin. repeat (apply elem_of_cons in Hin as [<-|Hin]); try done.
    by apply elem_of_nil in Hin.
Qed.

(** *** The names that the fetcher gives *)

Lemma py_cons a s : py (String a s) = N_of_ascii a :: py s.
Proof. reflexivity. Qed.

Lemma digits_of_uint u :
  Forall (λ c, (48 ≤ c ≤ 57)%N) (py (NilEmpty.string_of_uint u)).
Proof.
  induction u; cbn [NilEmpty.string_of_uint]; rewrite ?py_cons;
    [constructor|..]; (constructor; [vm_compute; split; discriminate | done]).
Qed.

Lemma str_of_nat_digits n : Forall (λ c, (48 ≤ c ≤ 57)%N) (str_of_nat n).
Proof. apply digits_of_uint. Qed.

Lemma digits_lower s : Forall (λ c, (48 ≤ c ≤ 57)%N) s → lower s = s.
Proof.
  intros Hs. apply lower_fixed. eapply Forall_impl; [exact Hs|].
  intros c Hc. simpl in Hc. unfold lower_cp, in_range.
  repeat match goal with
  | |- context [(?a <=? c)%N] => destruct (N.leb_spec a c)
  | |- context [(c <=? ?b)%N] => destruct (N.leb_spec c b)
  | |- context [(c =? ?b)%N] => destruct (N.eqb_spec c b)
  end; simpl; try reflexivity; exfalso; lia.
Qed.

Lemma digits_without s x :
  Forall (λ c, (48 ≤ c ≤ 57)%N) s → (x < 48)%N → x ∉ s.
Proof.
  intros Hs Hx Hin. rewrite Forall_forall in Hs. specialize (Hs x Hin). lia.
Qed.

Lemma page_stem_lower i :
  lower (py "page_" ++ str_of_nat (i + 1)) = py "page_" ++ str_of_nat (i + 1).
Proof.
  rewrite lower_app, (digits_lower (str_of_nat (i + 1))) by apply str_of_nat_digits.
  done.
Qed.
End Names.

(** The output file of a page.  A name that the processor takes as a page
    is a base, a dot, and four letters that spell [html] in some letter
    case.  The document goes to the processed directory under the base with
    [.json] in place of the extension, a name that the analyzer takes as a
    document; the manifest records that name when the base has no slash; and
    the path is the same for every other extension put after the base, so
    that two pages whose names differ in the extension only share their
    output file. *)
Theorem output_path_replaces_the_extension (fname : pystr) :
  Processor.is_html fname = true →
  ∃ base ext, fname = base ++ 46%N :: ext
    ∧ lower ext = py "html" ∧ length ext = 4 ∧ (46%N ∉ ext)
    ∧ Processor.out_path_of fname
      = Processor.PROCESSED_DIR ++ py "/" ++ base ++ py ".json"
    ∧ Analyzer.is_json (base ++ py ".json") = true
    ∧ (47%N ∉ base →
         split_last 47 (Processor.out_path_of fname) = base ++ py ".json")
    ∧ ∀ ext', 46%N ∉ ext' →
        Processor.out_path_of (base ++ 46%N :: ext') = Processor.out_path_of fname.
Proof.
  intros Hhtml.
  destruct (is_html_extension fname Hhtml) as (base & ext & -> & Hlow & Hlen & Hdot).
  exists base, ext. rewrite out_path_of_app by done. split_and!; try done.
  - unfold Analyzer.is_json. rewrite lower_app.
    change (lower (py ".json")) with (py ".json"). apply endswith_app.
  - intros Hslash.
    change (Processor.PROCESSED_DIR ++ py "/" ++ base ++ py ".json")
      with (Processor.PROCESSED_DIR ++ 47%N :: (base ++ py ".json")).
    apply split_last_app. rewrite elem_of_app. intros [H|H]; [done|].
    revert H. apply (bool_decide_eq_false_1 (47%N ∈ py ".json")). vm_compute. done.
  - intros ext' Hext'. by apply out_path_of_app.
Qed.

Lemma output_path_replaces_the_extension_witness :
  ∃ base ext, py "Page.1.HTML" = base ++ 46%N :: ext
    ∧ lower ext = py "html" ∧ length ext = 4 ∧ (46%N ∉ ext)
    ∧ Processor.out_path_of (py "Page.1.HTML")
      = Processor.PROCESSED_DIR ++ py "/" ++ base ++ py ".json"
    ∧ Analyzer.is_json (base ++ py ".json") = true
    ∧ (47%N ∉ base →
         split_last 47 (Processor.out_path_of (py "Page.1.HTML")) = base ++ py ".json")
    ∧ ∀ ext', 46%N ∉ ext' →
        Processor.out_path_of (base ++ 46%N :: ext')
        = Processor.out_path_of (py "Page.1.HTML").
Proof.
  apply (output_path_replaces_the_extension (py "Page.1.HTML")).
  vm_compute. reflexivity.
Defined.

(** From stage to stage.  The file that the fetcher writes for the URL at
    position [i] has a name that the processor takes as a page; its document
    goes to [page_<i+1>.json] in the processed directory, a name that the
    analyzer takes as a document; and the pages of two positions never share
    their output file. *)
Theorem fetched_pages_flow_through_the_stages (i : nat) :
  Processor.is_html (page_name i) = true
  ∧ Processor.out_path_of (page_name i)
    = Processor.PROCESSED_DIR ++ py "/page_" ++ str_of_nat (i + 1) ++ py ".json"
  ∧ split_last 47 (Processor.out_path_of (page_name i))
    = py "page_" ++ str_of_nat (i + 1) ++ py ".json"
  ∧ Analyzer.is_json (split_last 47 (Processor.out_path_of (page_name i))) = true
  ∧ ∀ j, Processor.out_path_of (page_name i) = Processor.out_path_of (page_name j) → i = j.
Proof.
  assert (∀ k, Processor.out_path_of (page_name k)
               = Processor.PROCESSED_DIR ++ py "/page_" ++ str_of_nat (k + 1) ++ py ".json")
    as Hpath.
  { intros k. unfold page_name.
    change (py "page_" ++ str_of_nat (k + 1) ++ py ".html")
      with (py "page_" ++ str_of_nat (k + 1) ++ 46%N :: py "html").
    rewrite app_assoc, out_path_of_app.
    2:{ apply (bool_decide_eq_false_1 (46%N ∈ py "html")). vm_compute. done. }
    by rewrite <- app_assoc. }
  assert (split_last 47 (Processor.out_path_of (page_name i))
          = py "page_" ++ str_of_nat (i + 1) ++ py ".json") as Hlast.
  { rewrite Hpath.
    change (Processor.PROCESSED_DIR ++ py "/page_" ++ str_of_nat (i + 1) ++ py ".json")
      with (Processor.PROCESSED_DIR ++ 47%N :: (py "page_" ++ str_of_nat (i + 1) ++ py ".json")).
    apply split_last_app. rewrite !elem_of_app. intros [H|[H|H]]; revert H.
    - apply (bool_decide_eq_false_1 (47%N ∈ py "page_")). vm_compute. done.
    - apply digits_without; [apply str_of_nat_digits | lia].
    - apply (bool_decide_eq_false_1 (47%N ∈ py ".json")). vm_compute. done. }
  split_and!.
  - unfold Processor.is_html, page_name.
    rewrite app_assoc, lower_app, page_stem_lower.
    change (lower (py ".html")) with (py ".html"). apply endswith_app.
  - apply Hpath.
  - done.
  - rewrite Hlast. unfold Analyzer.is_json.
    rewrite app_assoc, lower_app, page_stem_lower.
    change (lower (py ".json")) with (py ".json"). apply endswith_app.
  - intros j Heq. rewrite !Hpath in Heq.
    apply app_inv_head in Heq.
    apply app_inv_head in Heq. apply app_inv_tail in Heq.
    apply str_of_nat_inj in Heq. lia.
Qed.

(** ** Sentences *)

Section Sentences.
Import Analyzer.

Lemma split_runs_no_separator is_sep s : ∀ b p,
  p ∈ split_runs is_sep b s → Forall (λ c, is_sep c = false) p.
Proof.
  induction s as [|x r IH]; intros b p; cbn [split_runs].
  - intros Hp. apply list_elem_of_singleton in Hp as ->. constructor.
  - destruct (is_sep x) eqn:Hx.
    + destruct b; [apply IH|]. intros Hp. apply elem_of_cons in Hp as [->|Hp];
        [constructor | by eapply IH].
    + pose proof (IH false) as IHf.
      destruct (split_runs is_sep false r) as [|h t].
      * intros Hp. apply list_elem_of_singleton in Hp as ->. by repeat constructor.
      * intros Hp. apply elem_of_cons in Hp as [->|Hp].
        -- constructor; [done|]. apply IHf. left.
        -- apply IHf. by right.
Qed.

(** Without a separator the text is one piece. *)
Lemma split_runs_one_piece is_sep s :
  Forall (λ c, is_sep c = false) s → split_runs is_sep false s = [s].
Proof.
  induction 1 as [|x r Hx _ IH]; [done|]. cbn [split_runs]. by rewrite Hx, IH.
Qed.

Lemma elem_of_strip_nonblank parts s :
  s ∈ strip_nonblank parts ↔ s ≠ [] ∧ ∃ p, p ∈ parts ∧ s = strip p.
Proof.
  induction parts as [|q parts IH]; cbn [strip_nonblank].
  - split; [intros H; by apply elem_of_nil in H|].
    intros (_ & p & H & _). by apply elem_of_nil in H.
  - destruct (strip q) as [|c t] eqn:Hq.
    + rewrite IH. split; intros (Hne & p & Hp & ->); (split; [done|]).
      * exists p. split; [by right | done].
      * apply elem_of_cons in Hp as [->|Hp]; [congruence | by exists p].
    + rewrite elem_of_cons, IH. split.
      * intros [->|(Hne & p & Hp & ->)]; (split; [done|]).
        -- exists q. split; [left | done].
        -- exists p. split; [by right | done].
      * intros (Hne & p & Hp & ->). apply elem_of_cons in Hp as [->|Hp].
        -- by left.
        -- right. split; [done|]. by exists p.
Qed.

Lemma strip_subseteq p : strip p ⊆ p.
Proof.
  destruct (strip_infix p) as (a & b & Hab). intros c Hc.
  rewrite Hab, !elem_of_app. by right; left.
Qed.
End Sentences.

(** The sentences of a text.  Each is a piece of the text between runs of
    [.], [!] and [?], trimmed: not empty, without whitespace at either end,
    without sentence punctuation.  A text without sentence punctuation is
    one sentence, itself trimmed, or none when it is blank.  The sentence
    count of the processor is the number of these sentences.  And no token
    of a text of Latin-1 characters is lost or cut by the splitting: the
    tokens of its sentences are as many as the tokens of the text. *)
Theorem sentences_are_trimmed_pieces (text : pystr) :
  Forall (λ s, s ≠ [] ∧ strip s = s ∧ Forall (λ c, is_sentence_end c = false) s)
    (Analyzer.split_sentences text)
  ∧ (Forall (λ c, is_sentence_end c = false) text →
       Analyzer.split_sentences text
       = if decide (strip text = []) then [] else [strip text])
  ∧ Processor.sentence_count text = length (Analyzer.split_sentences text)
  ∧ (within_latin_1 text →
       Analyzer.sentence_words (Analyzer.split_sentences text)
       = length (Analyzer.tokenize_words_lower text)).
Proof.
  split_and!.
  - apply Forall_forall. intros s Hs. unfold Analyzer.split_sentences in Hs.
    apply elem_of_strip_nonblank in Hs as (Hne & p & Hp & ->).
    split_and!; [done | apply strip_idemp |].
    apply split_runs_no_separator in Hp. rewrite Forall_forall in Hp |- *.
    intros c Hc. by apply Hp, strip_subseteq.
  - intros Hall. unfold Analyzer.split_sentences, SENT_SPLIT_RE_split.
    rewrite split_runs_one_piece by done. cbn [Analyzer.strip_nonblank].
    destruct (strip text); by case_decide.
  - apply count_nonblank_length.
  - apply sentence_words_all.
Qed.

(** ** Links and images *)

Section Attributes.

Lemma match_name_prefix name : ∀ s r,
  match_name name s = Some r →
  ∃ k, s = k ++ r ∧ Forall2 (λ c a, c = a ∨ (c + 32)%N = a) k name.
Proof.
  induction name as [|a name IH]; intros s r; cbn [match_name].
  - intros [= <-]. by exists [].
  - destruct s as [|c s]; [done|].
    destruct ((c =? a) || (c + 32 =? a))%N eqn:Hc; [|done].
    intros Hm. destruct (IH _ _ Hm) as (k & -> & Hk).
    exists (c :: k). split; [done|]. constructor; [|done].
    apply orb_true_iff in Hc as [Hc|Hc]; apply N.eqb_eq in Hc; [by left | by right].
Qed.

Lemma take_value_rest s :
  ∃ b, s = take_value s ++ b
    ∧ match b with [] => True | c :: _ => is_value_char c = false end.
Proof.
  induction s as [|c s (b & IH & Hb)]; [by exists []|]. cbn [take_value].
  destruct (is_value_char c) eqn:Hc.
  - exists b. split; [simpl; by f_equal | done].
  - by exists (c :: s).
Qed.

Lemma match_attr_captures name t v n :
  match_attr name t = Some (v, n) → captures name v t.
Proof.
  intros Hm. pose proof (match_attr_proper _ _ _ _ Hm) as Hv.
  unfold match_attr in Hm.
  destruct (match_name name t) as [[|x r]|] eqn:Hname; [done| |done].
  destruct (decide (x = 61%N)) as [->|Hx]; [|by repeat case_match].
  destruct (match_name_prefix _ _ _ Hname) as (k & -> & Hk).
  destruct r as [|q r]; [done|].
  destruct ((q =? 39) || (q =? 34))%N eqn:Hq; cbn [drop] in Hm; rewrite ?drop_0 in Hm.
  - destruct (take_value_rest r) as (b & Hr & Hb).
    destruct (take_value r) as [|y v'] eqn:Hval; [done|]. injection Hm as <- _.
    exists k, [q], b. split_and!; [by rewrite Hr at 1 | done | | done | done].
    apply orb_true_iff in Hq as [Hq|Hq]; apply N.eqb_eq in Hq; subst q;
      [by right; left | by right; right].
  - destruct (take_value_rest (q :: r)) as (b & Hr & Hb).
    destruct (take_value (q :: r)) as [|y v'] eqn:Hval; [done|]. injection Hm as <- _.
    exists k, [], b. split_and!; [by rewrite Hr at 1 | done | by left | done | done].
Qed.

Lemma attr_findall_captures name s v : ∀ skip,
  v ∈ attr_findall name skip s → ∃ a t, s = a ++ t ∧ captures name v t.
Proof.
  induction s as [|c s IH]; intros skip; cbn [attr_findall].
  - intros H. by apply elem_of_nil in H.
  - assert (∀ k, v ∈ attr_findall name k s → ∃ a t, c :: s = a ++ t ∧ captures name v t)
      as Hrest.
    { intros k Hv. destruct (IH k Hv) as (a & t & -> & Hc). by exists (c :: a), t. }
    destruct skip as [|k]; [|apply Hrest].
    destruct (match_attr name (c :: s)) as [[v' n]|] eqn:Hm; [|apply Hrest].
    intros Hv. apply elem_of_cons in Hv as [->|Hv]; [|by eapply Hrest].
    exists [], (c :: s). split; [done|]. by eapply match_attr_captures.
Qed.
End Attributes.

(** The addresses that the stripper collects.  Every link is the value of
    an [href] attribute of the text searched, and every image the value of a
    [src] attribute: somewhere in the text stands the attribute name, in
    either letter case, then [=], at most one quote, and then the address,
    which runs up to the next quote, space or [>], or to the end of the
    text. *)
Theorem collected_addresses_are_attribute_values (s v : pystr) :
  (v ∈ HREF_RE_findall s → ∃ a t, s = a ++ t ∧ captures (py "href") v t)
  ∧ (v ∈ SRC_RE_findall s → ∃ a t, s = a ++ t ∧ captures (py "src") v t).
Proof. split; apply attr_findall_captures. Qed.

(** ** The text of a raw file *)

Section Decoded.
Import Decoding.

Lemma in_range_spec lo hi c : in_range lo hi c = true ↔ (lo ≤ c ≤ hi)%N.
Proof. unfold in_range. rewrite andb_true_iff, !N.leb_le. done. Qed.

(** A text decoded as UTF-8 begins with the code point of a well-formed
    sequence, and goes on with the text of the remaining bytes. *)
Lemma utf_8_cases data s :
  utf_8 data = Some s →
  (data = [] ∧ s = [])
  ∨ ∃ bs cp r s', data = bs ++ r ∧ s = cp :: s' ∧ sequence bs cp ∧ utf_8 r = Some s'.
Proof.
  destruct data as [|b0 r]; [intros [= <-]; by left|]. intros H. right.
  cbn [utf_8] in H. destruct (N.ltb_spec b0 128) as [H0|H0].
  { destruct (utf_8 r) as [s'|] eqn:Hr; [|done]. injection H as <-.
    exists [b0], b0, r, s'. split_and!; [done | done | by constructor | done]. }
  destruct (in_range 194 223 b0) eqn:H2.
  { apply in_range_spec in H2. destruct r as [|b1 r1]; [done|].
    destruct (continuation b1) eqn:H1; [|done]. apply in_range_spec in H1.
    destruct (utf_8 r1) as [s'|] eqn:Hr; [|done]. injection H as <-.
    eexists [b0; b1], _, r1, s'. split_and!; [done | done | by constructor | done]. }
  destruct (in_range 224 239 b0) eqn:H3.
  { apply in_range_spec in H3. destruct r as [|b1 [|b2 r2]]; [done | done |].
    destruct (in_range _ _ b1 && continuation b2) eqn:H1; [|done].
    apply andb_true_iff in H1 as [H1 Hc2]. apply in_range_spec in H1, Hc2.
    destruct (utf_8 r2) as [s'|] eqn:Hr; [|done]. injection H as <-.
    eexists [b0; b1; b2], _, r2, s'. split_and!; [done | done | by constructor | done]. }
  destruct (in_range 240 244 b0) eqn:H4; [|done].
  apply in_range_spec in H4. destruct r as [|b1 [|b2 [|b3 r3]]]; [done | done | done |].
  destruct (in_range _ _ b1 && continuation b2 && continuation b3) eqn:H1; [|done].
  apply andb_true_iff in H1 as [H1 Hc3]. apply andb_true_iff in H1 as [H1 Hc2].
  apply in_range_spec in H1, Hc2, Hc3.
  destruct (utf_8 r3) as [s'|] eqn:Hr; [|done]. injection H as <-.
  eexists [b0; b1; b2; b3], _, r3, s'. split_and!; [done | done | by constructor | done].
Qed.

Lemma sequence_length bs cp : sequence bs cp → 0 < length bs.
Proof. destruct 1; simpl; lia. Qed.

Lemma utf_8_ind (P : list N → pystr → Prop) :
  P [] [] →
  (∀ bs cp r s', sequence bs cp → utf_8 r = Some s' → P r s' → P (bs ++ r) (cp :: s')) →
  ∀ data s, utf_8 data = Some s → P data s.
Proof.
  intros Hnil Hstep data.
  induction data as [data IH] using (induction_ltof1 _ (@length N)). unfold ltof in IH.
  intros s Hs.
  destruct (utf_8_cases data s Hs) as [[-> ->]|(bs & cp & r & s' & -> & -> & Hseq & Hr)];
    [done|].
  apply Hstep; [done | done |]. apply IH; [|done].
  rewrite length_app. apply sequence_length in Hseq. lia.
Qed.

Lemma sequence_scalar bs cp : sequence bs cp → scalar cp.
Proof.
  unfold scalar. destruct 1 as [b0 H0|b0 b1 H0 H1|b0 b1 b2 H0 H1 H2|b0 b1 b2 b3 H0 H1 H2 H3].
  - lia.
  - lia.
  - destruct (N.eqb_spec b0 224), (N.eqb_spec b0 237); lia.
  - destruct (N.eqb_spec b0 240), (N.eqb_spec b0 244); lia.
Qed.

(** U+0130 has one encoding. *)
Lemma sequence_dotted_capital bs : sequence bs 304%N → bs = [196; 176]%N.
Proof.
  inversion 1 as [b0 H0|b0 b1 H0 H1|b0 b1 b2 H0 H1 H2|b0 b1 b2 b3 H0 H1 H2 H3]; subst.
  - lia.
  - assert (b0 = 196 ∧ b1 = 176)%N as [-> ->] by lia. done.
  - exfalso. destruct (N.eqb_spec b0 224), (N.eqb_spec b0 237); lia.
  - exfalso. destruct (N.eqb_spec b0 240), (N.eqb_spec b0 244); lia.
Qed.

Lemma utf_8_ascii data : Forall (λ b, (b < 128)%N) data → utf_8 data = Some data.
Proof.
  induction 1 as [|b data Hb _ IH]; [done|]. cbn [utf_8].
  apply N.ltb_lt in Hb. by rewrite Hb, IH.
Qed.

Lemma utf_8_length data s : utf_8 data = Some s → length s ≤ length data.
Proof.
  revert data s. apply (utf_8_ind (λ data s, length s ≤ length data)); [done|].
  intros bs cp r s' Hseq _ IH. apply sequence_length in Hseq.
  rewrite length_app. simpl. lia.
Qed.

Lemma utf_8_scalars data s : utf_8 data = Some s → Forall scalar s.
Proof.
  revert data s. apply (utf_8_ind (λ _ s, Forall scalar s)); [constructor|].
  intros bs cp r s' Hseq _ IH. constructor; [by eapply sequence_scalar | done].
Qed.

Lemma utf_8_dotted_capital data s :
  utf_8 data = Some s → 304%N ∈ s → holds_dotted_capital data.
Proof.
  revert data s.
  apply (utf_8_ind (λ data s, 304%N ∈ s → holds_dotted_capital data));
    [intros H; by apply elem_of_nil in H|].
  intros bs cp r s' Hseq _ IH Hin. apply elem_of_cons in Hin as [<-|Hin].
  - apply sequence_dotted_capital in Hseq as ->. by exists [], r.
  - destruct (IH Hin) as (a & b & ->). exists (bs ++ a), b. by rewrite <- app_assoc.
Qed.

Lemma decode_length data : length (decode data) ≤ length data.
Proof.
  unfold decode. destruct (utf_8 data) as [s|] eqn:Hs; [by apply utf_8_length | done].
Qed.

Lemma decode_dotted_capital data :
  Forall (λ b, (b < 256)%N) data → 304%N ∈ decode data → holds_dotted_capital data.
Proof.
  intros Hbytes. unfold decode. destruct (utf_8 data) as [s|] eqn:Hs.
  - by apply utf_8_dotted_capital.
  - unfold latin_1. intros Hin. rewrite Forall_forall in Hbytes.
    specialize (Hbytes _ Hin). simpl in Hbytes. lia.
Qed.
End Decoded.

(** The text that the processor reads from a file.  Decoding never fails
    and gives at most one character for each byte.  Bytes that are all below
    128 come out as they are.  When the bytes are not well-formed UTF-8,
    every byte becomes the character of its value.  In either case the
    characters are Unicode scalar values. *)
Theorem every_file_decodes_to_a_text (data : list N) :
  length (Decoding.decode data) ≤ length data
  ∧ (Forall (λ b, (b < 128)%N) data → Decoding.decode data = data)
  ∧ (Decoding.utf_8 data = None → Decoding.decode data = data)
  ∧ (Forall (λ b, (b < 256)%N) data → Forall scalar (Decoding.decode data)).
Proof.
  split_and!.
  - apply decode_length.
  - intros Hascii. unfold Decoding.decode. by rewrite utf_8_ascii.
  - intros Hnone. unfold Decoding.decode. by rewrite Hnone.
  - intros Hbytes. unfold Decoding.decode.
    destruct (Decoding.utf_8 data) as [s|] eqn:Hs; [by eapply utf_8_scalars|].
    eapply Forall_impl; [exact Hbytes|]. intros b Hb. simpl in Hb. unfold scalar. lia.
Qed.

(** The capital I with dot above reaches the stripper in one way only.  If
    the text of a file holds the character, the file is well-formed UTF-8
    and holds the two bytes [C4 B0]; a file that is decoded as latin-1 never
    gives it.  And on a text without the character the stripper returns,
    within as many turns as the file has bytes, plus one, a text without
    markup. *)
Theorem dotted_capital_needs_its_two_bytes (data : list N) :
  Forall (λ b, (b < 256)%N) data →
  (304%N ∈ Decoding.decode data →
     holds_dotted_capital data ∧ is_Some (Decoding.utf_8 data))
  ∧ (304%N ∉ Decoding.decode data →
     ∃ text links images,
       Processor.strip_html (S (length data)) (Decoding.decode data)
       = Some (text, links, images)
       ∧ plain_text text).
Proof.
  intros Hbytes. split.
  - intros Hin. split; [by apply decode_dotted_capital|].
    unfold Decoding.decode in Hin.
    destruct (Decoding.utf_8 data) as [s|]; [done|].
    unfold Decoding.latin_1 in Hin. rewrite Forall_forall in Hbytes.
    specialize (Hbytes _ Hin). simpl in Hbytes. lia.
  - intros Hdot. apply strip_html_dotless; [done|].
    pose proof (decode_length data). lia.
Qed.

Lemma dotted_capital_needs_its_two_bytes_witness :
  let data := [60; 112; 62; 196; 176; 60; 47; 112; 62]%N in
  (304%N ∈ Decoding.decode data →
     holds_dotted_capital data ∧ is_Some (Decoding.utf_8 data))
  ∧ (304%N ∉ Decoding.decode data →
     ∃ text links images,
       Processor.strip_html (S (length data)) (Decoding.decode data)
       = Some (text, links, images)
       ∧ plain_text text).
Proof.
  apply (dotted_capital_needs_its_two_bytes [60; 112; 62; 196; 176; 60; 47; 112; 62]%N).
  repeat constructor.
Defined.
